(** * Collatz tree drawing: a shallow embedding of [src/main.cpp]

    The program builds, for every integer below a bound, the map from a
    value to the values that reach it in one Collatz step
    ([processValue], [buildUpTo]), turns the map into a tree rooted at 1
    ([Node::Node], [Node::calculateWidth]), lays the tree out
    ([Node::setPositions]) and hands the positioned tree to ImageMagick
    ([generateImage], [main]).

    Conventions of the embedding.
    - [int] is a 32-bit two's-complement integer, represented by a [Z] in
      [[int_min, int_max]]; every arithmetic operation of the source is
      followed by an explicit [wrap].  (ISO C++ leaves signed overflow
      undefined; the wrap-around is what the compiled program does on the
      usual targets.)  [std::size_t] is a 64-bit unsigned integer.
    - [/] and [%] on [int] truncate toward zero: [Z.quot] and [Z.rem].
    - [std::unordered_map<int, std::vector<int>>] is a [gmap Z (list Z)];
      the program never iterates over the map, so its order is irrelevant.
    - A reference into the map (the value returned by [processValue]) is
      the key of the referenced entry.
    - Recursion that the source does not bound is given a [fuel] argument
      bounding its depth; running out of it is the result [OutOfFuel]. *)

From stdpp Require Import gmap strings list fin_maps.
From Stdlib Require Import ZArith Lia.

#[local] Open Scope Z_scope.

(** ** Machine integers *)

Definition int_min : Z := - 2 ^ 31.
Definition int_max : Z := 2 ^ 31 - 1.

Definition is_int (z : Z) : Prop := int_min <= z <= int_max.

#[global] Instance is_int_dec z : Decision (is_int z).
Proof. unfold is_int. apply _. Defined.

(** Reduction of an integer to the 32-bit signed range. *)
Definition wrap (z : Z) : Z := (z + 2 ^ 31) mod 2 ^ 32 - 2 ^ 31.

Definition int_add (a b : Z) : Z := wrap (a + b).
Definition int_sub (a b : Z) : Z := wrap (a - b).
Definition int_mul (a b : Z) : Z := wrap (a * b).
Definition int_neg (a : Z) : Z := wrap (- a).

(** [std::size_t] arithmetic: modulo [2 ^ 64]; conversion of a [size_t]
    to [int] keeps the low 32 bits. *)
Definition size_t_wrap (z : Z) : Z := z mod 2 ^ 64.
Definition to_int (z : Z) : Z := wrap z.

(** ** Results of the program's functions *)

Inductive result (A : Type) : Type :=
| Ok (a : A)
| Throw (what : string)
| OutOfFuel.

Arguments Ok {A} a.
Arguments Throw {A} what.
Arguments OutOfFuel {A}.

#[global] Instance result_ret : MRet result := λ A a, Ok a.

#[global] Instance result_bind : MBind result := λ A B k r,
  match r with
  | Ok a => k a
  | Throw what => Throw what
  | OutOfFuel => OutOfFuel
  end.

(** The body of a range-based [for] loop run over a sequence, threading the
    state and stopping at the first exception. *)
Fixpoint for_each {A S : Type} (body : S → A → result S) (s : S) (l : list A)
  : result S :=
  match l with
  | [] => Ok s
  | x :: l' => s' ← body s x; for_each body s' l'
  end.

(** ** The predecessor map *)

Abbreviation NodesMap := (gmap Z (list Z)).

(** [nodes[key]]: the subscript operator creates an empty entry on a miss. *)
Definition subscript (nodes : NodesMap) (key : Z) : NodesMap :=
  match nodes !! key with
  | Some _ => nodes
  | None => <[key := []]> nodes
  end.

(** [ref.push_back(v)] for a reference [ref] to the entry of key [ref]. *)
Definition push_back (nodes : NodesMap) (ref : Z) (v : Z) : NodesMap :=
  alter (λ l, l ++ [v]) ref nodes.

(** The local [next] of [processValue]. *)
Definition next (value : Z) : Z :=
  if Z.rem value 2 =? 0 then Z.quot value 2 else int_add (int_mul 3 value) 1.

(** [processValue(nodes, value)]: the new state of the map and the key of
    the entry whose vector is returned by reference. *)
Fixpoint processValue (fuel : nat) (nodes : NodesMap) (value : Z)
  : result (NodesMap * Z) :=
  match fuel with
  | O => OutOfFuel
  | S fuel' =>
    match nodes !! value with
    | Some _ => Ok (nodes, value)
    | None =>
      let nodes := <[value := []]> nodes in
      '(nodes, ref) ← processValue fuel' nodes (next value);
      let nodes := push_back nodes ref value in
      Ok (subscript nodes value, value)
    end
  end.

(** [buildUpTo(high)]; the loop visits [i = 2, 3, ..., high - 1]. *)
Definition buildUpTo (fuel : nat) (high : Z) : result NodesMap :=
  let nodes : NodesMap := ∅ in
  if high <=? 0 then Throw "Cannot create tree with integers zero or lower"
  else
    let nodes := <[1 := []]> nodes in
    for_each (λ nodes i, '(nodes, _) ← processValue fuel nodes i; Ok nodes)
             nodes (seqZ 2 (high - 2)).

(** ** The layout tree *)

Definition nodeHeight : Z := 20.
Definition nodeSpacing : Z := 10.

(** [class Node]; [width] is indeterminate until [calculateWidth] stores
    it (the constructor does so before anything reads it). *)
#[local] Unset Elimination Schemes.
Inductive Node : Type := MkNode {
  value_ : Z;
  above_ : list Node;
  positionX : Z;
  positionY : Z;
  width : Z
}.
#[local] Set Elimination Schemes.

(** The static members [highestY_] and [highestX_], both initially 0. *)
Record Statics : Type := MkStatics { highestY_ : Z; highestX_ : Z }.

Definition statics_init : Statics := {| highestY_ := 0; highestX_ := 0 |}.

(** [os << value] for an [int]: the decimal digits, after a minus sign for
    a negative value.  An [int] has at most ten digits. *)
Definition digit_char (d : Z) : Ascii.ascii :=
  Ascii.ascii_of_nat (48 + Z.to_nat d).

Fixpoint decimal (more : nat) (n : Z) (acc : string) : string :=
  let acc := String (digit_char (n mod 10)) acc in
  match more with
  | O => acc
  | S more' => if n / 10 =? 0 then acc else decimal more' (n / 10) acc
  end.

Definition int_to_string (value : Z) : string :=
  if value <? 0 then "-" +:+ decimal 9 (- value) ""
  else decimal 9 value "".

Definition textWidth (n : Node) : Z :=
  let text := int_to_string (value_ n) in
  to_int (size_t_wrap (8 * Z.of_nat (String.length text))).

(** [calculateWidth]: the node with the widths of its whole subtree
    stored; the value the source returns is the [width] just stored. *)
Fixpoint calculateWidth (n : Node) : Node :=
  match n with
  | MkNode value above px py _ =>
    let textWidthVal := textWidth n in
    match above with
    | [] => MkNode value above px py textWidthVal
    | _ :: _ =>
      let w :=
        to_int (size_t_wrap ((Z.of_nat (length above) - 1) * nodeSpacing)) in
      let '(above, w) :=
        (fix loop (xs : list Node) (w : Z) : list Node * Z :=
           match xs with
           | [] => ([], w)
           | x :: xs' =>
             let x := calculateWidth x in
             let '(xs', w) := loop xs' (int_add w (width x)) in
             (x :: xs', w)
           end) above w in
      let w := if w <? textWidthVal then textWidthVal else w in
      MkNode value above px py w
    end
  end.

(** [Node::Node(value, nodes)]. *)
Fixpoint Node_new (fuel : nat) (value : Z) (nodes : NodesMap) : result Node :=
  match fuel with
  | O => OutOfFuel
  | S fuel' =>
    match nodes !! value with
    | None => Throw "Invalid data generated"
    | Some above =>
      above_ ← for_each (λ above_ v, c ← Node_new fuel' v nodes; Ok (above_ ++ [c]))
                        [] above;
      Ok (calculateWidth (MkNode value above_ 0 0 0))
    end
  end.

(** [setPositions(x, y)]: the positioned subtree and the new statics. *)
Fixpoint setPositions (n : Node) (x y : Z) (st : Statics) : Node * Statics :=
  match n with
  | MkNode value above _ _ w =>
    let offsetX := Z.quot (int_neg w) 2 in
    let '(above, st) :=
      (fix loop (xs : list Node) (offsetX : Z) (st : Statics)
         : list Node * Statics :=
         match xs with
         | [] => ([], st)
         | c :: xs' =>
           let posX := int_add (int_add x offsetX) (Z.quot (width c) 2) in
           let posY := int_sub (int_sub y nodeSpacing) nodeHeight in
           let offsetX := int_add offsetX (int_add (width c) nodeSpacing) in
           let st := {| highestX_ := Z.max (highestX_ st) posX;
                        highestY_ := Z.min (highestY_ st) posY |} in
           let '(c, st) := setPositions c posX posY st in
           let '(xs', st) := loop xs' offsetX st in
           (c :: xs', st)
         end) above offsetX st in
    (MkNode value above x y w, st)
  end.

(** [draw(drawFunc, below)]: the calls of [drawFunc], in order. *)
Fixpoint draw (n : Node) (below : option Node) : list (option Node * Node) :=
  match n with
  | MkNode _ above _ _ _ =>
    (below, n) :: flat_map (λ x, draw x (Some n)) above
  end.

(** ** Image generation and the command line *)

(** What the program asks of Magick++: a text label or a line, at pixel
    coordinates (the fonts, colours and stroke widths are constants). *)
Inductive Drawable : Type :=
| DrawableText (x y : Z) (text : string)
| DrawableLine (startX startY endX endY : Z).

(** The standard streams: the lines written so far, oldest first. *)
Record Console : Type := MkConsole { cout : list string; cerr : list string }.

Definition console_init : Console := {| cout := []; cerr := [] |}.
Definition put_out (io : Console) (line : string) : Console :=
  {| cout := cout io ++ [line]; cerr := cerr io |}.
Definition put_err (io : Console) (line : string) : Console :=
  {| cout := cout io; cerr := cerr io ++ [line] |}.

Section Program.

(** Magick++ is outside the repository: an image type with its
    constructor (geometry, white background), [draw] and [write], each of
    which may throw. *)
Variable Image : Type.
Variable Magick_Image : Z → Z → result Image.
Variable Magick_draw : Image → Drawable → result Image.
Variable Magick_write : Image → string → result unit.

(** [iss >> upTo] on a stream holding the argument: the extracted [int],
    or [None] when the extraction sets the fail bit. *)
Variable extract_int : string → option Z.

Definition imagePadding : Z := 80.

(** The body of the lambda passed to [draw]. *)
Definition drawFunc (globalOffsetX globalOffsetY : Z) (image : Image)
    (call : option Node * Node) : result Image :=
  let '(below, current) := call in
  let text := int_to_string (value_ current) in
  image ← Magick_draw image
    (DrawableText
       (int_sub (int_add (positionX current) globalOffsetX)
                (Z.quot (textWidth current) 2))
       (int_add (positionY current) globalOffsetY) text);
  match below with
  | None => Ok image
  | Some below =>
    let startX := int_add (positionX current) globalOffsetX in
    let startY := int_add (int_add (positionY current) globalOffsetY) 8 in
    let endX := int_add (positionX below) globalOffsetX in
    let endY := int_sub (int_add (positionY below) globalOffsetY) 15 in
    Magick_draw image (DrawableLine startX startY endX endY)
  end.

(** [generateImage(nodes, outFileName)], run with the statics [st]. *)
Definition generateImage (fuel : nat) (st : Statics) (nodes : NodesMap)
    (outFileName : string) : result unit :=
  rootNode ← Node_new fuel 1 nodes;
  let '(rootNode, st) := setPositions rootNode 0 0 st in
  let imageWidth := int_add (width rootNode) (int_mul imagePadding 2) in
  let imageHeight := int_sub (int_mul imagePadding 2) (highestY_ st) in
  let globalOffsetX := Z.quot imageWidth 2 in
  let globalOffsetY := int_sub imageHeight imagePadding in
  image ← Magick_Image (imageWidth mod 2 ^ 32) (imageHeight mod 2 ^ 32);
  image ← for_each (drawFunc globalOffsetX globalOffsetY) image
                   (draw rootNode None);
  Magick_write image outFileName.

(** [main(argc, argv)]: the value returned (or the exception that leaves
    [main]) and what was written to the streams. *)
Definition main (fuel : nat) (argv : list string) : result Z * Console :=
  let argc := Z.of_nat (length argv) in
  let io := console_init in
  if negb (argc =? 3) then
    (Ok 1, put_err io "Expected: collatz <up-to> <out-file>")
  else
    match extract_int (default "" (argv !! 1%nat)) with
    | None => (Ok 1, put_err io "Expected positive integer argument")
    | Some upTo =>
      if upTo <=? 0 then
        (Ok 1, put_err io "Expected positive integer argument")
      else
        let outFile := default "" (argv !! 2%nat) in
        let io := put_out io "Calculating..." in
        match buildUpTo fuel upTo with
        | Ok nodes =>
          let io := put_out io "Calculated" in
          let io := put_out io "Generating image..." in
          match generateImage fuel statics_init nodes outFile with
          | Ok _ => (Ok 0, put_out io "Done")
          | Throw what => (Throw what, io)
          | OutOfFuel => (OutOfFuel, io)
          end
        | Throw what => (Throw what, io)
        | OutOfFuel => (OutOfFuel, io)
        end
    end.

End Program.

(** [commaSeparateValues(os, c)]: the stream is the text written so far;
    [show x] is what [os << x] writes for an element of the container.
    [end_] is the index of the iterator [--std::end(c)]. *)
Definition commaSeparateValues {A : Type} (show : A → string) (os : string)
    (c : list A) : string :=
  match c with
  | [] => os
  | _ :: _ =>
    let end_ := (length c - 1)%nat in
    let os := foldl (λ os x, (os +:+ show x) +:+ ", ") os (take end_ c) in
    match c !! end_ with
    | Some x => os +:+ show x
    | None => os
    end
  end.

(** ** Notions used to state the properties *)

(** The Collatz map as the glossary of the specification has it, on the
    mathematical integers ([n/2] for even [n], otherwise [3n+1]). *)
Definition collatz (n : Z) : Z := if Z.even n then n / 2 else 3 * n + 1.

(** [n] is on the trajectory of [i]: it is obtained from [i] by repeated
    steps, none of the values before it being 1 (a trajectory ends when it
    reaches 1). *)
Definition reaches (step : Z → Z) (i n : Z) : Prop :=
  ∃ k : nat, Nat.iter k step i = n ∧
             ∀ j : nat, (j < k)%nat → Nat.iter j step i ≠ 1.

(** No step [3n+1] taken from a key of the map left the range of [int]. *)
Definition no_overflow (nodes : NodesMap) : Prop :=
  set_Forall (λ n, Z.odd n = true → 3 * n + 1 <= int_max) (dom nodes).

#[global] Instance no_overflow_dec nodes : Decision (no_overflow nodes).
Proof. unfold no_overflow. apply _. Defined.

(** The keys of a map are [int]s (the key type of [NodesMap]). *)
Definition int_keys (nodes : NodesMap) : Prop := set_Forall is_int (dom nodes).

#[global] Instance int_keys_dec nodes : Decision (int_keys nodes).
Proof. unfold int_keys. apply _. Defined.

(** [descends steps i v]: the Collatz trajectory continued from [v] falls
    below [i] within [steps] steps, and no step [3n+1] on the way exceeds
    [int_max]. *)
Fixpoint descends (steps : nat) (i v : Z) : bool :=
  if v <? i then true
  else
    match steps with
    | O => false
    | S steps' =>
      if Z.even v then descends steps' i (v / 2)
      else (3 * v + 1 <=? int_max) && descends steps' i (3 * v + 1)
    end.

(** The number of steps allowed for a trajectory to fall below its start. *)
Definition descent_steps : nat := 400.

(** [check] holds for the [n] values from [i] on. *)
Fixpoint all_from (check : Z → bool) (n : nat) (i : Z) : bool :=
  match n with
  | O => true
  | S n' => check i && all_from check n' (i + 1)
  end.

(** The largest bound below which no trajectory overflows: the range
    [2 <= i < 113383]. *)
Definition overflow_free_bound : Z := 113383.

(** The state of the map while [processValue] runs: the keys in [pending]
    have been inserted but not yet appended to the vector of their
    successor; [i0] is the last value for which the loop of [buildUpTo]
    has called [processValue]. *)
Record partial_map (pending : gset Z) (i0 : Z) (nodes : NodesMap) : Prop := {
  pm_one : 1 ∈ dom nodes;
  pm_int : ∀ n, n ∈ dom nodes → is_int n;
  pm_pending : pending ⊆ dom nodes;
  pm_next : ∀ n, n ∈ dom nodes → n ∉ pending → n ≠ 1 →
    ∃ l, nodes !! next n = Some l ∧ count_occ Z.eq_dec l n = 1%nat;
  pm_elem : ∀ k l x, nodes !! k = Some l → x ∈ l →
    next x = k ∧ x ∈ dom nodes ∧ (x ∉ pending) ∧ x ≠ 1;
  pm_reach : ∀ n, n ∈ dom nodes →
    n = 1 ∨ ∃ i, 2 <= i <= i0 ∧ reaches next i n
}.

(** The key set that the specification announces for [buildUpTo high]:
    1, the values of the range, and the values of their trajectories that
    are at least [high]. *)
Definition announced_key (step : Z → Z) (high n : Z) : Prop :=
  n = 1 ∨ 2 <= n < high ∨ (high <= n ∧ ∃ i, 2 <= i < high ∧ reaches step i n).

(** [path_to k i n]: [n] is the [k]-th value after [i] and none of the
    values before it is 1 (a check of [reaches next] that computes). *)
Fixpoint path_to (k : nat) (i n : Z) : bool :=
  match k with
  | O => i =? n
  | S k' => negb (i =? 1) && path_to k' (next i) n
  end.

(** Structural induction on trees. *)
Definition Node_tree_ind (P : Node → Prop)
    (step : ∀ value above px py w,
        Forall P above → P (MkNode value above px py w)) :
  ∀ n, P n :=
  fix go (n : Node) : P n :=
    match n with
    | MkNode value above px py w =>
      step value above px py w
        ((fix go_list (l : list Node) : Forall P l :=
            match l with
            | [] => @List.Forall_nil Node P
            | x :: l' => @List.Forall_cons Node P x l' (go x) (go_list l')
            end) above)
    end.

(** [subnode n d]: [d] is [n] or one of the nodes above it. *)
Inductive subnode : Node → Node → Prop :=
| subnode_refl n : subnode n n
| subnode_child n c d : c ∈ above_ n → subnode c d → subnode n d.

(** In the words of the specification: the room that the children of a
    node need, [sum(child.width) + spacing * (childCount - 1)], on the
    mathematical integers. *)
Definition sum_widths (above : list Node) : Z :=
  foldr (λ c s, width c + s) 0 above.

Definition children_extent (above : list Node) : Z :=
  sum_widths above + nodeSpacing * (Z.of_nat (length above) - 1).

(** The loop of [setPositions] for a node placed at [(x, y)], as a
    function of its own. *)
Fixpoint place (x y : Z) (xs : list Node) (offsetX : Z) (st : Statics)
  : list Node * Statics :=
  match xs with
  | [] => ([], st)
  | c :: xs' =>
    let posX := int_add (int_add x offsetX) (Z.quot (width c) 2) in
    let posY := int_sub (int_sub y nodeSpacing) nodeHeight in
    let offsetX := int_add offsetX (int_add (width c) nodeSpacing) in
    let st := {| highestX_ := Z.max (highestX_ st) posX;
                 highestY_ := Z.min (highestY_ st) posY |} in
    let '(c, st) := setPositions c posX posY st in
    let '(xs', st) := place x y xs' offsetX st in
    (c :: xs', st)
  end.

(** In the words of the specification: the placement of the children of
    a node of width [w] placed at [(x, y)], on the mathematical integers.
    The offset starts at [-w/2] and is advanced by [w_t + spacing] after
    each child; child [i] is placed at [x + offset + w_i/2] and at
    [y - (rowHeight + spacing)].  (The divisions truncate, as [/] on
    [int] does.) *)
Definition advance (above : list Node) : Z :=
  foldr (λ c s, width c + nodeSpacing + s) 0 above.

Definition child_offset (w : Z) (above : list Node) (i : nat) : Z :=
  Z.quot (- w) 2 + advance (take i above).

Definition childX (x w : Z) (above : list Node) (i : nat) : Z :=
  x + child_offset w above i + Z.quot (default 0 (width <$> above !! i)) 2.

Definition childY (y : Z) : Z := y - (nodeHeight + nodeSpacing).

(** The nodes above a node, in the order in which [setPositions] places
    them. *)
Fixpoint descendants (n : Node) : list Node :=
  match n with
  | MkNode _ above _ _ _ => flat_map (λ c, c :: descendants c) above
  end.

(** The x coordinates that the placement of the subtree [n] at [x] gives
    on the mathematical integers all fit in an [int]. *)
Fixpoint layout_fits (n : Node) (x : Z) : bool :=
  match n with
  | MkNode _ above _ _ w =>
    (fix go (xs : list Node) (offset : Z) : bool :=
       match xs with
       | [] => true
       | c :: xs' =>
         let posX := x + offset + Z.quot (width c) 2 in
         bool_decide (is_int posX) && layout_fits c posX
         && go xs' (offset + (width c + nodeSpacing))
       end) above (Z.quot (- w) 2)
  end.

(** No width computation in the tree overflowed: at every node the room
    that its children need, on the mathematical integers, fits in an
    [int]. *)
Fixpoint widths_exact (n : Node) : bool :=
  match n with
  | MkNode _ above _ _ _ =>
    bool_decide (children_extent above <= int_max) && forallb widths_exact above
  end.

(** Any two children of one node of the tree are at least half the sum of
    their widths apart. *)
Definition siblings_apart (t : Node) : Prop :=
  ∀ d (i j : nat) c1 c2, subnode t d → i ≠ j →
    above_ d !! i = Some c1 → above_ d !! j = Some c2 →
    (width c1 + width c2) / 2 <= Z.abs (positionX c1 - positionX c2).

(** [expands nodes r v]: the value [v] is met when the tree of [r] is
    expanded: it is [r], or it is in the vector of a value met before. *)
Inductive expands (nodes : NodesMap) : Z → Z → Prop :=
| expands_root r : expands nodes r r
| expands_child r above c v :
    nodes !! r = Some above → c ∈ above → expands nodes c v →
    expands nodes r v.

(** [expansion_within n nodes r]: the expansion of [r] is finite, of
    depth at most [n]: following the vectors from [r], every way up ends
    after fewer than [n] values, at a value that is not a key or at a key
    with an empty vector. *)
Fixpoint expansion_within (n : nat) (nodes : NodesMap) (r : Z) : bool :=
  match n with
  | O => false
  | S n' =>
    match nodes !! r with
    | None => true
    | Some above => forallb (expansion_within n' nodes) above
    end
  end.

(** The values on the way from a node down to the root 1 of the tree,
    the node first: each is a predecessor of the next one and occurs
    once. *)
Inductive chain : list Z → Prop :=
| chain_root : chain [1]
| chain_cons x u path :
    next x = u → x ≠ 1 → x ∉ u :: path → chain (u :: path) →
    chain (x :: u :: path).

(** A stand-in for [iss >> upTo], to run [main] on examples: it accepts
    the strings of decimal digits whose value is an [int] (the library
    also accepts leading white space, a sign and trailing characters). *)
Fixpoint digits_value (s : string) (acc : Z) : option Z :=
  match s with
  | EmptyString => Some acc
  | String c s' =>
    let d := Z.of_nat (Ascii.nat_of_ascii c) - 48 in
    if (0 <=? d) && (d <=? 9) then digits_value s' (10 * acc + d) else None
  end.

Definition extract_decimal (s : string) : option Z :=
  match s with
  | EmptyString => None
  | _ =>
    match digits_value s 0 with
    | Some v => if v <=? int_max then Some v else None
    | None => None
    end
  end.

(** ** Notions used to state further properties *)

(** [extends nodes nodes']: every entry of [nodes] is still in [nodes'],
    its vector possibly longer at the end. *)
Definition extends (nodes nodes' : NodesMap) : Prop :=
  ∀ k l, nodes !! k = Some l → ∃ l', nodes' !! k = Some (l ++ l').

(** A tree with its positions forgotten: what [setPositions] does not
    touch. *)
Fixpoint unplaced (n : Node) : Node :=
  match n with
  | MkNode value above _ _ w => MkNode value (unplaced <$> above) 0 0 w
  end.

(** The horizontal footprint of a placed node: the interval of its width
    around its position, the halves as [setPositions] takes them. *)
Definition left_edge (d : Node) : Z := positionX d - Z.quot (width d) 2.
Definition right_edge (d : Node) : Z :=
  positionX d + (width d - Z.quot (width d) 2).

(** The subtree [t] can be placed at [x] with every coordinate exact: its
    widths are the computed ones, no width computation overflowed and the
    footprint of the root fits in an [int]. *)
Definition placeable (t : Node) (x : Z) : Prop :=
  calculateWidth t = t ∧ widths_exact t = true ∧
  is_int (x - Z.quot (width t) 2) ∧
  is_int (x + (width t - Z.quot (width t) 2)).

(** The number of levels above a node. *)
Fixpoint height (n : Node) : Z :=
  match n with
  | MkNode _ above _ _ _ => foldr (λ c h, Z.max (1 + height c) h) 0 above
  end.

(** What the lambda of [generateImage] passes to [image.draw] in one
    call: the label and, for a node that has one below it, the line. *)
Definition drawables (globalOffsetX globalOffsetY : Z)
    (call : option Node * Node) : list Drawable :=
  let '(below, current) := call in
  DrawableText
    (int_sub (int_add (positionX current) globalOffsetX)
             (Z.quot (textWidth current) 2))
    (int_add (positionY current) globalOffsetY)
    (int_to_string (value_ current))
  :: match below with
     | None => []
     | Some below =>
       [DrawableLine
          (int_add (positionX current) globalOffsetX)
          (int_add (int_add (positionY current) globalOffsetY) 8)
          (int_add (positionX below) globalOffsetX)
          (int_sub (int_add (positionY below) globalOffsetY) 15)]
     end.

(** A drawable lies on a canvas of the given size, [imagePadding] away
    from its border: a label with its 8 pixels for each character, a line
    with both ends, the start not below the end. *)
Definition inside (W H : Z) (d : Drawable) : Prop :=
  match d with
  | DrawableText x y text =>
    imagePadding <= x ∧
    x + 8 * Z.of_nat (String.length text) <= W - imagePadding ∧
    imagePadding <= y <= H - imagePadding
  | DrawableLine startX startY endX endY =>
    imagePadding <= startX <= W - imagePadding ∧
    imagePadding <= endX <= W - imagePadding ∧
    imagePadding <= startY ∧ startY <= endY ∧ endY <= H - imagePadding
  end.

(** The values of a subtree, in the order in which [draw] visits its
    nodes. *)
Fixpoint values (n : Node) : list Z :=
  match n with
  | MkNode value above _ _ _ => value :: flat_map values above
  end.

(** For every node of a subtree, the values on the way from the node down
    to the root of the tree; [path] holds the values below the subtree. *)
Fixpoint tree_paths (n : Node) (path : list Z) : list (list Z) :=
  match n with
  | MkNode value above _ _ _ =>
    (value :: path) :: flat_map (λ c, tree_paths c (value :: path)) above
  end.

(** * Proofs *)

(** ** Machine integers *)

Lemma wrap_is_int z : is_int (wrap z).
Proof.
  unfold is_int, wrap, int_min, int_max.
  pose proof (Z.mod_pos_bound (z + 2 ^ 31) (2 ^ 32) ltac:(lia)). lia.
Qed.

Lemma wrap_id z : is_int z → wrap z = z.
Proof.
  unfold is_int, wrap, int_min, int_max. intros H.
  rewrite Z.mod_small; lia.
Qed.

Lemma quot2_is_int z : is_int z → is_int (Z.quot z 2).
Proof.
  unfold is_int, int_min, int_max. intros H.
  pose proof (Z.quot_rem' z 2).
  pose proof (Z.rem_bound_abs z 2 ltac:(lia)). lia.
Qed.

Lemma next_is_int value : is_int value → is_int (next value).
Proof.
  intros H. unfold next. destruct (Z.rem value 2 =? 0).
  - by apply quot2_is_int.
  - apply wrap_is_int.
Qed.

(** A map whose keys are [int]s has at most [2 ^ 32] entries. *)
Lemma size_int_keys (nodes : NodesMap) :
  (∀ n, n ∈ dom nodes → is_int n) → Z.of_nat (size nodes) <= 2 ^ 32.
Proof.
  intros H.
  assert (Hsub : dom nodes ⊆ list_to_set (seqZ int_min (2 ^ 32))).
  { intros n Hn. apply elem_of_list_to_set, elem_of_seqZ.
    specialize (H n Hn). unfold is_int, int_min, int_max in *. lia. }
  apply subseteq_size in Hsub.
  rewrite size_dom in Hsub.
  rewrite size_list_to_set in Hsub by apply NoDup_seqZ.
  rewrite length_seqZ in Hsub. lia.
Qed.

(** ** [processValue] *)

Lemma processValue_fuel_mono fuel : ∀ fuel' nodes value r,
  (fuel ≤ fuel')%nat →
  processValue fuel nodes value = Ok r → processValue fuel' nodes value = Ok r.
Proof.
  induction fuel as [|fuel IH]; intros fuel' nodes value r Hle H; [done|].
  destruct fuel' as [|fuel']; [lia|].
  simpl in *. destruct (nodes !! value); [done|].
  destruct (processValue fuel _ _) as [[nodes2 ref]| |] eqn:E; try done.
  rewrite (IH fuel' _ _ _ ltac:(lia) E). done.
Qed.

(** Every call that misses inserts a new [int] key, so a budget larger
    than the number of [int]s that are not yet keys is never exhausted. *)
Lemma processValue_enough_fuel fuel : ∀ nodes value,
  (∀ n, n ∈ dom nodes → is_int n) → is_int value →
  2 ^ 32 < Z.of_nat fuel + Z.of_nat (size nodes) →
  ∃ r, processValue fuel nodes value = Ok r.
Proof.
  induction fuel as [|fuel IH]; intros nodes value Hkeys Hv Hfuel.
  { pose proof (size_int_keys nodes Hkeys). lia. }
  simpl. destruct (nodes !! value) eqn:E; [eauto|].
  destruct (IH (<[value := []]> nodes) (next value)) as [[nodes2 ref] ->].
  - intros n. rewrite dom_insert, elem_of_union, elem_of_singleton.
    intros [->|?]; auto.
  - by apply next_is_int.
  - rewrite map_size_insert_None by done. lia.
  - simpl. eauto.
Qed.

Lemma reaches_step i n : reaches next i n → n ≠ 1 → reaches next i (next n).
Proof.
  intros (k & Hk & Hbefore) Hn. exists (S k). split; [by rewrite <- Hk|].
  intros j Hj. destruct (decide (j = k)) as [->|]; [by rewrite Hk|].
  apply Hbefore. lia.
Qed.

Lemma partial_map_insert pending i0 nodes value :
  partial_map pending i0 nodes → nodes !! value = None → is_int value →
  (value = 1 ∨ ∃ i, 2 <= i <= i0 ∧ reaches next i value) →
  partial_map (pending ∪ {[value]}) i0 (<[value := []]> nodes).
Proof.
  intros [H1 Hint Hpend Hnext Helem Hreach] Hnone Hv Hr.
  assert (Hnotin : value ∉ dom nodes) by by apply not_elem_of_dom.
  split.
  - set_solver.
  - intros n. rewrite dom_insert, elem_of_union, elem_of_singleton.
    intros [->|?]; auto.
  - set_solver.
  - intros n Hn Hnp Hn1.
    assert (n ∈ dom nodes) by set_solver.
    destruct (Hnext n) as (l & Hl & Hc); [done|set_solver|done|].
    exists l. split; [|done].
    rewrite lookup_insert_ne; [done|]. intros Heq. congruence.
  - intros k l x Hk Hx.
    destruct (decide (value = k)) as [->|Hne].
    + rewrite lookup_insert_eq in Hk. injection Hk as <-. by apply elem_of_nil in Hx.
    + rewrite lookup_insert_ne in Hk by done.
      destruct (Helem k l x Hk Hx) as (? & ? & ? & ?).
      repeat split; [done|set_solver|set_solver|done].
  - intros n. rewrite dom_insert, elem_of_union, elem_of_singleton.
    intros [->|?]; auto.
Qed.

Lemma count_occ_snoc_ne (l : list Z) n v :
  n ≠ v → count_occ Z.eq_dec (l ++ [v]) n = count_occ Z.eq_dec l n.
Proof.
  intros Hne. rewrite count_occ_app. simpl.
  destruct (Z.eq_dec v n); [congruence|lia].
Qed.

Lemma count_occ_snoc_new (l : list Z) v :
  v ∉ l → count_occ Z.eq_dec (l ++ [v]) v = 1%nat.
Proof.
  intros Hv. rewrite count_occ_app. simpl.
  destruct (Z.eq_dec v v); [|done].
  rewrite (proj1 (count_occ_not_In Z.eq_dec l v)); [done|].
  by rewrite <- list_elem_of_In.
Qed.

Lemma partial_map_push_back pending i0 nodes value :
  partial_map (pending ∪ {[value]}) i0 nodes →
  value ∉ pending → value ≠ 1 → next value ∈ dom nodes →
  partial_map pending i0 (push_back nodes (next value) value).
Proof.
  intros [H1 Hint Hpend Hnext Helem Hreach] Hvp Hv1 Hnv.
  unfold push_back.
  assert (Hdom : dom (alter (λ l, l ++ [value]) (next value) nodes) = dom nodes)
    by apply dom_alter_L.
  apply elem_of_dom in Hnv as [lv Hlv].
  assert (Hvl : value ∉ lv).
  { intros Hin. destruct (Helem _ _ _ Hlv Hin) as (_ & _ & ? & _). set_solver. }
  split; rewrite ?Hdom.
  - done.
  - done.
  - set_solver.
  - intros n Hn Hnp Hn1.
    destruct (decide (n = value)) as [->|Hne].
    + exists (lv ++ [value]). split.
      * by rewrite lookup_alter_eq, Hlv.
      * by apply count_occ_snoc_new.
    + destruct (Hnext n) as (l & Hl & Hc); [done|set_solver|done|].
      destruct (decide (next value = next n)) as [Heq|Hneq].
      * exists (l ++ [value]). split.
        -- rewrite Heq, lookup_alter_eq, Hl. done.
        -- by rewrite count_occ_snoc_ne.
      * exists l. by rewrite lookup_alter_ne.
  - intros k l x Hk Hx.
    destruct (decide (next value = k)) as [<-|Hne].
    + rewrite lookup_alter_eq, Hlv in Hk. injection Hk as <-.
      apply elem_of_app in Hx as [Hx|Hx].
      * destruct (Helem _ _ _ Hlv Hx) as (? & ? & ? & ?).
        repeat split; [done|done|set_solver|done].
      * apply list_elem_of_singleton in Hx as ->.
        repeat split; [set_solver|done|done].
    + rewrite lookup_alter_ne in Hk by done.
      destruct (Helem _ _ _ Hk Hx) as (? & ? & ? & ?).
      repeat split; [done|done|set_solver|done].
  - done.
Qed.

(** What one call of [processValue] does to the map. *)
Lemma processValue_spec fuel : ∀ nodes value pending i0 r,
  partial_map pending i0 nodes → is_int value →
  (value = 1 ∨ ∃ i, 2 <= i <= i0 ∧ reaches next i value) →
  processValue fuel nodes value = Ok r →
  ∃ nodes', r = (nodes', value) ∧ partial_map pending i0 nodes' ∧
            dom nodes ⊆ dom nodes' ∧ value ∈ dom nodes'.
Proof.
  induction fuel as [|fuel IH]; intros nodes value pending i0 r Hpm Hv Hr H;
    [done|].
  simpl in H. destruct (nodes !! value) as [l|] eqn:E.
  { injection H as <-. exists nodes. split_and!; [done|done|done|].
    apply elem_of_dom; eauto. }
  destruct (processValue fuel _ _) as [[nodes2 ref]| |] eqn:E2; try done.
  simpl in H. injection H as <-.
  assert (Hv1 : value ≠ 1).
  { intros ->. destruct Hpm as [H1 _ _ _ _ _].
    apply elem_of_dom in H1 as [? ?]. congruence. }
  assert (Hvp : value ∉ pending).
  { intros Hin. destruct Hpm as [_ _ Hp _ _ _].
    apply Hp, elem_of_dom in Hin as [? ?]. congruence. }
  apply IH with (pending := pending ∪ {[value]}) (i0 := i0) in E2
    as (nodes' & [= -> ->] & Hpm' & Hsub & Hin).
  - pose proof (partial_map_push_back _ _ _ _ Hpm' Hvp Hv1 Hin) as Hpm''.
    assert (Hdom : dom (push_back nodes' (next value) value) = dom nodes')
      by apply dom_alter_L.
    assert (Hvin : value ∈ dom nodes').
    { apply Hsub. rewrite dom_insert. set_solver. }
    unfold subscript.
    destruct (push_back nodes' (next value) value !! value) eqn:E3.
    + eexists. split_and!; [done|done|..]; rewrite Hdom; [|done].
      etrans; [|exact Hsub]. rewrite dom_insert. set_solver.
    + apply not_elem_of_dom in E3. rewrite Hdom in E3. done.
  - by apply partial_map_insert.
  - by apply next_is_int.
  - right. destruct Hr as [->|(i & Hi & Hreach)]; [done|].
    exists i. split; [done|]. by apply reaches_step.
Qed.

(** ** [buildUpTo] *)

Lemma partial_map_weaken pending i0 i1 nodes :
  i0 <= i1 → partial_map pending i0 nodes → partial_map pending i1 nodes.
Proof.
  intros Hle [H1 Hint Hpend Hnext Helem Hreach]. split; try done.
  intros n Hn. destruct (Hreach n Hn) as [->|(i & Hi & Hr)]; [by left|].
  right. exists i. split; [lia|done].
Qed.

Lemma partial_map_seed i0 : partial_map ∅ i0 (<[1 := []]> (∅ : NodesMap)).
Proof.
  split.
  - set_solver.
  - intros n Hn. assert (n = 1) as -> by set_solver.
    unfold is_int, int_min, int_max. lia.
  - set_solver.
  - intros n Hn _ Hn1. set_solver.
  - intros k l x Hk Hx. apply lookup_insert_Some in Hk as [[_ <-]|[_ Hk]].
    + by apply elem_of_nil in Hx.
    + by rewrite lookup_empty in Hk.
  - intros n Hn. left. set_solver.
Qed.

Lemma seqZ_succ (i : Z) (n : nat) :
  seqZ i (Z.of_nat (S n)) = i :: seqZ (i + 1) (Z.of_nat n).
Proof.
  rewrite seqZ_cons by lia. f_equal. f_equal; lia.
Qed.

(** The loop of [buildUpTo], started at [i] with [n] values left. *)
Lemma buildUpTo_loop fuel (n : nat) : ∀ (i : Z) (nodes nodes' : NodesMap),
  2 <= i → i + Z.of_nat n - 1 <= int_max →
  partial_map ∅ (i - 1) nodes → (∀ j, 2 <= j < i → j ∈ dom nodes) →
  for_each (λ nodes i, '(nodes, _) ← processValue fuel nodes i; Ok nodes)
           nodes (seqZ i (Z.of_nat n)) = Ok nodes' →
  partial_map ∅ (i + Z.of_nat n - 1) nodes' ∧
  (∀ j, 2 <= j < i + Z.of_nat n → j ∈ dom nodes').
Proof.
  induction n as [|n IH]; intros i nodes nodes' Hi Hmax Hpm Hdom H.
  { simpl in H. injection H as <-. split.
    - by replace (i + Z.of_nat 0 - 1) with (i - 1) by lia.
    - intros j Hj. apply Hdom. lia. }
  rewrite seqZ_succ in H. simpl in H.
  destruct (processValue fuel nodes i) as [[nodes1 ref]| |] eqn:E; try done.
  simpl in H.
  apply processValue_spec with (pending := ∅) (i0 := i) in E
    as (nodes1' & [= -> ->] & Hpm1 & Hsub & Hin).
  - apply IH in H as [Hpm' Hdom'].
    + split.
      * by replace (i + Z.of_nat (S n) - 1) with (i + 1 + Z.of_nat n - 1) by lia.
      * intros j Hj. apply Hdom'. lia.
    + lia.
    + lia.
    + by replace (i + 1 - 1) with i by lia.
    + intros j Hj. destruct (decide (j = i)) as [->|]; [done|].
      apply Hsub, Hdom. lia.
  - apply partial_map_weaken with (i0 := i - 1); [lia|done].
  - unfold is_int, int_min, int_max in *. lia.
  - right. exists i. split; [lia|]. exists 0%nat. split; [done|lia].
Qed.

Lemma buildUpTo_loop_total fuel (n : nat) : ∀ (i : Z) (nodes : NodesMap),
  2 ^ 32 < Z.of_nat fuel →
  2 <= i → i + Z.of_nat n - 1 <= int_max →
  partial_map ∅ (i - 1) nodes →
  ∃ nodes',
    for_each (λ nodes i, '(nodes, _) ← processValue fuel nodes i; Ok nodes)
             nodes (seqZ i (Z.of_nat n)) = Ok nodes'.
Proof.
  induction n as [|n IH]; intros i nodes Hfuel Hi Hmax Hpm; [by eexists|].
  rewrite seqZ_succ. simpl.
  assert (Hint : is_int i) by (unfold is_int, int_min, int_max in *; lia).
  destruct (processValue_enough_fuel fuel nodes i) as [[nodes1 ref] E].
  { by destruct Hpm. } { done. } { lia. }
  rewrite E. simpl.
  apply processValue_spec with (pending := ∅) (i0 := i) in E
    as (nodes1' & [= -> ->] & Hpm1 & Hsub & Hin).
  - apply IH; [done|lia|lia|].
    by replace (i + 1 - 1) with i by lia.
  - apply partial_map_weaken with (i0 := i - 1); [lia|done].
  - done.
  - right. exists i. split; [lia|]. exists 0%nat. split; [done|lia].
Qed.

Lemma for_each_processValue_fuel_mono fuel fuel' (l : list Z) :
  ∀ (nodes nodes' : NodesMap), (fuel ≤ fuel')%nat →
  for_each (λ nodes i, '(nodes, _) ← processValue fuel nodes i; Ok nodes)
           nodes l = Ok nodes' →
  for_each (λ nodes i, '(nodes, _) ← processValue fuel' nodes i; Ok nodes)
           nodes l = Ok nodes'.
Proof.
  induction l as [|i l IH]; intros nodes nodes' Hle H; [done|].
  simpl in *.
  destruct (processValue fuel nodes i) as [[nodes1 ref]| |] eqn:E; try done.
  rewrite (processValue_fuel_mono _ _ _ _ _ Hle E). simpl in *. by apply IH.
Qed.

(** More fuel does not change the map that [buildUpTo] returns. *)
Lemma buildUpTo_fuel_mono fuel fuel' high nodes :
  (fuel ≤ fuel')%nat →
  buildUpTo fuel high = Ok nodes → buildUpTo fuel' high = Ok nodes.
Proof.
  unfold buildUpTo. intros Hle. destruct (high <=? 0); [done|].
  by apply for_each_processValue_fuel_mono.
Qed.

Lemma buildUpTo_fuel_irrelevant fuel fuel' high nodes nodes' :
  buildUpTo fuel high = Ok nodes → buildUpTo fuel' high = Ok nodes' →
  nodes = nodes'.
Proof.
  intros H H'.
  apply buildUpTo_fuel_mono with (fuel' := (fuel `max` fuel')%nat) in H; [|lia].
  apply buildUpTo_fuel_mono with (fuel' := (fuel `max` fuel')%nat) in H'; [|lia].
  congruence.
Qed.

(** The map returned by [buildUpTo] is a complete one. *)
Lemma buildUpTo_partial_map fuel high nodes :
  0 < high → is_int high → buildUpTo fuel high = Ok nodes →
  partial_map ∅ (high - 1) nodes ∧ (∀ j, 2 <= j < high → j ∈ dom nodes).
Proof.
  intros Hpos Hint H. unfold buildUpTo in H.
  destruct (Z.leb_spec high 0); [lia|].
  destruct (decide (high = 1)) as [->|Hne].
  { simpl in H. injection H as <-. split; [|lia].
    apply partial_map_seed. }
  replace (high - 2) with (Z.of_nat (Z.to_nat (high - 2))) in H by lia.
  apply buildUpTo_loop in H as [Hpm Hdom].
  - split.
    + by replace (high - 1) with (2 + Z.of_nat (Z.to_nat (high - 2)) - 1) by lia.
    + intros j Hj. apply Hdom. lia.
  - lia.
  - unfold is_int in Hint. lia.
  - apply partial_map_seed.
  - lia.
Qed.

Lemma buildUpTo_total high :
  0 < high → is_int high → ∃ fuel nodes, buildUpTo fuel high = Ok nodes.
Proof.
  intros Hpos Hint. exists (Z.to_nat (2 ^ 32 + 1)).
  unfold buildUpTo. destruct (Z.leb_spec high 0); [lia|].
  destruct (decide (high = 1)) as [->|Hne]; [by eexists|].
  replace (high - 2) with (Z.of_nat (Z.to_nat (high - 2))) by lia.
  apply buildUpTo_loop_total.
  - lia.
  - lia.
  - unfold is_int in Hint. lia.
  - apply partial_map_seed.
Qed.

(** ** Trajectories inside the returned map *)

Lemma path_to_reaches k : ∀ i n, path_to k i n = true → reaches next i n.
Proof.
  induction k as [|k IH]; intros i n H; simpl in H.
  { apply Z.eqb_eq in H as ->. exists 0%nat. split; [done|lia]. }
  apply andb_prop in H as [H1 H].
  apply negb_true_iff, Z.eqb_neq in H1.
  destruct (IH _ _ H) as (k' & Hk' & Hbefore).
  exists (S k'). split.
  - by rewrite Nat.iter_succ_r.
  - intros [|j] Hj; [done|]. rewrite Nat.iter_succ_r. apply Hbefore. lia.
Qed.

(** The values of a trajectory that starts at a key are keys. *)
Lemma reaches_key i0 (nodes : NodesMap) i n :
  partial_map ∅ i0 nodes → i ∈ dom nodes → reaches next i n → n ∈ dom nodes.
Proof.
  intros Hpm Hi (k & <- & Hbefore). clear - Hpm Hi Hbefore.
  induction k as [|k IH]; [done|].
  simpl. assert (Hk : Nat.iter k next i ∈ dom nodes).
  { apply IH. intros j Hj. apply Hbefore. lia. }
  destruct (pm_next _ _ _ Hpm _ Hk) as (l & Hl & _); [set_solver|..].
  - apply Hbefore. lia.
  - apply elem_of_dom. eauto.
Qed.

Lemma next_collatz n :
  0 < n → (Z.odd n = true → 3 * n + 1 <= int_max) → next n = collatz n.
Proof.
  intros Hpos Hov. unfold next, collatz.
  rewrite Z.rem_mod_nonneg by lia. rewrite Zeven_mod.
  destruct (n mod 2 =? 0) eqn:E.
  - apply Z.quot_div_nonneg; lia.
  - assert (Hodd : Z.odd n = true).
    { rewrite <- Z.negb_even, Zeven_mod, E. done. }
    specialize (Hov Hodd). unfold int_add, int_mul.
    rewrite (wrap_id (3 * n)), wrap_id; [done|..];
      unfold is_int, int_min, int_max in *; lia.
Qed.

Lemma collatz_pos n : 0 < n → 0 < collatz n.
Proof.
  intros Hpos. unfold collatz. destruct (Z.even n) eqn:E; [|lia].
  apply Z.even_spec in E as [m ->].
  replace (2 * m) with (m * 2) by lia. rewrite Z.div_mul by lia. lia.
Qed.

(** Without overflow, the trajectories of the program and of the
    mathematical Collatz map coincide, consist of keys and are positive. *)
Lemma trajectories_agree i0 (nodes : NodesMap) i k :
  partial_map ∅ i0 nodes → no_overflow nodes → 0 < i → i ∈ dom nodes →
  ((∀ j, (j < k)%nat → Nat.iter j next i ≠ 1) ∨
   (∀ j, (j < k)%nat → Nat.iter j collatz i ≠ 1)) →
  Nat.iter k next i = Nat.iter k collatz i ∧
  Nat.iter k next i ∈ dom nodes ∧ 0 < Nat.iter k next i.
Proof.
  intros Hpm Hno Hpos Hi. induction k as [|k IH]; intros Hbefore; [done|].
  destruct IH as (Heq & Hk & Hkpos).
  { destruct Hbefore as [H|H]; [left|right]; intros j Hj; apply H; lia. }
  assert (Hk1 : Nat.iter k next i ≠ 1).
  { destruct Hbefore as [H|H]; [|rewrite Heq]; apply H; lia. }
  assert (Hstep : next (Nat.iter k next i) = collatz (Nat.iter k next i)).
  { apply next_collatz; [done|]. by apply Hno. }
  simpl. split_and!.
  - by rewrite Hstep, Heq.
  - destruct (pm_next _ _ _ Hpm _ Hk) as (l & Hl & _); [set_solver|done|].
    apply elem_of_dom. eauto.
  - rewrite Hstep. by apply collatz_pos.
Qed.

(** The keys, for any run (with [next] computed in [int]). *)
Lemma buildUpTo_keys fuel high nodes :
  0 < high → is_int high → buildUpTo fuel high = Ok nodes →
  ∀ n, n ∈ dom nodes ↔ n = 1 ∨ ∃ i, 2 <= i < high ∧ reaches next i n.
Proof.
  intros Hpos Hint H. apply buildUpTo_partial_map in H as [Hpm Hdom]; try done.
  intros n. split.
  - intros Hn. destruct (pm_reach _ _ _ Hpm n Hn) as [->|(i & Hi & Hr)];
      [by left|]. right. exists i. split; [lia|done].
  - intros [->|(i & Hi & Hr)]; [by destruct Hpm|].
    eapply reaches_key; [done| |done]. by apply Hdom.
Qed.

(** Every key other than 1 was appended once to the vector of its
    successor (with [next] computed in [int]). *)
Lemma buildUpTo_next fuel high nodes :
  0 < high → is_int high → buildUpTo fuel high = Ok nodes →
  ∀ n, n ∈ dom nodes → n ≠ 1 →
    ∃ l, nodes !! next n = Some l ∧ count_occ Z.eq_dec l n = 1%nat.
Proof.
  intros Hpos Hint H. apply buildUpTo_partial_map in H as [Hpm Hdom]; try done.
  intros n Hn Hn1. apply (pm_next _ _ _ Hpm); [done|set_solver|done].
Qed.

Lemma buildUpTo_keys_pos fuel high nodes :
  0 < high → is_int high → buildUpTo fuel high = Ok nodes → no_overflow nodes →
  ∀ n, n ∈ dom nodes → 0 < n.
Proof.
  intros Hpos Hint H Hno n Hn.
  pose proof (buildUpTo_partial_map _ _ _ Hpos Hint H) as [Hpm Hdom].
  destruct (pm_reach _ _ _ Hpm n Hn) as [->|(i & Hi & k & <- & Hbefore)]; [lia|].
  eapply trajectories_agree; [done|done|lia| |by left].
  apply Hdom. lia.
Qed.

(** Without overflow the claim on the keys holds as the specification
    states it. *)
Lemma buildUpTo_keys_exact fuel high nodes :
  0 < high → is_int high → buildUpTo fuel high = Ok nodes → no_overflow nodes →
  (∀ n, n ∈ dom nodes ↔ announced_key collatz high n) ∧
  (∀ n, n ∈ dom nodes → n ≠ 1 →
     ∃ l, nodes !! collatz n = Some l ∧ count_occ Z.eq_dec l n = 1%nat).
Proof.
  intros Hpos Hint H Hno.
  pose proof (buildUpTo_partial_map _ _ _ Hpos Hint H) as [Hpm Hdom].
  pose proof (buildUpTo_keys_pos _ _ _ Hpos Hint H Hno) as Hkpos.
  split.
  - intros n. unfold announced_key. split.
    + intros Hn. specialize (Hkpos n Hn).
      destruct (decide (n < high)) as [Hlt|Hge]; [lia|].
      destruct (pm_reach _ _ _ Hpm n Hn) as [->|(i & Hi & k & <- & Hbefore)];
        [by left|].
      right; right. split; [lia|]. exists i. split; [lia|].
      assert (Hik : i ∈ dom nodes) by (apply Hdom; lia).
      exists k. split.
      * symmetry. eapply trajectories_agree; [done|done|lia|done|by left].
      * intros j Hj.
        destruct (trajectories_agree (high - 1) nodes i j) as (<- & _);
          try done; try lia.
        -- left. intros j' Hj'. apply Hbefore. lia.
        -- apply Hbefore. lia.
    + intros [->|[Hn|(Hn & i & Hi & k & <- & Hbefore)]].
      * by destruct Hpm.
      * by apply Hdom.
      * assert (Hik : i ∈ dom nodes) by (apply Hdom; lia).
        destruct (trajectories_agree (high - 1) nodes i k) as (<- & ? & _);
          try done; try lia. by right.
  - intros n Hn Hn1. rewrite <- next_collatz.
    + apply (pm_next _ _ _ Hpm); [done|set_solver|done].
    + by apply Hkpos.
    + by apply Hno.
Qed.

(** ** The range without overflow *)

Lemma reaches_unfold i v :
  reaches next i v → v = i ∨ (i ≠ 1 ∧ reaches next (next i) v).
Proof.
  intros ([|k] & Hk & Hbefore); [by left|]. right. split.
  - apply (Hbefore 0%nat). lia.
  - exists k. split; [by rewrite <- Nat.iter_succ_r|].
    intros j Hj. rewrite <- Nat.iter_succ_r. apply Hbefore. lia.
Qed.

Lemma all_from_spec (check : Z → bool) (n : nat) : ∀ i0 i,
  all_from check n i0 = true → i0 <= i < i0 + Z.of_nat n → check i = true.
Proof.
  induction n as [|n IH]; intros i0 i H Hi; [lia|].
  cbn [all_from] in H. apply andb_prop in H as [H0 H].
  destruct (decide (i = i0)) as [->|Hne]; [exact H0|].
  apply (IH (i0 + 1)); [exact H|lia].
Qed.

Lemma descends_sound i (steps : nat) : ∀ v0,
  (∀ i', 1 <= i' < i → ∀ v, reaches next i' v →
         0 < v ∧ (Z.odd v = true → 3 * v + 1 <= int_max)) →
  0 < v0 → descends steps i v0 = true →
  ∀ v, reaches next v0 v → 0 < v ∧ (Z.odd v = true → 3 * v + 1 <= int_max).
Proof.
  induction steps as [|steps IH]; intros v0 Hbelow Hpos Hd v Hv.
  - cbn [descends] in Hd. destruct (Z.ltb_spec v0 i) as [Hlt|Hge];
      [|discriminate Hd].
    apply (Hbelow v0); [clear - Hpos Hlt; lia|exact Hv].
  - cbn [descends] in Hd. destruct (Z.ltb_spec v0 i) as [Hlt|Hge].
    { apply (Hbelow v0); [clear - Hpos Hlt; lia|exact Hv]. }
    assert (Hov : Z.odd v0 = true → 3 * v0 + 1 <= int_max).
    { intros Hodd. rewrite <- Z.negb_odd, Hodd in Hd. cbn [negb] in Hd.
      apply andb_prop in Hd as [Hle _]. apply Z.leb_le. exact Hle. }
    apply reaches_unfold in Hv as [->|[Hv1 Hv]]; [by split|].
    rewrite next_collatz in Hv by assumption.
    apply (IH (collatz v0)); [exact Hbelow|by apply collatz_pos| |exact Hv].
    unfold collatz. destruct (Z.even v0); [exact Hd|].
    apply andb_prop in Hd as [_ Hd]. exact Hd.
Qed.

(** The check, run for every [i] with [2 <= i < 113383]. *)
Lemma descends_checked :
  all_from (λ i, descends descent_steps i i) (Z.to_nat 113381) 2 = true.
Proof. vm_compute. reflexivity. Qed.

(** The trajectories of the values below [overflow_free_bound] stay
    positive and take no step [3n+1] above [int_max]. *)
Lemma overflow_free_range i :
  1 <= i < overflow_free_bound →
  ∀ v, reaches next i v → 0 < v ∧ (Z.odd v = true → 3 * v + 1 <= int_max).
Proof.
  induction (Z.lt_wf 0 i) as [i _ IH]. intros Hi v Hv.
  destruct (decide (i = 1)) as [->|Hne].
  { apply reaches_unfold in Hv as [->|[? _]]; [|done].
    split; [clear; lia|by vm_compute]. }
  apply (descends_sound i descent_steps i); [| clear - Hi; lia | |exact Hv].
  - intros i' Hi'. apply IH; unfold overflow_free_bound in *; clear - Hi Hi'; lia.
  - apply (all_from_spec (λ i, descends descent_steps i i) (Z.to_nat 113381) 2);
      [exact descends_checked|].
    unfold overflow_free_bound in *. clear - Hi Hne. lia.
Qed.

Lemma buildUpTo_overflow_free fuel high nodes :
  0 < high <= overflow_free_bound → buildUpTo fuel high = Ok nodes →
  no_overflow nodes.
Proof.
  intros Hhigh H n Hn.
  assert (Hint : is_int high).
  { unfold is_int, int_min, int_max, overflow_free_bound in *. lia. }
  apply (buildUpTo_keys fuel high nodes ltac:(lia) Hint H) in Hn
    as [->|(i & Hi & Hr)]; [by vm_compute|].
  eapply overflow_free_range; [|exact Hr]. lia.
Qed.

(** C1 (amended).  For every [high > 0], [buildUpTo high] returns a map.
    When [high <= 113383], and more generally whenever no step [3n+1]
    taken from a key of the map exceeds [int_max], the keys of the map are
    exactly 1, the integers [i] with [2 <= i < high] and the values
    [>= high] on the Collatz trajectories of such [i], and every key [n]
    other than 1 has its successor as a key and occurs exactly once in the
    successor's vector. *)
Theorem buildUpTo_keys_no_overflow (high : Z) :
  0 < high → is_int high →
  (∃ fuel nodes, buildUpTo fuel high = Ok nodes) ∧
  ∀ fuel nodes, buildUpTo fuel high = Ok nodes →
    high <= overflow_free_bound ∨ no_overflow nodes →
    (∀ n, n ∈ dom nodes ↔ announced_key collatz high n) ∧
    (∀ n, n ∈ dom nodes → n ≠ 1 →
       ∃ l, nodes !! collatz n = Some l ∧ count_occ Z.eq_dec l n = 1%nat).
Proof.
  intros Hpos Hint. split; [by apply buildUpTo_total|].
  intros fuel nodes H Hno. apply (buildUpTo_keys_exact fuel); try done.
  destruct Hno as [Hle|Hno]; [|done].
  by apply (buildUpTo_overflow_free fuel high).
Qed.

Lemma buildUpTo_keys_no_overflow_witness :
  let nodes : NodesMap :=
    list_to_map [(1, [2]); (2, [4]); (3, []); (4, [8]); (5, [10]);
                 (8, [16]); (10, [3]); (16, [5])] in
  buildUpTo 20 5 = Ok nodes ∧
  (∀ n, n ∈ dom nodes ↔ announced_key collatz 5 n) ∧
  (∀ n, n ∈ dom nodes → n ≠ 1 →
     ∃ l, nodes !! collatz n = Some l ∧ count_occ Z.eq_dec l n = 1%nat).
Proof.
  intros nodes. split; [vm_compute; reflexivity|].
  apply (proj2 (buildUpTo_keys_no_overflow 5 ltac:(lia) ltac:(by vm_compute))
               20%nat).
  - vm_compute. reflexivity.
  - left. by vm_compute.
Defined.

(** C1, counterexample.  [buildUpTo 113384] returns a map, and the map
    has the key -1812855948: the trajectory of 113383 reaches 827370449,
    whose successor 2482111348 does not fit in an [int] and wraps around.
    That key is not 1, is not in the range and is not [>= 113384]. *)
Lemma buildUpTo_keys_counterexample :
  (∃ fuel nodes, buildUpTo fuel 113384 = Ok nodes) ∧
  ∀ fuel nodes, buildUpTo fuel 113384 = Ok nodes →
    -1812855948 ∈ dom nodes ∧
    ∀ step, ¬ announced_key step 113384 (-1812855948).
Proof.
  assert (Hint : is_int 113384) by (by vm_compute).
  split; [by apply buildUpTo_total|].
  intros fuel nodes H. split.
  - apply (buildUpTo_keys fuel 113384 nodes ltac:(lia) Hint H). right.
    exists 113383. split; [lia|].
    apply (path_to_reaches 120). vm_compute. reflexivity.
  - intros step [?|[?|[? _]]]; lia.
Qed.

(** [processValue] has no [throw]. *)
Lemma processValue_no_throw fuel : ∀ (nodes : NodesMap) value what,
  processValue fuel nodes value ≠ Throw what.
Proof.
  induction fuel as [|fuel IH]; intros nodes value what; [done|].
  simpl. destruct (nodes !! value); [done|].
  destruct (processValue fuel _ _) as [[? ?]| |] eqn:E; try done.
  by apply IH in E.
Qed.

Lemma buildUpTo_loop_no_throw fuel (l : list Z) : ∀ (nodes : NodesMap) what,
  for_each (λ nodes i, '(nodes, _) ← processValue fuel nodes i; Ok nodes)
           nodes l ≠ Throw what.
Proof.
  induction l as [|i l IH]; intros nodes what; [done|].
  simpl. destruct (processValue fuel nodes i) as [[? ?]| |] eqn:E; try done.
  - simpl. apply IH.
  - by apply processValue_no_throw in E.
Qed.

(** C5.  [buildUpTo high] throws exactly when [high <= 0]: then it throws
    whatever the budget, so before any call of [processValue], and no map
    is returned; for [high > 0] it returns a map and never throws. *)
Theorem buildUpTo_throws_iff (high : Z) :
  is_int high →
  (high <= 0 →
     ∀ fuel, buildUpTo fuel high =
             Throw "Cannot create tree with integers zero or lower") ∧
  (0 < high →
     (∃ fuel nodes, buildUpTo fuel high = Ok nodes) ∧
     ∀ fuel what, buildUpTo fuel high ≠ Throw what).
Proof.
  intros Hint. split.
  - intros Hle fuel. unfold buildUpTo.
    destruct (Z.leb_spec high 0); [done|lia].
  - intros Hpos. split; [by apply buildUpTo_total|].
    intros fuel what. unfold buildUpTo.
    destruct (Z.leb_spec high 0); [lia|]. apply buildUpTo_loop_no_throw.
Qed.

Lemma buildUpTo_throws_iff_witness :
  (∀ fuel, buildUpTo fuel 0 =
           Throw "Cannot create tree with integers zero or lower") ∧
  (∀ fuel, buildUpTo fuel (-5) =
           Throw "Cannot create tree with integers zero or lower") ∧
  (∃ fuel nodes, buildUpTo fuel 5 = Ok nodes) ∧
  (∀ fuel what, buildUpTo fuel 5 ≠ Throw what).
Proof.
  split_and!.
  - apply (proj1 (buildUpTo_throws_iff 0 ltac:(by vm_compute))). lia.
  - apply (proj1 (buildUpTo_throws_iff (-5) ltac:(by vm_compute))). lia.
  - apply (proj2 (buildUpTo_throws_iff 5 ltac:(by vm_compute))). lia.
  - apply (proj2 (buildUpTo_throws_iff 5 ltac:(by vm_compute))). lia.
Defined.

(** C7 (amended).  In the map returned by [buildUpTo high], the key 1 maps
    to a non-empty vector (one that holds 2) whenever [high > 2]. *)
Theorem buildUpTo_one_nonempty fuel high nodes :
  2 < high → is_int high → buildUpTo fuel high = Ok nodes →
  ∃ l, nodes !! 1 = Some l ∧ l ≠ [] ∧ 2 ∈ l.
Proof.
  intros Hhigh Hint H.
  apply buildUpTo_partial_map in H as [Hpm Hdom]; [|lia|done].
  destruct (pm_next _ _ _ Hpm 2) as (l & Hl & Hc); [apply Hdom; lia|set_solver|lia|].
  change (next 2) with 1 in Hl. exists l.
  assert (Hin : 2 ∈ l).
  { apply list_elem_of_In, (count_occ_In Z.eq_dec). lia. }
  split_and!; [done| |done]. intros ->. by apply elem_of_nil in Hin.
Qed.

Lemma buildUpTo_one_nonempty_witness :
  ∃ l, (list_to_map [(1, [2]); (2, [])] : NodesMap) !! 1 = Some l ∧
       l ≠ [] ∧ 2 ∈ l.
Proof.
  apply (buildUpTo_one_nonempty 10 3); [lia|by vm_compute|].
  vm_compute. reflexivity.
Defined.

(** C7, counterexample.  [buildUpTo 2] returns the map whose only entry is
    the key 1 with an empty vector: the loop [for (i = 2; i < 2; i++)] does
    not run. *)
Lemma buildUpTo_one_counterexample :
  1 < 2 ∧ ∀ fuel, ∃ nodes, buildUpTo fuel 2 = Ok nodes ∧ nodes !! 1 = Some [].
Proof.
  split; [lia|]. intros fuel. exists (<[1 := []]> ∅). split; [done|].
  apply lookup_insert_eq.
Qed.

(** C10.  [processValue] terminates on every [int] and every map with
    [int] keys: some budget makes it return, every larger budget gives the
    same result, and a budget of one more than the number of [int]s that
    are not yet keys is enough. *)
Theorem processValue_terminates (nodes : NodesMap) (value : Z) :
  int_keys nodes → is_int value →
  ∃ fuel r,
    processValue fuel nodes value = Ok r ∧
    (∀ fuel', (fuel ≤ fuel')%nat → processValue fuel' nodes value = Ok r) ∧
    Z.of_nat fuel = 2 ^ 32 + 1 - Z.of_nat (size nodes).
Proof.
  intros Hkeys Hv.
  pose proof (size_int_keys nodes Hkeys) as Hsize.
  set (fuel := Z.to_nat (2 ^ 32 + 1 - Z.of_nat (size nodes))).
  destruct (processValue_enough_fuel fuel nodes value) as [r Hr];
    [done|done|lia|].
  exists fuel, r. split_and!; [done| |lia].
  intros fuel' Hle. by eapply processValue_fuel_mono.
Qed.

Lemma processValue_terminates_witness :
  ∃ fuel r,
    processValue fuel (<[1 := []]> ∅) 27 = Ok r ∧
    (∀ fuel', (fuel ≤ fuel')%nat →
       processValue fuel' (<[1 := []]> ∅) 27 = Ok r) ∧
    Z.of_nat fuel = 2 ^ 32 + 1 - Z.of_nat (size (<[1 := []]> (∅ : NodesMap))).
Proof.
  apply processValue_terminates.
  - apply (bool_decide_unpack _). vm_compute. exact I.
  - by vm_compute.
Defined.

(** ** Widths *)

Lemma wrap_add_mul a k : wrap (a + k * 2 ^ 32) = wrap a.
Proof.
  unfold wrap. replace (a + k * 2 ^ 32 + 2 ^ 31) with (a + 2 ^ 31 + k * 2 ^ 32) by lia.
  by rewrite Z.mod_add by lia.
Qed.

Lemma wrap_eq a : ∃ k, wrap a = a + k * 2 ^ 32.
Proof.
  exists (- ((a + 2 ^ 31) / 2 ^ 32)). unfold wrap.
  pose proof (Z.div_mod (a + 2 ^ 31) (2 ^ 32) ltac:(lia)). lia.
Qed.

Lemma wrap_wrap_add_l a b : wrap (wrap a + b) = wrap (a + b).
Proof.
  destruct (wrap_eq a) as [k ->].
  replace (a + k * 2 ^ 32 + b) with (a + b + k * 2 ^ 32) by lia.
  apply wrap_add_mul.
Qed.

Lemma wrap_wrap_add_r a b : wrap (a + wrap b) = wrap (a + b).
Proof. rewrite (Z.add_comm a), wrap_wrap_add_l. f_equal. lia. Qed.

Lemma wrap_size_t_add a b : wrap (size_t_wrap a + b) = wrap (a + b).
Proof.
  unfold size_t_wrap.
  pose proof (Z.div_mod a (2 ^ 64) ltac:(lia)) as H.
  replace (a mod 2 ^ 64 + b)
    with (a + b + (- (2 ^ 32 * (a / 2 ^ 64))) * 2 ^ 32) by lia.
  apply wrap_add_mul.
Qed.

Lemma decimal_length more : ∀ n acc,
  (String.length acc < String.length (decimal more n acc)
     ≤ String.length acc + S more)%nat.
Proof.
  induction more as [|more IH]; intros n acc; simpl; [lia|].
  destruct (n / 10 =? 0); simpl; [lia|].
  specialize (IH (n / 10) (String (digit_char (n mod 10)) acc)). simpl in IH.
  lia.
Qed.

Lemma int_to_string_length value :
  (1 ≤ String.length (int_to_string value) ≤ 11)%nat.
Proof.
  unfold int_to_string. destruct (value <? 0).
  - pose proof (decimal_length 9 (- value) "") as H.
    change (String.length "") with 0%nat in H.
    change (String.length ("-" +:+ decimal 9 (- value) ""))
      with (S (String.length (decimal 9 (- value) ""))).
    lia.
  - pose proof (decimal_length 9 value "") as H.
    change (String.length "") with 0%nat in H. lia.
Qed.

Lemma textWidth_eq n :
  textWidth n = 8 * Z.of_nat (String.length (int_to_string (value_ n))).
Proof.
  unfold textWidth, to_int, size_t_wrap.
  pose proof (int_to_string_length (value_ n)).
  rewrite Z.mod_small by lia. apply wrap_id.
  unfold is_int, int_min, int_max. lia.
Qed.

Lemma textWidth_bounds n : 8 <= textWidth n <= 88.
Proof.
  rewrite textWidth_eq. pose proof (int_to_string_length (value_ n)). lia.
Qed.

Lemma calculateWidth_loop (xs : list Node) : ∀ w,
  (fix loop (xs : list Node) (w : Z) : list Node * Z :=
     match xs with
     | [] => ([], w)
     | x :: xs' =>
       let x := calculateWidth x in
       let '(xs', w) := loop xs' (int_add w (width x)) in
       (x :: xs', w)
     end) xs w
  = (calculateWidth <$> xs,
     foldl (λ w x, int_add w (width x)) w (calculateWidth <$> xs)).
Proof.
  induction xs as [|x xs IH]; intros w; [done|].
  cbn -[calculateWidth]. cbn -[calculateWidth] in IH. rewrite IH. done.
Qed.

Lemma foldl_int_add (xs : list Node) : ∀ a,
  foldl (λ w x, int_add w (width x)) (wrap a) xs = wrap (a + sum_widths xs).
Proof.
  induction xs as [|x xs IH]; intros a; simpl.
  - f_equal. lia.
  - unfold int_add at 2. rewrite wrap_wrap_add_l, IH. f_equal. lia.
Qed.

(** [calculateWidth] in closed form: the sum is taken in [int]. *)
Lemma calculateWidth_eq value above px py w0 :
  calculateWidth (MkNode value above px py w0) =
  let n := MkNode value above px py w0 in
  match above with
  | [] => MkNode value [] px py (textWidth n)
  | _ :: _ =>
    let above' := calculateWidth <$> above in
    MkNode value above' px py
           (Z.max (textWidth n) (wrap (children_extent above')))
  end.
Proof.
  destruct above as [|c above]; [done|].
  cbn zeta. unfold calculateWidth at 1; fold calculateWidth.
  rewrite calculateWidth_loop.
  set (cs := calculateWidth <$> c :: above).
  set (tw := textWidth _).
  change (calculateWidth c :: (calculateWidth <$> above)) with cs.
  change (foldl ?f (int_add ?a (width (calculateWidth c)))
                (calculateWidth <$> above)) with (foldl f a cs).
  unfold to_int. rewrite foldl_int_add, wrap_size_t_add.
  replace ((Z.of_nat (length (c :: above)) - 1) * nodeSpacing + sum_widths cs)
    with (children_extent cs).
  2:{ unfold children_extent, cs. rewrite length_fmap. lia. }
  f_equal. destruct (Z.ltb_spec (wrap (children_extent cs)) tw); lia.
Qed.

Lemma calculateWidth_value n : value_ (calculateWidth n) = value_ n.
Proof. destruct n as [v [|c above] px py w]; by rewrite calculateWidth_eq. Qed.

Lemma calculateWidth_textWidth n : textWidth (calculateWidth n) = textWidth n.
Proof. unfold textWidth. by rewrite calculateWidth_value. Qed.

Lemma calculateWidth_above n :
  above_ (calculateWidth n) = calculateWidth <$> above_ n.
Proof. destruct n as [v [|c above] px py w]; by rewrite calculateWidth_eq. Qed.

Lemma calculateWidth_width n :
  width (calculateWidth n) =
  match above_ n with
  | [] => textWidth n
  | _ :: _ =>
    Z.max (textWidth n) (wrap (children_extent (above_ (calculateWidth n))))
  end.
Proof. destruct n as [v [|c above] px py w]; by rewrite calculateWidth_eq. Qed.

(** A computed width is at least the width of the label, hence positive,
    and it is an [int]. *)
Lemma calculateWidth_width_bounds n :
  textWidth n <= width (calculateWidth n) <= int_max.
Proof.
  rewrite calculateWidth_width. pose proof (textWidth_bounds n).
  destruct (above_ n); [unfold int_max; lia|].
  pose proof (wrap_is_int (children_extent (above_ (calculateWidth n)))) as [_ ?].
  unfold int_max in *. lia.
Qed.

Lemma calculateWidth_idem n : calculateWidth (calculateWidth n) = calculateWidth n.
Proof.
  induction n as [v above px py w IH] using Node_tree_ind.
  rewrite (calculateWidth_eq v above). destruct above as [|c above]; [done|].
  cbn zeta. rewrite calculateWidth_eq.
  assert (Hmap : calculateWidth <$> (calculateWidth <$> c :: above)
                 = calculateWidth <$> c :: above).
  { rewrite <- list_fmap_compose. apply Forall_fmap_ext_1.
    eapply Forall_impl; [exact IH|]. by intros x Hx. }
  destruct (calculateWidth <$> c :: above) as [|c' above'] eqn:E; [done|].
  cbn zeta. rewrite Hmap. f_equal.
Qed.

(** Nodes whose stored width is the computed one. *)
Lemma subnode_calculateWidth n d :
  calculateWidth n = n → subnode n d → calculateWidth d = d.
Proof.
  intros Hn Hsub. induction Hsub as [n|n c d Hc Hsub IH]; [done|].
  apply IH. rewrite <- Hn, calculateWidth_above in Hc.
  apply list_elem_of_fmap in Hc as (c0 & -> & _). apply calculateWidth_idem.
Qed.

(** ** The constructor *)

Lemma for_each_push_Ok {A} (f : A → result Node) (l : list A) : ∀ acc r,
  for_each (λ acc v, c ← f v; Ok (acc ++ [c])) acc l = Ok r ↔
  ∃ cs, Forall2 (λ v c, f v = Ok c) l cs ∧ r = acc ++ cs.
Proof.
  induction l as [|v l IH]; intros acc r; simpl.
  - split.
    + intros [= <-]. exists []. split; [constructor|by rewrite app_nil_r].
    + intros (cs & Hcs & ->). inversion Hcs. by rewrite app_nil_r.
  - destruct (f v) as [c| |] eqn:E; simpl.
    + rewrite IH. split.
      * intros (cs & Hcs & ->). exists (c :: cs).
        split; [by constructor|by rewrite <- app_assoc].
      * intros (cs & Hcs & ->). inversion Hcs as [|? c' ? cs' Hc Hcs']; subst.
        exists cs'. split; [done|]. rewrite <- app_assoc.
        replace c' with c by congruence. done.
    + split; [done|]. intros (cs & Hcs & _). inversion Hcs; congruence.
    + split; [done|]. intros (cs & Hcs & _). inversion Hcs; congruence.
Qed.

Lemma Node_new_Ok_inv fuel value nodes t :
  Node_new fuel value nodes = Ok t →
  ∃ fuel' above cs,
    fuel = S fuel' ∧ nodes !! value = Some above ∧
    Forall2 (λ v c, Node_new fuel' v nodes = Ok c) above cs ∧
    t = calculateWidth (MkNode value cs 0 0 0).
Proof.
  destruct fuel as [|fuel]; simpl; [done|].
  destruct (nodes !! value) as [above|] eqn:E; [|done].
  destruct (for_each _ [] above) as [cs| |] eqn:E2; simpl; try done.
  apply for_each_push_Ok in E2 as (cs' & Hcs & ->).
  intros [= <-]. by exists fuel, above, cs'.
Qed.

Lemma Node_new_Ok_intro fuel value (nodes : NodesMap) above cs :
  nodes !! value = Some above →
  Forall2 (λ v c, Node_new fuel v nodes = Ok c) above cs →
  Node_new (S fuel) value nodes = Ok (calculateWidth (MkNode value cs 0 0 0)).
Proof.
  intros E Hcs. simpl. rewrite E.
  assert (for_each (λ acc v, c ← Node_new fuel v nodes; Ok (acc ++ [c]))
                   [] above = Ok ([] ++ cs)) as ->
    by (apply for_each_push_Ok; eauto).
  done.
Qed.

Lemma Node_new_calculateWidth fuel value nodes t :
  Node_new fuel value nodes = Ok t → calculateWidth t = t.
Proof.
  intros (? & ? & cs & _ & _ & _ & ->)%Node_new_Ok_inv. apply calculateWidth_idem.
Qed.

(** C4 (amended).  For every node [d] of a constructed tree: without
    children its width is the width of its label; with children, and
    provided that the sum of the children's widths plus the spacing between
    them does not exceed [int_max], its width is the larger of the label's
    width and that sum, so it is at least that sum; the width is always at
    least the width of the label. *)
Theorem Node_width_invariant fuel value nodes t d :
  Node_new fuel value nodes = Ok t → subnode t d →
  (above_ d = [] → width d = textWidth d) ∧
  (above_ d ≠ [] → children_extent (above_ d) <= int_max →
     width d = Z.max (textWidth d) (children_extent (above_ d)) ∧
     children_extent (above_ d) <= width d) ∧
  textWidth d <= width d.
Proof.
  intros Hnew Hsub.
  assert (Hd : calculateWidth d = d).
  { eapply subnode_calculateWidth; [|done]. by eapply Node_new_calculateWidth. }
  pose proof (calculateWidth_width d) as Hw.
  pose proof (calculateWidth_width_bounds d) as Hb.
  rewrite Hd in Hw, Hb. split_and!.
  - intros E. by rewrite E in Hw.
  - intros Hne Hext. destruct (above_ d) as [|c above] eqn:E; [done|].
    assert (Hpos : 0 <= children_extent (c :: above)).
    { unfold children_extent, sum_widths, nodeSpacing.
      assert (Hall : Forall (λ c, 0 <= width c) (c :: above)).
      { apply Forall_forall. intros x Hx.
        assert (Hx' : calculateWidth x = x).
        { eapply subnode_calculateWidth; [exact Hd|].
          eapply subnode_child; [by rewrite E|constructor]. }
        pose proof (calculateWidth_width_bounds x) as Hbx.
        pose proof (textWidth_bounds x). rewrite Hx' in Hbx. lia. }
      assert (0 <= foldr (λ c s, width c + s) 0 (c :: above)).
      { clear - Hall. induction Hall as [|x l Hx Hl IH]; simpl in *; lia. }
      simpl length. lia. }
    rewrite wrap_id in Hw by (unfold is_int, int_min; lia). lia.
  - lia.
Qed.

Lemma Node_width_invariant_witness :
  let t := MkNode 1 [MkNode 2 [] 0 0 8; MkNode 3 [] 0 0 8] 0 0 26 in
  (above_ t = [] → width t = textWidth t) ∧
  (above_ t ≠ [] → children_extent (above_ t) <= int_max →
     width t = Z.max (textWidth t) (children_extent (above_ t)) ∧
     children_extent (above_ t) <= width t) ∧
  textWidth t <= width t.
Proof.
  intros t.
  apply (Node_width_invariant 2 1 (list_to_map [(1, [2; 3]); (2, []); (3, [])])
                              t t).
  - vm_compute. reflexivity.
  - constructor.
Defined.

Lemma sum_widths_replicate (n : nat) c :
  sum_widths (replicate n c) = Z.of_nat n * width c.
Proof. induction n as [|n IH]; simpl in *; lia. Qed.

Lemma Forall2_replicate_same {A B} (R : A → B → Prop) (n : nat) a b :
  R a b → Forall2 R (replicate n a) (replicate n b).
Proof. intros H. induction n; simpl; by constructor. Qed.

(** C4, counterexample.  A node with 119304648 children of width 8: the
    children need 8 * 119304648 + 10 * 119304647 = 2147483654 > [int_max],
    the sum wraps around to a negative [int] and the stored width is the
    width of the label, 8. *)
Lemma Node_width_counterexample :
  let n := Z.to_nat 119304648 in
  let nodes : NodesMap := <[1 := replicate n 2]> (<[2 := []]> ∅) in
  ∃ t, Node_new 2 1 nodes = Ok t ∧
       above_ t ≠ [] ∧ textWidth t = 8 ∧ width t = 8 ∧
       children_extent (above_ t) = 2147483654 ∧
       width t ≠ Z.max (textWidth t) (children_extent (above_ t)) ∧
       ¬ children_extent (above_ t) <= width t.
Proof.
  intros n nodes.
  assert (Hn : Z.of_nat n = 119304648) by (subst n; lia).
  clearbody n.
  set (leaf := MkNode 2 [] 0 0 8).
  assert (Hleaf : Node_new 1 2 nodes = Ok leaf).
  { simpl. unfold nodes. rewrite lookup_insert_ne by done.
    by rewrite lookup_insert_eq. }
  assert (Hroot : Node_new 2 1 nodes
                  = Ok (calculateWidth (MkNode 1 (replicate n leaf) 0 0 0))).
  { apply Node_new_Ok_intro with (above := replicate n 2).
    - unfold nodes. by rewrite lookup_insert_eq.
    - by apply Forall2_replicate_same. }
  eexists. split; [exact Hroot|].
  assert (Habove : above_ (calculateWidth (MkNode 1 (replicate n leaf) 0 0 0))
                   = replicate n leaf).
  { rewrite calculateWidth_above. simpl above_. by rewrite fmap_replicate. }
  assert (Hext : children_extent (replicate n leaf) = 2147483654).
  { unfold children_extent. rewrite sum_widths_replicate, length_replicate.
    unfold nodeSpacing. simpl width. lia. }
  assert (Htw : textWidth (calculateWidth (MkNode 1 (replicate n leaf) 0 0 0)) = 8).
  { by rewrite calculateWidth_textWidth. }
  assert (Hw : width (calculateWidth (MkNode 1 (replicate n leaf) 0 0 0)) = 8).
  { rewrite calculateWidth_width, Habove, Hext. simpl above_.
    destruct n as [|n']; [lia|]. simpl replicate. cbv beta iota.
    by vm_compute. }
  rewrite Habove, Hext, Htw, Hw. split_and!; try done; [|lia].
  destruct n; [lia|done].
Qed.

(** ** Placement *)

Lemma setPositions_eq value above px py w x y st :
  setPositions (MkNode value above px py w) x y st =
  let '(above', st') := place x y above (Z.quot (int_neg w) 2) st in
  (MkNode value above' x y w, st').
Proof.
  simpl. generalize (Z.quot (int_neg w) 2). revert st.
  induction above as [|c above IH]; intros st o; [done|].
  cbn -[setPositions].
  destruct (setPositions c _ _ _) as [c' st1].
  specialize (IH st1 (int_add o (int_add (width c) nodeSpacing))).
  cbn -[setPositions] in IH.
  destruct (place x y above _ st1) as [above' st2].
  destruct ((fix loop (xs : list Node) (offsetX : Z) (st : Statics)
               {struct xs} := _) above _ st1) as [above'' st2'].
  by injection IH as -> ->.
Qed.

Lemma setPositions_fields n x y st :
  positionX (setPositions n x y st).1 = x ∧
  positionY (setPositions n x y st).1 = y ∧
  width (setPositions n x y st).1 = width n ∧
  value_ (setPositions n x y st).1 = value_ n.
Proof.
  destruct n as [v above px py w]. rewrite setPositions_eq.
  by destruct (place x y above _ st).
Qed.

Lemma setPositions_above value above px py w x y st :
  above_ (setPositions (MkNode value above px py w) x y st).1 =
  (place x y above (Z.quot (int_neg w) 2) st).1.
Proof. rewrite setPositions_eq. by destruct (place x y above _ st). Qed.

Lemma wrap_posX x o a w k :
  wrap (x + wrap (o + wrap (w + k)) + a) = wrap (x + o + (w + k + a)).
Proof.
  destruct (wrap_eq (w + k)) as [k1 ->].
  destruct (wrap_eq (o + (w + k + k1 * 2 ^ 32))) as [k2 ->].
  replace (x + (o + (w + k + k1 * 2 ^ 32) + k2 * 2 ^ 32) + a)
    with (x + o + (w + k + a) + (k1 + k2) * 2 ^ 32) by lia.
  apply wrap_add_mul.
Qed.

Lemma int_sub_childY y : int_sub (int_sub y nodeSpacing) nodeHeight = wrap (childY y).
Proof.
  unfold int_sub, childY, nodeSpacing, nodeHeight.
  replace (wrap (y - 10) - 20) with (wrap (y - 10) + (- 20)) by lia.
  rewrite wrap_wrap_add_l. f_equal. lia.
Qed.

(** Where the loop puts the children, whatever the overflows: at the
    coordinates of the exact placement, reduced to an [int]. *)
Lemma place_lookup x y (xs : list Node) : ∀ o st (i : nat) c',
  (place x y xs o st).1 !! i = Some c' →
  ∃ c st_i, xs !! i = Some c ∧
    c' = (setPositions c
            (wrap (x + o + (advance (take i xs) + Z.quot (width c) 2)))
            (wrap (childY y)) st_i).1.
Proof.
  induction xs as [|c xs IH]; intros o st i c'; [done|].
  cbn -[setPositions]. rewrite int_sub_childY.
  destruct (setPositions c _ _ _) as [c1 st1] eqn:E1.
  destruct (place x y xs _ st1) as [xs' st2] eqn:E2.
  destruct i as [|i]; simpl.
  - intros [= <-]. eexists c, _. split; [done|].
    replace c1 with (c1, st1).1 by done. rewrite <- E1.
    replace (wrap (x + o + (0 + Z.quot (width c) 2)))
      with (int_add (int_add x o) (Z.quot (width c) 2)); [done|].
    unfold int_add. rewrite wrap_wrap_add_l. f_equal; lia.
  - intros Hi. replace xs' with (xs', st2).1 in Hi by done. rewrite <- E2 in Hi.
    apply IH in Hi as (c0 & st_i & Hc0 & ->).
    exists c0, st_i. split; [done|]. f_equal.
    unfold int_add. rewrite wrap_posX. f_equal. unfold advance. simpl. f_equal. lia.
Qed.

Lemma place_length x y (xs : list Node) : ∀ o st,
  length (place x y xs o st).1 = length xs.
Proof.
  induction xs as [|c xs IH]; intros o st; [done|].
  cbn -[setPositions].
  destruct (setPositions c _ _ _) as [c1 st1].
  specialize (IH (int_add o (int_add (width c) nodeSpacing)) st1).
  destruct (place x y xs _ st1) as [xs' st2]. simpl in *. by rewrite IH.
Qed.

(** The statics after [setPositions]: the running maximum of the x
    coordinates and the running minimum of the y coordinates of the nodes
    placed above [n], starting from the values before the call. *)
Lemma setPositions_statics n : ∀ x y st,
  highestX_ (setPositions n x y st).2 =
    foldl Z.max (highestX_ st) (positionX <$> descendants (setPositions n x y st).1) ∧
  highestY_ (setPositions n x y st).2 =
    foldl Z.min (highestY_ st) (positionY <$> descendants (setPositions n x y st).1).
Proof.
  induction n as [v above px py w IH] using Node_tree_ind. intros x y st.
  rewrite setPositions_eq. generalize (Z.quot (int_neg w) 2). intros o.
  assert (Hplace : ∀ o st,
    highestX_ (place x y above o st).2 =
      foldl Z.max (highestX_ st)
        (positionX <$> flat_map (λ c, c :: descendants c) (place x y above o st).1) ∧
    highestY_ (place x y above o st).2 =
      foldl Z.min (highestY_ st)
        (positionY <$> flat_map (λ c, c :: descendants c) (place x y above o st).1)).
  { clear o st. induction IH as [|c xs Hc Hxs IHxs]; intros o st; [done|].
    cbn -[setPositions].
    set (posX := int_add (int_add x o) (Z.quot (width c) 2)).
    set (posY := int_sub (int_sub y nodeSpacing) nodeHeight).
    set (st1 := {| highestY_ := _; highestX_ := _ |}).
    specialize (Hc posX posY st1).
    pose proof (setPositions_fields c posX posY st1) as (HX & HY & _).
    destruct (setPositions c posX posY st1) as [c1 st2].
    specialize (IHxs (int_add o (int_add (width c) nodeSpacing)) st2).
    destruct (place x y xs _ st2) as [xs' st3].
    simpl in *. rewrite !fmap_app, !foldl_app.
    destruct Hc as [Hc1 Hc2], IHxs as [IH1 IH2].
    rewrite HX, HY, <- Hc1, <- Hc2. done. }
  specialize (Hplace o st). destruct (place x y above o st) as [above' st'].
  done.
Qed.

Lemma childX_lookup x w (above : list Node) (i : nat) c :
  above !! i = Some c →
  childX x w above i =
  x + (Z.quot (- w) 2 + advance (take i above)) + Z.quot (width c) 2.
Proof. intros H. unfold childX, child_offset. by rewrite H. Qed.

(** C3 (amended).  [setPositions] puts the node at [(x, y)] and keeps the
    children in their order, with their widths.  Child [i] is placed at
    [childX = x + offset + w_i/2], where the offset starts at [-width/2]
    and is advanced by [w_t + spacing] after each child, provided that
    this value (and [-width]) fits in an [int]; it is placed at
    [childY = y - (rowHeight + spacing)] provided that this value fits in
    an [int]; [rowHeight = 20] and [spacing = 10].  The statics end as the
    running maximum of the x coordinates and the running minimum of the y
    coordinates of all the nodes placed, starting from their old values. *)
Theorem setPositions_children n x y st :
  let n' := (setPositions n x y st).1 in
  let st' := (setPositions n x y st).2 in
  nodeHeight = 20 ∧ nodeSpacing = 10 ∧
  positionX n' = x ∧ positionY n' = y ∧
  length (above_ n') = length (above_ n) ∧
  (∀ (i : nat) c', above_ n' !! i = Some c' →
     (∃ c, above_ n !! i = Some c ∧ width c' = width c ∧ value_ c' = value_ c) ∧
     (is_int (- width n) → is_int (childX x (width n) (above_ n) i) →
        positionX c' = childX x (width n) (above_ n) i) ∧
     (is_int (childY y) → positionY c' = childY y)) ∧
  highestX_ st' = foldl Z.max (highestX_ st) (positionX <$> descendants n') ∧
  highestY_ st' = foldl Z.min (highestY_ st) (positionY <$> descendants n').
Proof.
  intros n' st'. subst n' st'.
  pose proof (setPositions_fields n x y st) as (HX & HY & _).
  pose proof (setPositions_statics n x y st) as [HsX HsY].
  split_and!; try done.
  - destruct n as [v above px py w]. rewrite setPositions_above.
    apply place_length.
  - intros i c' Hi. destruct n as [v above px py w].
    rewrite setPositions_above in Hi.
    apply place_lookup in Hi as (c & st_i & Hc & ->).
    pose proof (setPositions_fields c
      (wrap (x + Z.quot (int_neg w) 2 + (advance (take i above) + Z.quot (width c) 2)))
      (wrap (childY y)) st_i) as (HcX & HcY & Hcw & Hcv).
    split_and!.
    + by exists c.
    + intros Hw Hfit. rewrite HcX. clear HX HY HsX HsY HcX HcY.
      cbn [width above_] in *.
      rewrite (childX_lookup _ _ _ _ _ Hc) in *.
      unfold int_neg. rewrite (wrap_id (- w)) by done.
      rewrite <- (wrap_id _ Hfit). f_equal. lia.
    + intros Hfit. rewrite HcY. by apply wrap_id.
Qed.

Lemma setPositions_children_witness :
  let n := MkNode 1 [MkNode 2 [] 0 0 8; MkNode 3 [] 0 0 8] 0 0 26 in
  let n' := (setPositions n 0 0 statics_init).1 in
  let st' := (setPositions n 0 0 statics_init).2 in
  nodeHeight = 20 ∧ nodeSpacing = 10 ∧
  positionX n' = 0 ∧ positionY n' = 0 ∧
  length (above_ n') = length (above_ n) ∧
  (∀ (i : nat) c', above_ n' !! i = Some c' →
     (∃ c, above_ n !! i = Some c ∧ width c' = width c ∧ value_ c' = value_ c) ∧
     (is_int (- width n) → is_int (childX 0 (width n) (above_ n) i) →
        positionX c' = childX 0 (width n) (above_ n) i) ∧
     (is_int (childY 0) → positionY c' = childY 0)) ∧
  highestX_ st' = foldl Z.max 0 (positionX <$> descendants n') ∧
  highestY_ st' = foldl Z.min 0 (positionY <$> descendants n').
Proof.
  intros n. apply (setPositions_children n 0 0 statics_init).
Defined.

(** C3, counterexample.  A node with one child, placed at
    [(0, int_min)]: [y - 30] is below [int_min], and the child is placed
    at [y - 30 + 2 ^ 32]. *)
Lemma setPositions_children_counterexample :
  let n := MkNode 1 [MkNode 2 [] 0 0 8] 0 0 8 in
  Node_new 2 1 (list_to_map [(1, [2]); (2, [])]) = Ok n ∧
  ∃ c', above_ (setPositions n 0 int_min statics_init).1 !! 0%nat = Some c' ∧
        positionY c' = 2147483618 ∧
        positionY c' ≠ int_min - (nodeHeight + nodeSpacing).
Proof.
  intros n. split; [vm_compute; reflexivity|].
  eexists. split; [vm_compute; reflexivity|]. split; [vm_compute; reflexivity|].
  by vm_compute.
Qed.

(** ** Siblings do not overlap *)

Lemma layout_fits_go x (xs : list Node) : ∀ offset,
  (fix go (xs : list Node) (offset : Z) : bool :=
     match xs with
     | [] => true
     | c :: xs' =>
       let posX := x + offset + Z.quot (width c) 2 in
       bool_decide (is_int posX) && layout_fits c posX
       && go xs' (offset + (width c + nodeSpacing))
     end) xs offset = true →
  ∀ (i : nat) c, xs !! i = Some c →
    is_int (x + (offset + advance (take i xs)) + Z.quot (width c) 2) ∧
    layout_fits c (x + (offset + advance (take i xs)) + Z.quot (width c) 2) = true.
Proof.
  induction xs as [|c0 xs IH]; intros offset H i c Hi; [done|].
  apply andb_prop in H as [H Hgo]. apply andb_prop in H as [Hint Hfit].
  apply bool_decide_eq_true in Hint.
  destruct i as [|i]; simpl in Hi.
  - injection Hi as <-. simpl take. unfold advance. simpl foldr.
    by rewrite Z.add_0_r.
  - specialize (IH _ Hgo i c Hi).
    replace (offset + advance (take (S i) (c0 :: xs)))
      with (offset + (width c0 + nodeSpacing) + advance (take i xs)); [done|].
    unfold advance. simpl. lia.
Qed.

Lemma layout_fits_children value above px py w x (i : nat) c :
  layout_fits (MkNode value above px py w) x = true → above !! i = Some c →
  is_int (childX x w above i) ∧ layout_fits c (childX x w above i) = true.
Proof.
  intros H Hi. rewrite (childX_lookup _ _ _ _ _ Hi).
  by apply (layout_fits_go x above (Z.quot (- w) 2) H).
Qed.

Lemma advance_nonneg (xs : list Node) :
  Forall (λ c, 0 <= width c) xs → 0 <= advance xs.
Proof.
  unfold advance, nodeSpacing. induction 1; simpl; lia.
Qed.

Lemma advance_take_lt (xs : list Node) : ∀ (i j : nat) c,
  Forall (λ c, 0 <= width c) xs → (i < j)%nat → xs !! i = Some c →
  advance (take i xs) + width c + nodeSpacing <= advance (take j xs).
Proof.
  induction xs as [|c0 xs IH]; intros i j c Hall Hij Hi; [done|].
  apply Forall_cons in Hall as [Hc0 Hall].
  destruct j as [|j]; [lia|]. destruct i as [|i]; simpl in Hi.
  - injection Hi as <-. unfold advance. simpl.
    pose proof (advance_nonneg (take j xs) (Forall_take _ _ _ Hall)).
    unfold advance in *. lia.
  - specialize (IH i j c Hall ltac:(lia) Hi). unfold advance in *. simpl. lia.
Qed.

Lemma apart_arith a b d :
  0 <= a → 0 <= b → a + nodeSpacing <= d →
  (a + b) / 2 <= Z.abs (- (d + Z.quot b 2 - Z.quot a 2)).
Proof.
  unfold nodeSpacing. intros Ha Hb Hd.
  rewrite !Z.quot_div_nonneg by lia.
  pose proof (Z.div_mod a 2 ltac:(lia)). pose proof (Z.mod_pos_bound a 2 ltac:(lia)).
  pose proof (Z.div_mod b 2 ltac:(lia)). pose proof (Z.mod_pos_bound b 2 ltac:(lia)).
  pose proof (Z.div_mod (a + b) 2 ltac:(lia)).
  pose proof (Z.mod_pos_bound (a + b) 2 ltac:(lia)). lia.
Qed.

Lemma computed_children_nonneg n :
  calculateWidth n = n →
  Forall (λ c, calculateWidth c = c ∧ 0 <= width c) (above_ n).
Proof.
  intros Hn. apply Forall_forall. intros c Hc.
  assert (Hcc : calculateWidth c = c).
  { eapply subnode_calculateWidth; [done|].
    eapply subnode_child; [done|constructor]. }
  split; [done|]. pose proof (calculateWidth_width_bounds c) as Hb.
  pose proof (textWidth_bounds c). rewrite Hcc in Hb. lia.
Qed.

(** Two children of a node placed without overflow. *)
Lemma place_apart x y (xs : list Node) o st (i j : nat) c1 c2 :
  Forall (λ c, 0 <= width c) xs → (i < j)%nat →
  (∀ (k : nat) c, xs !! k = Some c →
      is_int (x + (o + advance (take k xs)) + Z.quot (width c) 2)) →
  (place x y xs o st).1 !! i = Some c1 →
  (place x y xs o st).1 !! j = Some c2 →
  (width c1 + width c2) / 2 <= Z.abs (positionX c1 - positionX c2).
Proof.
  intros Hall Hij Hfit H1 H2.
  apply place_lookup in H1 as (a & st1 & Ha & ->).
  apply place_lookup in H2 as (b & st2 & Hb & ->).
  pose proof (Hfit _ _ Ha) as Hfa. pose proof (Hfit _ _ Hb) as Hfb.
  pose proof (advance_take_lt xs i j a Hall Hij Ha) as Hadv.
  assert (Hwa : 0 <= width a).
  { eapply (proj1 (Forall_forall _ _) Hall), list_elem_of_lookup_2, Ha. }
  assert (Hwb : 0 <= width b).
  { eapply (proj1 (Forall_forall _ _) Hall), list_elem_of_lookup_2, Hb. }
  match goal with
  | |- context [setPositions a ?xa ?ya st1] =>
    pose proof (setPositions_fields a xa ya st1) as (-> & _ & -> & _)
  end.
  match goal with
  | |- context [setPositions b ?xb ?yb st2] =>
    pose proof (setPositions_fields b xb yb st2) as (-> & _ & -> & _)
  end.
  replace (x + o + (advance (take i xs) + Z.quot (width a) 2))
    with (x + (o + advance (take i xs)) + Z.quot (width a) 2) by lia.
  replace (x + o + (advance (take j xs) + Z.quot (width b) 2))
    with (x + (o + advance (take j xs)) + Z.quot (width b) 2) by lia.
  rewrite !wrap_id by done.
  pose proof (apart_arith (width a) (width b)
                (advance (take j xs) - advance (take i xs)) Hwa Hwb ltac:(lia)) as Hap.
  replace (x + (o + advance (take i xs)) + Z.quot (width a) 2
           - (x + (o + advance (take j xs)) + Z.quot (width b) 2))
    with (- (advance (take j xs) - advance (take i xs)
             + Z.quot (width b) 2 - Z.quot (width a) 2)) by lia.
  done.
Qed.

(** Siblings are apart when the exact placement fits. *)
Lemma siblings_apart_of_fits t : ∀ x y st,
  calculateWidth t = t → layout_fits t x = true →
  siblings_apart (setPositions t x y st).1.
Proof.
  induction t as [v above px py w IH] using Node_tree_ind.
  intros x y st Ht Hfit d i j c1 c2 Hsub Hij H1 H2.
  pose proof (computed_children_nonneg _ Ht) as Hch. cbn [above_] in Hch.
  assert (Hw : is_int (- w)).
  { pose proof (calculateWidth_width_bounds (MkNode v above px py w)) as Hb.
    pose proof (textWidth_bounds (MkNode v above px py w)).
    rewrite Ht in Hb. cbn [width] in Hb. unfold is_int, int_min, int_max in *. lia. }
  assert (Ho : Z.quot (int_neg w) 2 = Z.quot (- w) 2).
  { unfold int_neg. by rewrite wrap_id. }
  assert (Hnonneg : Forall (λ c, 0 <= width c) above).
  { eapply Forall_impl; [exact Hch|]. by intros c [_ ?]. }
  assert (Hfits : ∀ (k : nat) c, above !! k = Some c →
            is_int (x + (Z.quot (- w) 2 + advance (take k above))
                    + Z.quot (width c) 2) ∧
            layout_fits c (x + (Z.quot (- w) 2 + advance (take k above))
                           + Z.quot (width c) 2) = true).
  { intros k c Hk. rewrite <- (childX_lookup _ _ _ _ _ Hk).
    by eapply layout_fits_children. }
  remember (setPositions (MkNode v above px py w) x y st).1 as t' eqn:Et'.
  destruct Hsub as [t'|t' c' d Hc' Hsub].
  - subst t'. rewrite setPositions_above, Ho in H1, H2.
    destruct (decide (i < j)%nat) as [Hlt|Hge].
    + eapply place_apart; [exact Hnonneg|exact Hlt| |exact H1|exact H2].
      intros k c Hk. by apply Hfits.
    + rewrite <- Z.abs_opp.
      replace (- (positionX c1 - positionX c2))
        with (positionX c2 - positionX c1) by lia.
      rewrite (Z.add_comm (width c1)).
      eapply place_apart; [exact Hnonneg| | |exact H2|exact H1]; [lia|].
      intros k c Hk. by apply Hfits.
  - subst t'. rewrite setPositions_above, Ho in Hc'.
    apply list_elem_of_lookup in Hc' as [k Hk].
    apply place_lookup in Hk as (c & st_k & Hc & ->).
    destruct (Hfits k c Hc) as [Hint Hfitc].
    replace (x + Z.quot (- w) 2 + (advance (take k above) + Z.quot (width c) 2))
      with (x + (Z.quot (- w) 2 + advance (take k above)) + Z.quot (width c) 2)
      in Hsub by lia.
    rewrite wrap_id in Hsub by done.
    assert (Hin : c ∈ above) by by eapply list_elem_of_lookup_2.
    eapply (proj1 (Forall_forall _ _) IH c Hin); [|exact Hfitc|exact Hsub|..];
      try done.
    by apply (proj1 (Forall_forall _ _) Hch c Hin).
Qed.

Lemma layout_fits_go_intro x (xs : list Node) : ∀ offset,
  (∀ (i : nat) c, xs !! i = Some c →
     is_int (x + (offset + advance (take i xs)) + Z.quot (width c) 2) ∧
     layout_fits c (x + (offset + advance (take i xs)) + Z.quot (width c) 2)
     = true) →
  (fix go (xs : list Node) (offset : Z) : bool :=
     match xs with
     | [] => true
     | c :: xs' =>
       let posX := x + offset + Z.quot (width c) 2 in
       bool_decide (is_int posX) && layout_fits c posX
       && go xs' (offset + (width c + nodeSpacing))
     end) xs offset = true.
Proof.
  induction xs as [|c xs IH]; intros offset H; [done|].
  destruct (H 0%nat c eq_refl) as [Hint Hfit].
  unfold advance in Hint, Hfit. cbn [take foldr] in Hint, Hfit.
  rewrite Z.add_0_r in Hint, Hfit.
  apply andb_true_intro. split; [apply andb_true_intro; split|].
  - by apply bool_decide_eq_true.
  - exact Hfit.
  - apply IH. intros i c' Hi. specialize (H (S i) c' Hi).
    replace (offset + (width c + nodeSpacing) + advance (take i xs))
      with (offset + advance (take (S i) (c :: xs))); [exact H|].
    unfold advance. simpl. lia.
Qed.

Lemma advance_take_le_extent (xs : list Node) : ∀ (i : nat) c,
  Forall (λ c, 0 <= width c) xs → xs !! i = Some c →
  0 <= advance (take i xs) ∧
  advance (take i xs) + width c <= children_extent xs.
Proof.
  unfold children_extent, advance, sum_widths, nodeSpacing.
  induction xs as [|c0 xs IH]; intros i c Hall Hi; [done|].
  apply Forall_cons in Hall as [Hc0 Hall].
  destruct i as [|i]; simpl in Hi.
  - injection Hi as <-. simpl.
    assert (0 <= foldr (λ c s, width c + s) 0 xs).
    { clear - Hall. induction Hall; simpl; lia. }
    lia.
  - destruct (IH i c Hall Hi) as [H0 Hle].
    assert (Hlen : (0 < length xs)%nat).
    { apply lookup_lt_Some in Hi. lia. }
    simpl. lia.
Qed.

(** A tree whose widths were computed without overflow fits when the span
    of its root does. *)
Lemma layout_fits_of_widths t : ∀ x,
  calculateWidth t = t → widths_exact t = true →
  is_int (x - Z.quot (width t) 2) →
  is_int (x + (width t - Z.quot (width t) 2)) →
  layout_fits t x = true.
Proof.
  induction t as [v above px py w IH] using Node_tree_ind.
  intros x Ht Hexact Hlo Hhi. cbn [width] in Hlo, Hhi.
  pose proof (computed_children_nonneg _ Ht) as Hch. cbn [above_] in Hch.
  assert (Hnonneg : Forall (λ c, 0 <= width c) above).
  { eapply Forall_impl; [exact Hch|]. by intros c [_ ?]. }
  cbn [widths_exact] in Hexact. apply andb_prop in Hexact as [Hext Hall].
  apply bool_decide_eq_true in Hext.
  assert (Hw : 0 <= w ∧ (above ≠ [] → children_extent above <= w)).
  { pose proof (calculateWidth_width (MkNode v above px py w)) as Hwd.
    pose proof (textWidth_bounds (MkNode v above px py w)) as Htw.
    rewrite Ht in Hwd. cbn [width above_] in Hwd.
    destruct above as [|c above]; [split; [lia|done]|].
    assert (0 <= children_extent (c :: above)).
    { destruct (advance_take_le_extent (c :: above) 0 c Hnonneg eq_refl).
      apply Forall_cons in Hnonneg as [? _]. unfold advance in *. simpl in *. lia. }
    rewrite wrap_id in Hwd by (unfold is_int, int_min; lia). lia. }
  destruct Hw as [Hw0 Hwext].
  assert (Hq : Z.quot (- w) 2 = - Z.quot w 2) by (apply Z.quot_opp_l; lia).
  assert (Hqw : 0 <= Z.quot w 2 <= w).
  { rewrite Z.quot_div_nonneg by lia.
    pose proof (Z.div_mod w 2 ltac:(lia)). pose proof (Z.mod_pos_bound w 2 ltac:(lia)).
    lia. }
  cbn [layout_fits]. apply layout_fits_go_intro. intros i c Hi.
  assert (Hin : c ∈ above) by by eapply list_elem_of_lookup_2.
  destruct (proj1 (Forall_forall _ _) Hch c Hin) as [Hcc Hc0].
  destruct (advance_take_le_extent above i c Hnonneg Hi) as [Ha0 Hale].
  assert (Hne : above ≠ []) by (intros ->; done).
  specialize (Hwext Hne).
  assert (Hqc : 0 <= Z.quot (width c) 2 <= width c).
  { rewrite Z.quot_div_nonneg by lia.
    pose proof (Z.div_mod (width c) 2 ltac:(lia)).
    pose proof (Z.mod_pos_bound (width c) 2 ltac:(lia)). lia. }
  assert (Hcex : widths_exact c = true).
  { rewrite forallb_forall in Hall. apply Hall. by apply list_elem_of_In. }
  rewrite Hq. unfold is_int, int_min, int_max in *. split; [lia|].
  apply (proj1 (Forall_forall _ _) IH c Hin); [done|done|..];
    unfold is_int, int_min, int_max; lia.
Qed.

(** C2 (amended).  For a tree as the constructor builds it (its stored
    widths are the computed ones), placed at an [x] for which the exact
    placement stays within the range of [int], any two children of one
    node end up at least half the sum of their widths apart.  The exact
    placement stays within that range whenever no width computation of
    the tree overflowed and [x - width/2] and [x + width] fit in an
    [int]. *)
Theorem setPositions_siblings_apart t x y st :
  calculateWidth t = t →
  (layout_fits t x = true → siblings_apart (setPositions t x y st).1) ∧
  (widths_exact t = true →
   is_int (x - Z.quot (width t) 2) → is_int (x + width t) →
   layout_fits t x = true).
Proof.
  intros Ht. split.
  - intros Hfit. by apply siblings_apart_of_fits.
  - intros Hexact Hlo Hhi. apply layout_fits_of_widths; try done.
    pose proof (calculateWidth_width_bounds t) as Hb.
    pose proof (textWidth_bounds t). rewrite Ht in Hb.
    assert (0 <= Z.quot (width t) 2 <= width t).
    { rewrite Z.quot_div_nonneg by lia.
      pose proof (Z.div_mod (width t) 2 ltac:(lia)).
      pose proof (Z.mod_pos_bound (width t) 2 ltac:(lia)). lia. }
    unfold is_int, int_min, int_max in *. lia.
Qed.

Lemma setPositions_siblings_apart_witness :
  let t := MkNode 1 [MkNode 2 [] 0 0 8; MkNode 3 [] 0 0 8] 0 0 26 in
  siblings_apart (setPositions t 0 0 statics_init).1 ∧
  layout_fits t 0 = true.
Proof.
  intros t.
  destruct (setPositions_siblings_apart t 0 0 statics_init) as [H1 H2];
    [vm_compute; reflexivity|].
  split.
  - apply H1. vm_compute. reflexivity.
  - apply H2; by vm_compute.
Defined.

Lemma place_lookup_fields x y (xs : list Node) o st (i : nat) c' :
  (place x y xs o st).1 !! i = Some c' →
  ∃ c, xs !! i = Some c ∧ width c' = width c ∧
       positionX c' = wrap (x + o + (advance (take i xs) + Z.quot (width c) 2)) ∧
       positionY c' = wrap (childY y).
Proof.
  intros (c & st_i & Hc & ->)%place_lookup. exists c.
  pose proof (setPositions_fields c
    (wrap (x + o + (advance (take i xs) + Z.quot (width c) 2)))
    (wrap (childY y)) st_i) as (? & ? & ? & _).
  done.
Qed.

Lemma calculateWidth_replicate value (n : nat) leaf px py w0 :
  calculateWidth leaf = leaf → (0 < n)%nat →
  calculateWidth (MkNode value (replicate n leaf) px py w0) =
  MkNode value (replicate n leaf) px py
    (Z.max (textWidth (MkNode value [] px py w0))
           (wrap (Z.of_nat n * width leaf + nodeSpacing * (Z.of_nat n - 1)))).
Proof.
  intros Hleaf Hn. rewrite calculateWidth_eq.
  destruct n as [|n]; [lia|].
  change (replicate (S n) leaf) with (leaf :: replicate n leaf) at 1.
  cbn zeta. rewrite fmap_replicate, Hleaf.
  unfold children_extent. by rewrite sum_widths_replicate, length_replicate.
Qed.

(** A root with three children that have [n] leaves each, for the [n]
    at which the offsets of the children overflow. *)
Lemma three_wide_children (n : nat) :
  Z.of_nat n = 119304647 →
  let nodes : NodesMap :=
    <[1 := [2; 3; 4]]> (<[2 := replicate n 5]> (<[3 := replicate n 5]>
      (<[4 := replicate n 5]> (<[5 := []]> ∅)))) in
  ∃ t c1 c2,
    Node_new 3 1 nodes = Ok t ∧
    above_ (setPositions t 0 0 statics_init).1 !! 0%nat = Some c1 ∧
    above_ (setPositions t 0 0 statics_init).1 !! 2%nat = Some c2 ∧
    width c1 = 2147483636 ∧ width c2 = 2147483636 ∧
    positionX c1 = 2 ∧ positionX c2 = -2 ∧
    ¬ (width c1 + width c2) / 2 <= Z.abs (positionX c1 - positionX c2).
Proof.
  intros Hn nodes.
  assert (Hpos : (0 < n)%nat) by lia.
  set (leaf := MkNode 5 [] 0 0 8).
  assert (Hleaf : Node_new 1 5 nodes = Ok leaf).
  { simpl. unfold nodes. rewrite !lookup_insert_ne by done.
    by rewrite lookup_insert_eq. }
  set (child := λ v, MkNode v (replicate n leaf) 0 0 2147483636).
  assert (Hchild : ∀ v, 0 <= v <= 9 →
            calculateWidth (MkNode v (replicate n leaf) 0 0 0) = child v).
  { intros v Hv. rewrite calculateWidth_replicate by done.
    unfold child. f_equal.
    replace (Z.of_nat n * width leaf + nodeSpacing * (Z.of_nat n - 1))
      with 2147483636 by (unfold nodeSpacing; simpl width; lia).
    assert (Htw : textWidth (MkNode v [] 0 0 0) = 8).
    { assert (v = 0 ∨ v = 1 ∨ v = 2 ∨ v = 3 ∨ v = 4 ∨ v = 5 ∨ v = 6 ∨ v = 7
              ∨ v = 8 ∨ v = 9) as Hcases by lia.
      destruct Hcases as [->|[->|[->|[->|[->|[->|[->|[->|[->| ->]]]]]]]]];
        by vm_compute. }
    rewrite Htw. by vm_compute. }
  assert (Hnew : ∀ v, 2 <= v <= 4 → Node_new 2 v nodes = Ok (child v)).
  { intros v Hv. rewrite <- Hchild by lia.
    apply Node_new_Ok_intro with (above := replicate n 5).
    - unfold nodes.
      assert (v = 2 ∨ v = 3 ∨ v = 4) as [->|[->| ->]] by lia.
      + rewrite lookup_insert_ne by done. by rewrite lookup_insert_eq.
      + rewrite !lookup_insert_ne by done. by rewrite lookup_insert_eq.
      + rewrite !lookup_insert_ne by done. by rewrite lookup_insert_eq.
    - by apply Forall2_replicate_same. }
  assert (Hidem : ∀ v, 0 <= v <= 9 → calculateWidth (child v) = child v).
  { intros v Hv. rewrite <- Hchild by done. apply calculateWidth_idem. }
  set (root := MkNode 1 [child 2; child 3; child 4] 0 0 2147483632).
  assert (Hroot : Node_new 3 1 nodes = Ok root).
  { replace root
      with (calculateWidth (MkNode 1 [child 2; child 3; child 4] 0 0 0)).
    - apply Node_new_Ok_intro with (above := [2; 3; 4]).
      + unfold nodes. by rewrite lookup_insert_eq.
      + repeat constructor; apply Hnew; lia.
    - rewrite calculateWidth_eq. cbn zeta. cbn [fmap list_fmap].
      rewrite !Hidem by lia. unfold root. by f_equal. }
  pose proof (place_length 0 0 [child 2; child 3; child 4]
                (Z.quot (int_neg 2147483632) 2) statics_init) as Hlen.
  destruct (lookup_lt_is_Some_2
              (place 0 0 [child 2; child 3; child 4]
                     (Z.quot (int_neg 2147483632) 2) statics_init).1 0)
    as [c1 Hc1]; [rewrite Hlen; simpl; lia|].
  destruct (lookup_lt_is_Some_2
              (place 0 0 [child 2; child 3; child 4]
                     (Z.quot (int_neg 2147483632) 2) statics_init).1 2)
    as [c2 Hc2]; [rewrite Hlen; simpl; lia|].
  exists root, c1, c2. unfold root at 2 3. rewrite setPositions_above.
  split_and!; [done|done|done|..].
  all: apply place_lookup_fields in Hc1 as (a & Ha & HW1 & HX1 & _);
       apply place_lookup_fields in Hc2 as (b & Hb & HW2 & HX2 & _);
       injection Ha as <-; injection Hb as <-;
       unfold advance, child in HX1, HX2, HW1, HW2;
       cbn [take foldr width] in HX1, HX2, HW1, HW2.
  - done.
  - done.
  - rewrite HX1. by vm_compute.
  - rewrite HX2. by vm_compute.
  - rewrite HX1, HX2, HW1, HW2. by vm_compute.
Qed.

(** C2, counterexample.  A root with three children that have 119304647
    leaves each: every child is 2147483636 wide, the offsets overflow, and
    the first and the third child are placed at [x = 2] and [x = -2]. *)
Lemma setPositions_siblings_counterexample :
  let n := Z.to_nat 119304647 in
  let nodes : NodesMap :=
    <[1 := [2; 3; 4]]> (<[2 := replicate n 5]> (<[3 := replicate n 5]>
      (<[4 := replicate n 5]> (<[5 := []]> ∅)))) in
  ∃ t c1 c2,
    Node_new 3 1 nodes = Ok t ∧
    above_ (setPositions t 0 0 statics_init).1 !! 0%nat = Some c1 ∧
    above_ (setPositions t 0 0 statics_init).1 !! 2%nat = Some c2 ∧
    width c1 = 2147483636 ∧ width c2 = 2147483636 ∧
    positionX c1 = 2 ∧ positionX c2 = -2 ∧
    ¬ (width c1 + width c2) / 2 <= Z.abs (positionX c1 - positionX c2).
Proof.
  intros n. apply three_wide_children. subst n. lia.
Qed.

(** ** The scenario with two children *)

(** C8 (amended).  A root whose label is 8 wide, with two children of
    width 8: its width is [max(8, 8 + 8 + 10) = 26], and once it is placed
    at [(0, 0)] the children are at [x = -13 + 4 = -9] and at
    [x = -13 + 8 + 10 + 4 = 9], both at [y = -30]. *)
Theorem two_children_layout value c1 c2 px py w0 st :
  textWidth (MkNode value [c1; c2] px py w0) = 8 →
  width (calculateWidth c1) = 8 → width (calculateWidth c2) = 8 →
  let root := calculateWidth (MkNode value [c1; c2] px py w0) in
  width root = 26 ∧
  ∃ a b, above_ (setPositions root 0 0 st).1 = [a; b] ∧
         positionX a = -9 ∧ positionX b = 9 ∧
         positionY a = -30 ∧ positionY b = -30.
Proof.
  intros Htw H1 H2 root. subst root. rewrite calculateWidth_eq. cbn zeta.
  rewrite Htw. cbn [fmap list_fmap].
  assert (Hw : Z.max 8 (wrap (children_extent
                               [calculateWidth c1; calculateWidth c2])) = 26).
  { unfold children_extent, sum_widths. cbn [foldr length]. rewrite H1, H2.
    by vm_compute. }
  rewrite Hw. split; [done|].
  rewrite setPositions_above.
  set (cs := (place 0 0 [calculateWidth c1; calculateWidth c2]
                    (Z.quot (int_neg 26) 2) st).1).
  pose proof (place_length 0 0 [calculateWidth c1; calculateWidth c2]
                (Z.quot (int_neg 26) 2) st) as Hlen.
  fold cs in Hlen.
  destruct cs as [|a [|b [|? ?]]] eqn:E; try done.
  exists a, b. split; [done|].
  assert (Ha : cs !! 0%nat = Some a) by by rewrite E.
  assert (Hb : cs !! 1%nat = Some b) by by rewrite E.
  apply place_lookup_fields in Ha as (a0 & [= <-] & _ & HXa & HYa).
  apply place_lookup_fields in Hb as (b0 & [= <-] & _ & HXb & HYb).
  unfold advance in HXa, HXb. cbn [take foldr] in HXa, HXb.
  rewrite H1 in HXb. rewrite H1 in HXa. rewrite H2 in HXb.
  rewrite HXa, HXb, HYa, HYb. by vm_compute.
Qed.

Lemma two_children_layout_witness :
  let root := calculateWidth (MkNode 1 [MkNode 2 [] 0 0 0; MkNode 3 [] 0 0 0] 0 0 0) in
  width root = 26 ∧
  ∃ a b, above_ (setPositions root 0 0 statics_init).1 = [a; b] ∧
         positionX a = -9 ∧ positionX b = 9 ∧
         positionY a = -30 ∧ positionY b = -30.
Proof.
  apply two_children_layout; vm_compute; reflexivity.
Defined.

(** C8, counterexample.  The tree of the map [1 -> [2, 3]]: the root is 26
    wide, the first child is at [x = -9], and the second child is at
    [x = 9], not at 13. *)
Lemma two_children_layout_counterexample :
  ∃ root a b,
    Node_new 2 1 (list_to_map [(1, [2; 3]); (2, []); (3, [])]) = Ok root ∧
    width root = 26 ∧ width a = 8 ∧ width b = 8 ∧
    above_ (setPositions root 0 0 statics_init).1 = [a; b] ∧
    positionX a = -9 ∧ positionX b = 9 ∧ positionX b ≠ 13.
Proof.
  exists (MkNode 1 [MkNode 2 [] 0 0 8; MkNode 3 [] 0 0 8] 0 0 26),
         (MkNode 2 [] (-9) (-30) 8), (MkNode 3 [] 9 (-30) 8).
  split_and!; try (vm_compute; reflexivity). by vm_compute.
Qed.

(** ** The constructor on the maps of [buildUpTo] *)

Lemma for_each_push_Throw {A} (f : A → result Node) (l : list A) : ∀ acc what,
  for_each (λ acc v, c ← f v; Ok (acc ++ [c])) acc l = Throw what →
  ∃ v, v ∈ l ∧ f v = Throw what.
Proof.
  induction l as [|v l IH]; intros acc what; simpl; [done|].
  destruct (f v) as [c| |] eqn:E; simpl; [|intros [= <-]|done].
  - intros (v' & Hv' & Hf)%IH. exists v'. split; [by right|done].
  - exists v. split; [by left|done].
Qed.

Lemma Node_new_Throw fuel : ∀ value (nodes : NodesMap) what,
  Node_new fuel value nodes = Throw what →
  what = "Invalid data generated" ∧
  ∃ v, expands nodes value v ∧ nodes !! v = None.
Proof.
  induction fuel as [|fuel IH]; intros value nodes what; simpl; [done|].
  destruct (nodes !! value) as [above|] eqn:E.
  - destruct (for_each _ [] above) as [cs| |] eqn:E2; simpl; try done.
    intros [= <-]. apply for_each_push_Throw in E2 as (c & Hc & Hthrow).
    apply IH in Hthrow as (-> & v & Hv & Hnone). split; [done|].
    exists v. split; [|done]. by eapply expands_child.
  - intros [= <-]. split; [done|]. exists value. split; [constructor|done].
Qed.

Lemma Node_new_Ok_expands (nodes : NodesMap) value v :
  expands nodes value v →
  ∀ fuel t, Node_new fuel value nodes = Ok t → is_Some (nodes !! v).
Proof.
  induction 1 as [r|r above c v Habove Hc Hexp IH]; intros fuel t Hnew;
    apply Node_new_Ok_inv in Hnew as (fuel' & above' & cs & -> & Hl & Hcs & _).
  - eauto.
  - assert (above' = above) as -> by congruence.
    apply list_elem_of_lookup in Hc as [i Hi].
    destruct (Forall2_lookup_l _ _ _ _ _ Hcs Hi) as (tc & _ & Htc).
    by eapply IH.
Qed.

Lemma Node_new_fuel_mono fuel : ∀ fuel' value (nodes : NodesMap) t,
  (fuel ≤ fuel')%nat →
  Node_new fuel value nodes = Ok t → Node_new fuel' value nodes = Ok t.
Proof.
  induction fuel as [|fuel IH]; intros fuel' value nodes t Hle Hnew; [done|].
  apply Node_new_Ok_inv in Hnew as (f & above & cs & [= <-] & Hl & Hcs & ->).
  destruct fuel' as [|fuel']; [lia|].
  apply Node_new_Ok_intro with (above := above); [done|].
  eapply Forall2_impl; [exact Hcs|]. intros v c Hv. apply IH; [lia|done].
Qed.

Lemma chain_NoDup path : chain path → NoDup path.
Proof.
  induction 1 as [|x u path Hnext Hx1 Hnotin Hchain IH].
  - apply NoDup_singleton.
  - by apply NoDup_cons.
Qed.

Lemma chain_next_below u path y :
  chain (u :: path) → y ∈ u :: path → y ≠ 1 → next y ∈ path.
Proof.
  remember (u :: path) as p eqn:Ep. intros Hchain. revert u path Ep.
  induction Hchain as [|x u0 p0 Hnext Hx1 Hnotin Hchain IH];
    intros u path [= <- <-] Hy Hy1.
  - apply list_elem_of_singleton in Hy. done.
  - apply elem_of_cons in Hy as [->|Hy].
    + rewrite Hnext. by left.
    + right. by eapply IH.
Qed.

Lemma chain_child u path x :
  chain (u :: path) → next x = u → x ≠ 1 → chain (x :: u :: path).
Proof.
  intros Hchain Hnext Hx1. constructor; try done.
  intros Hin. pose proof (chain_next_below _ _ _ Hchain Hin Hx1) as Hbelow.
  rewrite Hnext in Hbelow.
  apply chain_NoDup, NoDup_cons in Hchain as [Hu _]. done.
Qed.

Lemma NoDup_length_le_size (l : list Z) (X : gset Z) :
  NoDup l → (∀ y, y ∈ l → y ∈ X) → (length l ≤ size X)%nat.
Proof.
  intros Hnd Hsub. rewrite <- (size_list_to_set (C := gset Z) l Hnd).
  apply subseteq_size. intros y Hy. apply Hsub. by apply elem_of_list_to_set in Hy.
Qed.

Lemma Forall2_Ok_exists {A B} (f : A → result B) (l : list A) :
  (∀ v, v ∈ l → ∃ c, f v = Ok c) → ∃ cs, Forall2 (λ v c, f v = Ok c) l cs.
Proof.
  induction l as [|v l IH]; intros H; [exists []; constructor|].
  destruct (H v) as [c Hc]; [by left|].
  destruct IH as [cs Hcs]; [intros v' Hv'; apply H; by right|].
  exists (c :: cs). by constructor.
Qed.

(** On a complete map the expansion of a node whose way down to 1 is
    [path] returns, given a budget for the keys that are not on the way. *)
Lemma Node_new_enough_fuel i0 (nodes : NodesMap) fuel : ∀ v path,
  partial_map ∅ i0 nodes → chain (v :: path) →
  (∀ y, y ∈ v :: path → y ∈ dom nodes) →
  (size (dom nodes) < fuel + length (v :: path))%nat →
  ∃ t, Node_new fuel v nodes = Ok t.
Proof.
  induction fuel as [|fuel IH]; intros v path Hpm Hchain Hdom Hfuel.
  { pose proof (NoDup_length_le_size _ _ (chain_NoDup _ Hchain) Hdom). lia. }
  assert (Hv : v ∈ dom nodes) by (apply Hdom; by left).
  apply elem_of_dom in Hv as [above Habove].
  destruct (Forall2_Ok_exists (λ c, Node_new fuel c nodes) above) as [cs Hcs].
  { intros c Hc.
    destruct (pm_elem _ _ _ Hpm _ _ _ Habove Hc) as (Hnext & Hcdom & _ & Hc1).
    apply (IH c (v :: path)); [done|by apply chain_child| |simpl in *; lia].
    intros y [->|Hy]%elem_of_cons; [done|by apply Hdom]. }
  eexists. by eapply Node_new_Ok_intro.
Qed.

Lemma expands_key i0 (nodes : NodesMap) r v :
  partial_map ∅ i0 nodes → r ∈ dom nodes → expands nodes r v → v ∈ dom nodes.
Proof.
  intros Hpm Hr Hexp. induction Hexp as [r|r above c v Habove Hc Hexp IH];
    [done|].
  apply IH. by destruct (pm_elem _ _ _ Hpm _ _ _ Habove Hc) as (_ & ? & _).
Qed.

(** On a map returned by [buildUpTo] the tree of 1 can be built. *)
Lemma Node_new_root_returns fuel high nodes :
  0 < high → is_int high → buildUpTo fuel high = Ok nodes →
  ∃ fuel' t, Node_new fuel' 1 nodes = Ok t.
Proof.
  intros Hpos Hint H.
  apply buildUpTo_partial_map in H as [Hpm _]; [|done..].
  exists (S (size (dom nodes))).
  apply (Node_new_enough_fuel (high - 1) nodes _ 1 []);
    [done|constructor| |simpl; lia].
  intros y Hy. apply list_elem_of_singleton in Hy as ->. by destruct Hpm.
Qed.

Lemma for_each_push_ends {A} (f : A → result Node) (l : list A) : ∀ acc,
  (∀ v, v ∈ l → f v ≠ OutOfFuel) →
  for_each (λ acc v, c ← f v; Ok (acc ++ [c])) acc l ≠ OutOfFuel.
Proof.
  induction l as [|v l IH]; intros acc H; [done|].
  simpl. destruct (f v) as [c| |] eqn:E; simpl.
  - apply IH. intros v' Hv'. apply H. by right.
  - done.
  - exfalso. apply (H v); [by left|done].
Qed.

(** A finite expansion is gone through with a budget of its depth. *)
Lemma Node_new_within (nodes : NodesMap) (n : nat) : ∀ root fuel,
  expansion_within n nodes root = true → (n ≤ fuel)%nat →
  Node_new fuel root nodes ≠ OutOfFuel.
Proof.
  induction n as [|n IH]; intros root fuel Hwithin Hle; [done|].
  destruct fuel as [|fuel]; [lia|].
  cbn [expansion_within Node_new] in *.
  destruct (nodes !! root) as [above|]; [|done].
  rewrite forallb_forall in Hwithin.
  pose proof (for_each_push_ends (λ v, Node_new fuel v nodes) above []) as Hends.
  destruct (for_each _ [] above) as [cs| |]; simpl; [done|done|].
  exfalso. apply Hends; [|done].
  intros v Hv. apply IH; [|lia]. apply Hwithin. by apply list_elem_of_In.
Qed.

(** A construction that returns has gone through a finite expansion. *)
Lemma Node_new_Ok_within (nodes : NodesMap) fuel : ∀ root t,
  Node_new fuel root nodes = Ok t → expansion_within fuel nodes root = true.
Proof.
  induction fuel as [|fuel IH]; intros root t Hnew; [done|].
  apply Node_new_Ok_inv in Hnew as (f & above & cs & [= <-] & Hl & Hcs & _).
  cbn [expansion_within]. rewrite Hl. apply forallb_forall. intros v Hv.
  apply list_elem_of_In, list_elem_of_lookup in Hv as [i Hi].
  destruct (Forall2_lookup_l _ _ _ _ _ Hcs Hi) as (c & _ & Hc).
  by eapply IH.
Qed.

(** C6 (amended).  The constructor throws only if a value met during the
    expansion is not a key, and it returns only if every such value is a
    key.  When the expansion of the root is finite, the construction
    comes to an end, and it throws exactly when such a value is missing
    and returns exactly when none is.  On a map returned by [buildUpTo]
    every value stored in a vector is a key, the expansion of 1 is
    finite, and the construction of the tree of 1 returns and never
    throws. *)
Theorem Node_new_integrity :
  (∀ fuel root (nodes : NodesMap) what,
     Node_new fuel root nodes = Throw what →
     what = "Invalid data generated" ∧
     ∃ v, expands nodes root v ∧ nodes !! v = None) ∧
  (∀ fuel root (nodes : NodesMap) t,
     Node_new fuel root nodes = Ok t →
     ∀ v, expands nodes root v → is_Some (nodes !! v)) ∧
  (∀ (n : nat) root (nodes : NodesMap),
     expansion_within n nodes root = true →
     ∀ fuel, (n ≤ fuel)%nat →
       Node_new fuel root nodes ≠ OutOfFuel ∧
       (Node_new fuel root nodes = Throw "Invalid data generated" ↔
        ∃ v, expands nodes root v ∧ nodes !! v = None) ∧
       ((∃ t, Node_new fuel root nodes = Ok t) ↔
        ∀ v, expands nodes root v → is_Some (nodes !! v))) ∧
  (∀ fuel high nodes,
     0 < high → is_int high → buildUpTo fuel high = Ok nodes →
     (∀ k l x, nodes !! k = Some l → x ∈ l → is_Some (nodes !! x)) ∧
     (∃ n : nat, expansion_within n nodes 1 = true) ∧
     (∃ fuel' t, Node_new fuel' 1 nodes = Ok t) ∧
     (∀ fuel' what, Node_new fuel' 1 nodes ≠ Throw what)).
Proof.
  split_and!.
  - intros fuel root nodes what. apply Node_new_Throw.
  - intros fuel root nodes t Hnew v Hv. by eapply Node_new_Ok_expands.
  - intros n root nodes Hwithin fuel Hle.
    pose proof (Node_new_within nodes n root fuel Hwithin Hle) as Hends.
    split_and!; [done|split|split].
    + by intros [_ ?]%Node_new_Throw.
    + intros (v & Hv & Hnone).
      destruct (Node_new fuel root nodes) as [t|what|] eqn:E;
        [|by apply Node_new_Throw in E as [-> _]|done].
      destruct (Node_new_Ok_expands _ _ _ Hv _ _ E) as [? ?]. congruence.
    + intros [t Ht] v Hv. by eapply Node_new_Ok_expands.
    + intros Hall.
      destruct (Node_new fuel root nodes) as [t|what|] eqn:E; [by eexists| |done].
      apply Node_new_Throw in E as (_ & v & Hv & Hnone).
      destruct (Hall v Hv) as [? ?]. congruence.
  - intros fuel high nodes Hpos Hint H.
    pose proof (Node_new_root_returns _ _ _ Hpos Hint H) as Hreturns.
    apply buildUpTo_partial_map in H as [Hpm _]; [|done..].
    assert (H1 : 1 ∈ dom nodes) by by destruct Hpm.
    split_and!.
    + intros k l x Hk Hx. apply elem_of_dom.
      by destruct (pm_elem _ _ _ Hpm _ _ _ Hk Hx) as (_ & ? & _).
    + destruct Hreturns as (fuel' & t & Hnew). exists fuel'.
      by eapply Node_new_Ok_within.
    + done.
    + intros fuel' what (_ & v & Hv & Hnone)%Node_new_Throw.
      apply (expands_key _ _ _ _ Hpm H1), elem_of_dom in Hv as [? ?]. congruence.
Qed.

Lemma Node_new_integrity_witness :
  (Node_new 5 1 (list_to_map [(1, [2; 7]); (2, [])]) ≠ OutOfFuel ∧
   (Node_new 5 1 (list_to_map [(1, [2; 7]); (2, [])])
    = Throw "Invalid data generated" ↔
    ∃ v, expands (list_to_map [(1, [2; 7]); (2, [])]) 1 v ∧
         (list_to_map [(1, [2; 7]); (2, [])] : NodesMap) !! v = None) ∧
   ((∃ t, Node_new 5 1 (list_to_map [(1, [2; 7]); (2, [])]) = Ok t) ↔
    ∀ v, expands (list_to_map [(1, [2; 7]); (2, [])]) 1 v →
         is_Some ((list_to_map [(1, [2; 7]); (2, [])] : NodesMap) !! v))) ∧
  (∀ v, expands (list_to_map [(1, [2]); (2, [])]) 1 v →
        is_Some ((list_to_map [(1, [2]); (2, [])] : NodesMap) !! v)) ∧
  (∃ fuel' t, Node_new fuel' 1 (list_to_map [(1, [2]); (2, [])]) = Ok t).
Proof.
  destruct Node_new_integrity as (Hthrow & Hok & Hfinite & Hbuild).
  split; [|split].
  - apply (Hfinite 2%nat 1 (list_to_map [(1, [2; 7]); (2, [])])); [|lia].
    vm_compute. reflexivity.
  - apply (Hok 5%nat 1 _ (MkNode 1 [MkNode 2 [] 0 0 8] 0 0 8)).
    vm_compute. reflexivity.
  - apply (Hbuild 10%nat 3); [lia|by vm_compute|vm_compute; reflexivity].
Defined.

(** On a map with a cycle the claim fails as the specification has it:
    in [{1 ↦ [1; 7]}] the value 7 is in the vector of the root and is not
    a key, but the constructor expands the first child, 1, again and
    again and never comes to 7; it does not throw, whatever the budget. *)
Lemma Node_new_cyclic_counterexample :
  let nodes : NodesMap := list_to_map [(1, [1; 7])] in
  (∃ v, expands nodes 1 v ∧ nodes !! v = None) ∧
  (∀ fuel, Node_new fuel 1 nodes = OutOfFuel) ∧
  (∀ n : nat, expansion_within n nodes 1 = false).
Proof.
  intros nodes.
  assert (Hroot : nodes !! 1 = Some [1; 7]) by (vm_compute; reflexivity).
  split_and!.
  - exists 7. split; [|vm_compute; reflexivity].
    apply expands_child with [1; 7] 7; [done| |constructor].
    right. left.
  - intros fuel. induction fuel as [|fuel IH]; [done|].
    cbn [Node_new]. rewrite Hroot. cbn [for_each]. by rewrite IH.
  - intros n. induction n as [|n IH]; [done|].
    cbn [expansion_within]. rewrite Hroot. cbn [forallb]. by rewrite IH.
Qed.

(** ** The command line *)

Section ProgramProofs.

Variable Image : Type.
Variable Magick_Image : Z → Z → result Image.
Variable Magick_draw : Image → Drawable → result Image.
Variable Magick_write : Image → string → result unit.
Variable extract_int : string → option Z.

Lemma for_each_drawFunc_Ok gx gy (calls : list (option Node * Node)) :
  (∀ img d, ∃ img', Magick_draw img d = Ok img') →
  ∀ image, ∃ image',
    for_each (drawFunc Image Magick_draw gx gy) image calls = Ok image'.
Proof.
  intros Hdraw. induction calls as [|[below current] calls IH]; intros image;
    [by eexists|].
  simpl. destruct (Hdraw image (DrawableText
    (int_sub (int_add (positionX current) gx) (Z.quot (textWidth current) 2))
    (int_add (positionY current) gy) (int_to_string (value_ current))))
    as [image1 ->]. simpl.
  destruct below as [below|]; simpl; [|apply IH].
  destruct (Hdraw image1 (DrawableLine
    (int_add (positionX current) gx)
    (int_add (int_add (positionY current) gy) 8)
    (int_add (positionX below) gx)
    (int_sub (int_add (positionY below) gy) 15))) as [image2 ->].
  simpl. apply IH.
Qed.

(** C9.  [main] returns 1 when the argument count is not three (the
    program name and two arguments), and when the extraction of an [int]
    from the first argument fails or gives a value that is not positive;
    a value returned by [main] is 1 in these cases and 0 otherwise; and
    when the arguments are accepted and Magick++ raises no error, [main]
    returns 0 after writing its four progress lines. *)
Theorem main_exit_code (argv : list string) :
  let arg1 := default "" (argv !! 1%nat) in
  let rejected :=
    extract_int arg1 = None ∨ ∃ n, extract_int arg1 = Some n ∧ n <= 0 in
  (length argv ≠ 3%nat → ∀ fuel,
     (main Image Magick_Image Magick_draw Magick_write extract_int fuel argv).1
     = Ok 1) ∧
  (rejected → ∀ fuel,
     (main Image Magick_Image Magick_draw Magick_write extract_int fuel argv).1
     = Ok 1) ∧
  (∀ fuel code,
     (main Image Magick_Image Magick_draw Magick_write extract_int fuel argv).1
     = Ok code →
     (code = 1 ∧ (length argv ≠ 3%nat ∨ rejected)) ∨
     (code = 0 ∧ length argv = 3%nat ∧ ¬ rejected)) ∧
  (length argv = 3%nat → ¬ rejected →
   (∀ n, extract_int arg1 = Some n → is_int n) →
   (∀ w h, ∃ img, Magick_Image w h = Ok img) →
   (∀ img d, ∃ img', Magick_draw img d = Ok img') →
   (∀ img file, Magick_write img file = Ok ()) →
   ∃ fuel,
     main Image Magick_Image Magick_draw Magick_write extract_int fuel argv
     = (Ok 0, {| cout := ["Calculating..."; "Calculated";
                          "Generating image..."; "Done"];
                 cerr := [] |})).
Proof.
  intros arg1 rejected. split_and!.
  - intros Hlen fuel. unfold main.
    destruct (Z.eqb_spec (Z.of_nat (length argv)) 3); [lia|done].
  - intros Hrej fuel. unfold main.
    destruct (Z.of_nat (length argv) =? 3); [|done]. simpl. fold arg1.
    destruct Hrej as [->|(n & -> & Hn)]; [done|].
    destruct (Z.leb_spec n 0); [done|lia].
  - intros fuel code. unfold main.
    destruct (Z.eqb_spec (Z.of_nat (length argv)) 3) as [Hlen|Hlen]; simpl.
    2:{ intros [= <-]. left. split; [done|]. left. lia. }
    fold arg1. destruct (extract_int arg1) as [n|] eqn:E.
    2:{ intros [= <-]. left. split; [done|]. right. by left. }
    destruct (Z.leb_spec n 0) as [Hn|Hn].
    { intros [= <-]. left. split; [done|]. right. right. by exists n. }
    destruct (buildUpTo fuel n); simpl; try done.
    destruct (generateImage _ _ _ _ _ _ _ _); simpl; try done.
    intros [= <-]. right. split_and!; [done|lia|].
    intros [?|(n' & [= <-] & ?)]; [done|lia].
  - intros Hlen Hacc Hint Himage Hdraw Hwrite.
    destruct (extract_int arg1) as [n|] eqn:E; [|exfalso; apply Hacc; by left].
    assert (Hn : 0 < n).
    { destruct (decide (0 < n)); [done|]. exfalso. apply Hacc. right.
      exists n. split; [done|lia]. }
    specialize (Hint n eq_refl).
    destruct (buildUpTo_total n Hn Hint) as (fuel1 & nodes & Hbuild).
    destruct (Node_new_root_returns fuel1 n nodes Hn Hint Hbuild)
      as (fuel2 & t & Hnew).
    exists (fuel1 `max` fuel2)%nat. unfold main.
    destruct (Z.eqb_spec (Z.of_nat (length argv)) 3); [|lia]. simpl.
    fold arg1. rewrite E. destruct (Z.leb_spec n 0); [lia|].
    rewrite (buildUpTo_fuel_mono fuel1 (fuel1 `max` fuel2)%nat n nodes
               ltac:(lia) Hbuild).
    unfold generateImage.
    rewrite (Node_new_fuel_mono fuel2 (fuel1 `max` fuel2)%nat 1 nodes t
               ltac:(lia) Hnew). simpl.
    destruct (setPositions t 0 0 statics_init) as [t' st'].
    match goal with
    | |- context [Magick_Image ?w ?h] => destruct (Himage w h) as [img ->]
    end. simpl.
    match goal with
    | |- context [for_each (drawFunc _ _ ?gx ?gy) img ?calls] =>
      destruct (for_each_drawFunc_Ok gx gy calls Hdraw img) as [img' ->]
    end. simpl. by rewrite Hwrite.
Qed.

End ProgramProofs.

Lemma main_exit_code_witness :
  let run := main () (λ _ _, Ok ()) (λ _ _, Ok ()) (λ _ _, Ok ())
                  extract_decimal in
  (∀ fuel, (run fuel ["collatz"]).1 = Ok 1) ∧
  (∀ fuel, (run fuel ["collatz"; "0"; "out.png"]).1 = Ok 1) ∧
  (∀ fuel, (run fuel ["collatz"; "x"; "out.png"]).1 = Ok 1) ∧
  (∃ fuel, run fuel ["collatz"; "5"; "out.png"] =
           (Ok 0, {| cout := ["Calculating..."; "Calculated";
                              "Generating image..."; "Done"];
                     cerr := [] |})).
Proof.
  intros run. split_and!.
  - destruct (main_exit_code () (λ _ _, Ok ()) (λ _ _, Ok ()) (λ _ _, Ok ())
                extract_decimal ["collatz"]) as (H & _).
    by apply H.
  - destruct (main_exit_code () (λ _ _, Ok ()) (λ _ _, Ok ()) (λ _ _, Ok ())
                extract_decimal ["collatz"; "0"; "out.png"]) as (_ & H & _).
    apply H. right. exists 0. split; [by vm_compute|lia].
  - destruct (main_exit_code () (λ _ _, Ok ()) (λ _ _, Ok ()) (λ _ _, Ok ())
                extract_decimal ["collatz"; "x"; "out.png"]) as (_ & H & _).
    apply H. left. by vm_compute.
  - destruct (main_exit_code () (λ _ _, Ok ()) (λ _ _, Ok ()) (λ _ _, Ok ())
                extract_decimal ["collatz"; "5"; "out.png"]) as (_ & _ & _ & H).
    apply H.
    + reflexivity.
    + intros [H'|(n & Hn & H')]; [by vm_compute in H'|].
      vm_compute in Hn. injection Hn as <-. lia.
    + intros n Hn. vm_compute in Hn. injection Hn as <-. by vm_compute.
    + intros w h. by exists ().
    + intros img d. by exists ().
    + done.
Defined.

(** * Further properties of the code *)

(** ** The map: [processValue] and [buildUpTo] *)

Lemma extends_refl nodes : extends nodes nodes.
Proof. intros k l H. exists []. by rewrite app_nil_r. Qed.

Lemma extends_trans n1 n2 n3 : extends n1 n2 → extends n2 n3 → extends n1 n3.
Proof.
  intros H12 H23 k l H.
  destruct (H12 k l H) as (l1 & H1). destruct (H23 _ _ H1) as (l2 & H2).
  exists (l1 ++ l2). by rewrite app_assoc.
Qed.

Lemma extends_insert_new (nodes : NodesMap) value l :
  nodes !! value = None → extends nodes (<[value := l]> nodes).
Proof.
  intros Hv k l0 Hk. exists []. rewrite app_nil_r, lookup_insert_ne; [done|].
  intros <-. congruence.
Qed.

Lemma extends_push_back (nodes : NodesMap) ref v :
  extends nodes (push_back nodes ref v).
Proof.
  intros k l Hk. unfold push_back. destruct (decide (ref = k)) as [->|Hne].
  - exists [v]. by rewrite lookup_alter_eq, Hk.
  - exists []. by rewrite lookup_alter_ne, app_nil_r.
Qed.

Lemma extends_subscript (nodes : NodesMap) key : extends nodes (subscript nodes key).
Proof.
  unfold subscript. destruct (nodes !! key) eqn:E; [apply extends_refl|].
  by apply extends_insert_new.
Qed.

(** A call of [processValue] keeps what is in the map. *)
Lemma processValue_extends fuel : ∀ nodes value nodes' ref,
  processValue fuel nodes value = Ok (nodes', ref) → extends nodes nodes'.
Proof.
  induction fuel as [|fuel IH]; intros nodes value nodes' ref H; [done|].
  simpl in H. destruct (nodes !! value) as [l0|] eqn:Hv.
  { injection H as <- <-. apply extends_refl. }
  destruct (processValue fuel _ _) as [[nodes2 ref2]| |] eqn:E; try done.
  simpl in H. injection H as <- <-.
  eapply extends_trans; [by apply extends_insert_new|].
  eapply extends_trans; [by eapply IH|].
  eapply extends_trans; [apply extends_push_back|apply extends_subscript].
Qed.

(** X1. [processValue] only ever adds to the map: the value asked for is
    a key afterwards and names the returned vector; a value that was a key
    already leaves the map as it is; every entry that was there is kept,
    its vector unchanged or longer by one element at the end. *)
Theorem processValue_keeps_entries fuel : ∀ nodes value nodes' ref,
  processValue fuel nodes value = Ok (nodes', ref) →
  ref = value ∧ value ∈ dom nodes' ∧
  (value ∈ dom nodes → nodes' = nodes) ∧
  (∀ k l, nodes !! k = Some l →
     ∃ l', nodes' !! k = Some (l ++ l') ∧ (length l' ≤ 1)%nat).
Proof.
  induction fuel as [|fuel IH]; intros nodes value nodes' ref H; [done|].
  simpl in H. destruct (nodes !! value) as [l0|] eqn:Hv.
  { injection H as <- <-. split_and!; [done|by apply elem_of_dom|done|].
    intros k l Hk. exists []. rewrite app_nil_r. split; [done|simpl; lia]. }
  destruct (processValue fuel _ _) as [[nodes2 ref2]| |] eqn:E; try done.
  simpl in H. injection H as <- <-.
  destruct (IH _ _ _ _ E) as (-> & Hn2 & Hmemo & Hold).
  assert (Hsub : ∀ m : NodesMap, dom (subscript m value) = dom m ∪ {[value]}
                 ∧ ∀ k, k ∈ dom m → subscript m value !! k = m !! k).
  { intros m. unfold subscript. destruct (m !! value) eqn:Em.
    - split; [|done]. apply elem_of_dom_2 in Em. set_solver.
    - split; [rewrite dom_insert_L; set_solver|].
      intros k Hk. rewrite lookup_insert_ne; [done|].
      intros <-. apply elem_of_dom in Hk as [? Hk]. congruence. }
  split_and!.
  - done.
  - destruct (Hsub (push_back nodes2 (next value) value)) as [-> _]. set_solver.
  - intros Hin. apply elem_of_dom in Hin as [? Hin]. congruence.
  - intros k l Hk.
    assert (Hkv : k ≠ value) by (intros ->; congruence).
    destruct (Hold k l) as (l' & Hl' & Hlen).
    { by rewrite lookup_insert_ne. }
    destruct (Hsub (push_back nodes2 (next value) value)) as [_ ->].
    2:{ unfold push_back. rewrite dom_alter_L. by apply elem_of_dom_2 in Hl'. }
    unfold push_back. destruct (decide (next value = k)) as [Heq|Hne].
    + rewrite Heq, lookup_alter_eq, Hl'. simpl.
      rewrite Hmemo in Hl'.
      2:{ rewrite dom_insert_L, Heq. apply elem_of_dom_2 in Hk. set_solver. }
      rewrite lookup_insert_ne in Hl' by done.
      assert (l' = []) as ->.
      { rewrite Hk in Hl'. injection Hl' as Hl'.
        apply (f_equal length) in Hl'. rewrite length_app in Hl'.
        destruct l'; [done|simpl in Hl'; lia]. }
      exists [value]. rewrite app_nil_r. split; [done|simpl; lia].
    + rewrite lookup_alter_ne by done. by exists l'.
Qed.

Lemma processValue_keeps_entries_witness :
  let nodes : NodesMap := list_to_map [(1, [2]); (2, [])] in
  let nodes' : NodesMap := list_to_map [(1, [2]); (2, [4]); (4, [8]); (8, [])] in
  (8 : Z) = 8 ∧ 8 ∈ dom nodes' ∧
  (8 ∈ dom nodes → nodes' = nodes) ∧
  (∀ k l, nodes !! k = Some l →
     ∃ l', nodes' !! k = Some (l ++ l') ∧ (length l' ≤ 1)%nat).
Proof.
  intros nodes nodes'.
  apply (processValue_keeps_entries 5 nodes 8 nodes' 8).
  vm_compute. reflexivity.
Defined.

Lemma for_each_app {A S : Type} (body : S → A → result S) (l1 l2 : list A) :
  ∀ s, for_each body s (l1 ++ l2) = s' ← for_each body s l1; for_each body s' l2.
Proof.
  induction l1 as [|x l1 IH]; intros s; [done|].
  simpl. destruct (body s x) as [s'| |]; simpl; [apply IH|done|done].
Qed.

Lemma buildUpTo_loop_extends fuel (l : list Z) : ∀ nodes nodes',
  for_each (λ nodes i, '(nodes, _) ← processValue fuel nodes i; Ok nodes)
           nodes l = Ok nodes' →
  extends nodes nodes'.
Proof.
  induction l as [|i l IH]; intros nodes nodes' H; simpl in H.
  { injection H as <-. apply extends_refl. }
  destruct (processValue fuel nodes i) as [[nodes1 ref]| |] eqn:E; try done.
  simpl in H. apply extends_trans with nodes1; [|by apply IH].
  by eapply processValue_extends.
Qed.

(** X2. A larger bound only adds to the map: every entry of the map built
    for [high] is in the map built for a larger bound, its vector a prefix
    of the vector there. *)
Theorem buildUpTo_monotone fuel fuel' high high' nodes nodes' :
  high <= high' →
  buildUpTo fuel high = Ok nodes → buildUpTo fuel' high' = Ok nodes' →
  dom nodes ⊆ dom nodes' ∧ extends nodes nodes'.
Proof.
  intros Hle H H'.
  assert (Hext : extends nodes nodes').
  { apply buildUpTo_fuel_mono with (fuel' := (fuel `max` fuel')%nat) in H; [|lia].
    apply buildUpTo_fuel_mono with (fuel' := (fuel `max` fuel')%nat) in H'; [|lia].
    unfold buildUpTo in H, H'.
    destruct (Z.leb_spec high 0); [done|]. destruct (Z.leb_spec high' 0); [lia|].
    destruct (decide (high < 2)) as [Hlt|Hge].
    { rewrite (seqZ_nil 2 (high - 2)) in H by lia. injection H as <-.
      by apply buildUpTo_loop_extends in H'. }
    replace (high' - 2) with ((high - 2) + (high' - high)) in H' by lia.
    rewrite seqZ_app, for_each_app, H in H' by lia. simpl in H'.
    by apply buildUpTo_loop_extends in H'. }
  split; [|done].
  intros k Hk. apply elem_of_dom in Hk as [l Hl].
  destruct (Hext k l Hl) as (l' & Hl'). by apply elem_of_dom_2 in Hl'.
Qed.

Lemma buildUpTo_monotone_witness :
  let nodes : NodesMap := list_to_map [(1, [2]); (2, [])] in
  let nodes' : NodesMap :=
    list_to_map [(1, [2]); (2, [4]); (4, [8]); (8, [16]); (16, [5]);
                 (5, [10]); (10, [3]); (3, [])] in
  dom nodes ⊆ dom nodes' ∧ extends nodes nodes'.
Proof.
  intros nodes nodes'.
  apply (buildUpTo_monotone 10 10 3 5 nodes nodes');
    [lia|vm_compute; reflexivity|vm_compute; reflexivity].
Defined.

Lemma next_even_inv x k : Z.rem x 2 = 0 → next x = k → x = 2 * k.
Proof.
  intros Hr <-. unfold next. rewrite Hr. simpl.
  pose proof (Z.quot_rem' x 2). lia.
Qed.

Lemma next_odd_inj x x' :
  is_int x → is_int x' → Z.rem x 2 ≠ 0 → Z.rem x' 2 ≠ 0 →
  next x = next x' → x = x'.
Proof.
  unfold next. intros Hx Hx' Hr Hr'.
  apply Z.eqb_neq in Hr, Hr'. rewrite Hr, Hr'.
  unfold int_add, int_mul, wrap, is_int, int_min, int_max in *. intros H.
  pose proof (Z.div_mod (3 * x + 2 ^ 31) (2 ^ 32) ltac:(lia)) as D1.
  pose proof (Z.div_mod (3 * x' + 2 ^ 31) (2 ^ 32) ltac:(lia)) as D2.
  pose proof (Z.div_mod ((3 * x + 2 ^ 31) mod 2 ^ 32 - 2 ^ 31 + 1 + 2 ^ 31) (2 ^ 32) ltac:(lia)) as D3.
  pose proof (Z.div_mod ((3 * x' + 2 ^ 31) mod 2 ^ 32 - 2 ^ 31 + 1 + 2 ^ 31) (2 ^ 32) ltac:(lia)) as D4.
  lia.
Qed.

(** Two [int]s of the same parity with the same successor are equal. *)
Lemma next_inj_parity x x' :
  is_int x → is_int x' → (Z.rem x 2 =? 0) = (Z.rem x' 2 =? 0) →
  next x = next x' → x = x'.
Proof.
  intros Hx Hx' Hp Hn.
  destruct (Z.eqb_spec (Z.rem x 2) 0) as [E|E];
    destruct (Z.eqb_spec (Z.rem x' 2) 0) as [E'|E']; try done.
  - rewrite (next_even_inv x _ E eq_refl), (next_even_inv x' _ E' eq_refl).
    by rewrite Hn.
  - by apply next_odd_inj.
Qed.

(** In a complete map no vector holds a value twice. *)
Lemma partial_map_vector_NoDup i0 (nodes : NodesMap) k l :
  partial_map ∅ i0 nodes → nodes !! k = Some l → NoDup l.
Proof.
  intros Hpm Hk.
  apply NoDup_ListNoDup, (proj2 (NoDup_count_occ' Z.eq_dec l)).
  intros x Hx. apply list_elem_of_In in Hx.
  destruct (pm_elem _ _ _ Hpm _ _ _ Hk Hx) as (Hnx & Hdom & _ & Hx1).
  destruct (pm_next _ _ _ Hpm x Hdom ltac:(set_solver) Hx1) as (l0 & Hl0 & Hc).
  rewrite Hnx, Hk in Hl0. by injection Hl0 as <-.
Qed.

(** X3. The vectors of the map that [buildUpTo] returns: the elements of
    the vector of a key are keys themselves, their successor is that key,
    none is 1 and none occurs twice; a vector has at most two elements (the
    even and the odd predecessor), so the tree drawn from the map is
    binary. *)
Theorem buildUpTo_vectors fuel high nodes k l :
  0 < high → is_int high → buildUpTo fuel high = Ok nodes →
  nodes !! k = Some l →
  (∀ x, x ∈ l → next x = k ∧ x ∈ dom nodes ∧ x ≠ 1) ∧
  NoDup l ∧ (length l ≤ 2)%nat.
Proof.
  intros Hpos Hint H Hk.
  destruct (buildUpTo_partial_map _ _ _ Hpos Hint H) as [Hpm _].
  assert (Hel : ∀ x, x ∈ l → next x = k ∧ x ∈ dom nodes ∧ x ≠ 1).
  { intros x Hx. destruct (pm_elem _ _ _ Hpm k l x Hk Hx) as (? & ? & _ & ?).
    done. }
  assert (Hnd : NoDup l) by by eapply partial_map_vector_NoDup.
  split_and!; [done|done|].
  destruct l as [|a [|b [|c l]]]; simpl; try lia.
  exfalso.
  assert (Ha : next a = k ∧ is_int a).
  { destruct (Hel a) as (? & ? & _); [set_solver|]. split; [done|].
    by apply (pm_int _ _ _ Hpm). }
  assert (Hb : next b = k ∧ is_int b).
  { destruct (Hel b) as (? & ? & _); [set_solver|]. split; [done|].
    by apply (pm_int _ _ _ Hpm). }
  assert (Hc : next c = k ∧ is_int c).
  { destruct (Hel c) as (? & ? & _); [set_solver|]. split; [done|].
    by apply (pm_int _ _ _ Hpm). }
  destruct Ha as [Ha Hia], Hb as [Hb Hib], Hc as [Hc Hic].
  apply NoDup_cons in Hnd as [Hab Hnd]. apply NoDup_cons in Hnd as [Hbc _].
  apply not_elem_of_cons in Hab as [Hab Hac].
  apply not_elem_of_cons in Hac as [Hac _].
  apply not_elem_of_cons in Hbc as [Hbc _].
  destruct (Z.rem a 2 =? 0) eqn:Pa, (Z.rem b 2 =? 0) eqn:Pb,
    (Z.rem c 2 =? 0) eqn:Pc;
    first [ apply Hab; apply next_inj_parity; congruence
          | apply Hac; apply next_inj_parity; congruence
          | apply Hbc; apply next_inj_parity; congruence ].
Qed.

Lemma buildUpTo_vectors_witness :
  let nodes : NodesMap :=
    list_to_map [(1, [2]); (2, [4]); (4, [8]); (8, [16]); (16, [5]);
                 (5, [10]); (10, [3; 20]); (3, [6]); (6, []); (20, [40]);
                 (40, [13]); (13, [26]); (26, [52]); (52, [17]); (17, [34]);
                 (34, [11]); (11, [22]); (22, [7]); (7, [])] in
  (∀ x, x ∈ [3; 20] → next x = 10 ∧ x ∈ dom nodes ∧ x ≠ 1) ∧
  NoDup [3; 20] ∧ (length [3; 20] ≤ 2)%nat.
Proof.
  intros nodes.
  apply (buildUpTo_vectors 30 8 nodes 10 [3; 20]);
    [lia|by vm_compute|vm_compute; reflexivity|vm_compute; reflexivity].
Defined.

(** ** More on [calculateWidth] and the constructor *)

Lemma calculateWidth_positions n :
  positionX (calculateWidth n) = positionX n ∧
  positionY (calculateWidth n) = positionY n.
Proof. destruct n as [v [|c above] px py w]; by rewrite calculateWidth_eq. Qed.

(** X4. [calculateWidth] can be run again without changing anything (the
    constructor runs it at every level of the tree, so the subtrees are
    measured many times): it leaves the value, the position and the values
    of the children alone, and the width it stores is an [int] between 8,
    the width of a one-character label, and [int_max]. *)
Theorem calculateWidth_stable n :
  calculateWidth (calculateWidth n) = calculateWidth n ∧
  value_ (calculateWidth n) = value_ n ∧
  positionX (calculateWidth n) = positionX n ∧
  positionY (calculateWidth n) = positionY n ∧
  value_ <$> above_ (calculateWidth n) = value_ <$> above_ n ∧
  8 <= width (calculateWidth n) <= int_max.
Proof.
  split_and!.
  - apply calculateWidth_idem.
  - apply calculateWidth_value.
  - apply calculateWidth_positions.
  - apply calculateWidth_positions.
  - rewrite calculateWidth_above, <- list_fmap_compose.
    apply list_fmap_ext. intros _ c _. apply calculateWidth_value.
  - pose proof (calculateWidth_width_bounds n).
    pose proof (textWidth_bounds n). lia.
  - apply calculateWidth_width_bounds.
Qed.

Lemma Node_new_children_fixed fuel (nodes : NodesMap) above cs :
  Forall2 (λ v c, Node_new fuel v nodes = Ok c) above cs →
  calculateWidth <$> cs = cs.
Proof.
  intros Hcs. rewrite <- (list_fmap_id cs) at 2. apply Forall_fmap_ext_1.
  apply Forall_forall. intros c Hc.
  apply list_elem_of_lookup in Hc as (i & Hi).
  destruct (Forall2_lookup_r _ _ _ _ _ Hcs Hi) as (v & _ & Hc).
  by apply Node_new_calculateWidth in Hc.
Qed.

(** The values of the tree are those of the map. *)
Lemma Node_new_shape fuel : ∀ value nodes t,
  Node_new fuel value nodes = Ok t →
  value_ t = value ∧
  ∀ d, subnode t d → nodes !! value_ d = Some (value_ <$> above_ d).
Proof.
  induction fuel as [|fuel IH]; intros value nodes t H; [done|].
  pose proof (Node_new_Ok_inv _ _ _ _ H)
    as (fuel' & above & cs & [= <-] & Hv & Hcs & ->).
  split; [by rewrite calculateWidth_value|].
  pose proof (Node_new_children_fixed _ _ _ _ Hcs) as Hfix.
  intros d Hd. inversion Hd as [|? c ? Hc Hsub]; subst.
  - rewrite calculateWidth_value, calculateWidth_above. simpl. rewrite Hfix.
    rewrite Hv. f_equal.
    clear -Hcs IH. induction Hcs as [|v c above cs Hc _ IHcs]; [done|].
    simpl. f_equal; [|done]. symmetry. by apply (IH _ _ _ Hc).
  - rewrite calculateWidth_above in Hc. simpl in Hc. rewrite Hfix in Hc.
    apply list_elem_of_lookup in Hc as (i & Hi).
    destruct (Forall2_lookup_r _ _ _ _ _ Hcs Hi) as (v & _ & Hc).
    by apply (IH _ _ _ Hc).
Qed.

(** The constructor leaves every node at the origin. *)
Lemma Node_new_positions fuel : ∀ value nodes t,
  Node_new fuel value nodes = Ok t →
  ∀ d, subnode t d → positionX d = 0 ∧ positionY d = 0.
Proof.
  induction fuel as [|fuel IH]; intros value nodes t H; [done|].
  pose proof (Node_new_Ok_inv _ _ _ _ H)
    as (fuel' & above & cs & [= <-] & Hv & Hcs & ->).
  pose proof (Node_new_children_fixed _ _ _ _ Hcs) as Hfix.
  intros d Hd. inversion Hd as [|? c ? Hc Hsub]; subst.
  - by destruct (calculateWidth_positions (MkNode value cs 0 0 0)) as [-> ->].
  - rewrite calculateWidth_above in Hc. simpl in Hc. rewrite Hfix in Hc.
    apply list_elem_of_lookup in Hc as (i & Hi).
    destruct (Forall2_lookup_r _ _ _ _ _ Hcs Hi) as (v & _ & Hc).
    by apply (IH _ _ _ Hc).
Qed.

(** X5. The tree that the constructor returns mirrors the map: its root
    carries the value asked for, and at every node the values of the
    children are the vector that the map holds for the value of the node,
    in the same order; every node is still at the position (0, 0). *)
Theorem Node_new_mirrors_map fuel value nodes t :
  Node_new fuel value nodes = Ok t →
  value_ t = value ∧
  ∀ d, subnode t d →
    nodes !! value_ d = Some (value_ <$> above_ d) ∧
    positionX d = 0 ∧ positionY d = 0.
Proof.
  intros Hnew. destruct (Node_new_shape _ _ _ _ Hnew) as [Hroot Hshape].
  split; [done|]. intros d Hd. split.
  - by apply Hshape.
  - by apply (Node_new_positions _ _ _ _ Hnew).
Qed.

Lemma Node_new_mirrors_map_witness :
  let nodes : NodesMap := list_to_map [(1, [2]); (2, [4]); (4, [])] in
  let t := MkNode 1 [MkNode 2 [MkNode 4 [] 0 0 8] 0 0 8] 0 0 8 in
  value_ t = 1 ∧
  ∀ d, subnode t d →
    nodes !! value_ d = Some (value_ <$> above_ d) ∧
    positionX d = 0 ∧ positionY d = 0.
Proof.
  intros nodes t. apply (Node_new_mirrors_map 5 1 nodes t).
  vm_compute. reflexivity.
Defined.

(** ** More on [setPositions] *)

Lemma place_unplaced x y (xs : list Node) :
  Forall (λ c, ∀ x y st, unplaced (setPositions c x y st).1 = unplaced c) xs →
  ∀ o st, unplaced <$> (place x y xs o st).1 = unplaced <$> xs.
Proof.
  induction 1 as [|c xs Hc _ IH]; intros o st; [done|].
  cbn -[setPositions].
  set (posX := int_add _ _). set (posY := int_sub _ _).
  set (st1 := {| highestY_ := _; highestX_ := _ |}).
  specialize (Hc posX posY st1).
  destruct (setPositions c posX posY st1) as [c1 st2].
  specialize (IH (int_add o (int_add (width c) nodeSpacing)) st2).
  destruct (place x y xs _ st2) as [xs' st3]. cbn [fst] in *.
  by rewrite !fmap_cons, Hc, IH.
Qed.

Lemma setPositions_unplaced n : ∀ x y st,
  unplaced (setPositions n x y st).1 = unplaced n.
Proof.
  induction n as [v above px py w IH] using Node_tree_ind. intros x y st.
  rewrite setPositions_eq.
  pose proof (place_unplaced x y above IH (Z.quot (int_neg w) 2) st) as H.
  destruct (place x y above _ st) as [above' st']. cbn [fst unplaced] in *.
  by rewrite H.
Qed.

Lemma place_again x y (xs : list Node) :
  Forall (λ c, ∀ x y st st2,
            (setPositions (setPositions c x y st).1 x y st2).1
            = (setPositions c x y st).1) xs →
  ∀ o st st2,
    (place x y (place x y xs o st).1 o st2).1 = (place x y xs o st).1.
Proof.
  induction 1 as [|c xs Hc _ IH]; intros o st st2; [done|].
  cbn -[setPositions].
  set (posX := int_add _ _). set (posY := int_sub _ _).
  set (st1 := {| highestY_ := _; highestX_ := _ |}).
  pose proof (setPositions_fields c posX posY st1) as (_ & _ & Hw & _).
  specialize (Hc posX posY st1).
  destruct (setPositions c posX posY st1) as [c1 st3]. simpl in Hw, Hc.
  specialize (IH (int_add o (int_add (width c) nodeSpacing)) st3).
  destruct (place x y xs _ st3) as [xs' st4]. simpl in IH.
  cbn -[setPositions]. rewrite Hw. fold posX. fold posY.
  set (st5 := {| highestY_ := _; highestX_ := _ |}).
  specialize (Hc st5).
  destruct (setPositions c1 posX posY st5) as [c2 st6]. simpl in Hc.
  specialize (IH st6).
  destruct (place x y xs' _ st6) as [xs'' st7]. simpl in *. by rewrite Hc, IH.
Qed.

Lemma setPositions_again_tree n : ∀ x y st st2,
  (setPositions (setPositions n x y st).1 x y st2).1 = (setPositions n x y st).1.
Proof.
  induction n as [v above px py w IH] using Node_tree_ind. intros x y st st2.
  rewrite setPositions_eq.
  pose proof (place_again x y above IH (Z.quot (int_neg w) 2) st) as H.
  destruct (place x y above _ st) as [above' st']. cbn [fst] in *.
  rewrite setPositions_eq. specialize (H st2).
  destruct (place x y above' _ st2) as [above'' st'']. cbn [fst] in *.
  by rewrite H.
Qed.

Lemma foldl_max_le (l : list Z) : ∀ a,
  a <= foldl Z.max a l ∧ ∀ z, z ∈ l → z <= foldl Z.max a l.
Proof.
  induction l as [|b l IH]; intros a; simpl.
  - split; [lia|]. intros z Hz. by apply elem_of_nil in Hz.
  - destruct (IH (Z.max a b)) as [H1 H2]. split; [lia|].
    intros z [->|Hz]%elem_of_cons; [lia|auto].
Qed.

Lemma foldl_min_le (l : list Z) : ∀ a,
  foldl Z.min a l <= a ∧ ∀ z, z ∈ l → foldl Z.min a l <= z.
Proof.
  induction l as [|b l IH]; intros a; simpl.
  - split; [lia|]. intros z Hz. by apply elem_of_nil in Hz.
  - destruct (IH (Z.min a b)) as [H1 H2]. split; [lia|].
    intros z [->|Hz]%elem_of_cons; [lia|auto].
Qed.

Lemma foldl_max_absorb (l : list Z) : ∀ a,
  (∀ z, z ∈ l → z <= a) → foldl Z.max a l = a.
Proof.
  induction l as [|b l IH]; intros a H; [done|]. simpl.
  rewrite Z.max_l by (apply H; left). apply IH. intros z Hz. apply H. by right.
Qed.

Lemma foldl_min_absorb (l : list Z) : ∀ a,
  (∀ z, z ∈ l → a <= z) → foldl Z.min a l = a.
Proof.
  induction l as [|b l IH]; intros a H; [done|]. simpl.
  rewrite Z.min_l by (apply H; left). apply IH. intros z Hz. apply H. by right.
Qed.

(** X6. [setPositions] writes positions and nothing else: values, widths
    and the shape of the whole subtree are as before.  Placing the placed
    tree again at the same point changes neither the tree nor the extrema
    kept in the static members. *)
Theorem setPositions_only_positions n x y st :
  let r := setPositions n x y st in
  unplaced r.1 = unplaced n ∧ setPositions r.1 x y r.2 = r.
Proof.
  intros r. split; [apply setPositions_unplaced|].
  pose proof (setPositions_again_tree n x y st r.2) as Htree. fold r in Htree.
  destruct (setPositions_statics n x y st) as [HX HY]. fold r in HX, HY.
  destruct (setPositions_statics r.1 x y r.2) as [HX2 HY2].
  rewrite Htree in HX2, HY2.
  destruct (setPositions r.1 x y r.2) as [t2 [hy2 hx2]].
  destruct r as [t1 [hy1 hx1]]. simpl in *. subst t2.
  rewrite foldl_max_absorb in HX2.
  2:{ intros z Hz. rewrite HX. by apply foldl_max_le. }
  rewrite foldl_min_absorb in HY2.
  2:{ intros z Hz. rewrite HY. by apply foldl_min_le. }
  by subst.
Qed.

(** ** [draw] *)

Lemma draw_nodes n : ∀ below, (draw n below).*2 = n :: descendants n.
Proof.
  induction n as [v above px py w IH] using Node_tree_ind. intros below.
  cbn [draw descendants]. rewrite fmap_cons. cbn [snd]. f_equal.
  generalize (MkNode v above px py w). intros p.
  induction IH as [|c xs Hc _ IHxs]; [done|].
  cbn [flat_map]. rewrite fmap_app, Hc, IHxs. done.
Qed.

Lemma draw_parents n : ∀ below q c,
  (q, c) ∈ draw n below →
  (q = below ∧ c = n) ∨ ∃ p, q = Some p ∧ subnode n p ∧ c ∈ above_ p.
Proof.
  induction n as [v above px py w IH] using Node_tree_ind. intros below q c.
  cbn [draw]. intros [[= -> ->]|Hin]%elem_of_cons; [by left|]. right.
  apply list_elem_of_In, in_flat_map in Hin as (x & Hx & Hin).
  apply list_elem_of_In in Hx, Hin.
  rewrite Forall_forall in IH.
  destruct (IH x Hx _ _ _ Hin) as [[-> ->]|(p & -> & Hsub & Hc)].
  - eexists. split; [done|]. split; [constructor|done].
  - exists p. split; [done|]. split; [|done].
    by apply subnode_child with x.
Qed.

(** X7. [draw] calls the function once for every node of the subtree, the
    node itself first and then the subtrees of the children from left to
    right (the order in which [setPositions] places them).  The first call
    receives the [below] given to [draw]; every other call receives the
    node of the subtree whose child the current node is. *)
Theorem draw_traversal n below :
  (draw n below).*2 = n :: descendants n ∧
  head (draw n below) = Some (below, n) ∧
  ∀ q c, (q, c) ∈ tail (draw n below) →
    ∃ p, q = Some p ∧ subnode n p ∧ c ∈ above_ p.
Proof.
  split_and!.
  - apply draw_nodes.
  - by destruct n.
  - intros q c Hin. destruct n as [v above px py w]. cbn [draw tail] in Hin.
    apply list_elem_of_In, in_flat_map in Hin as (x & Hx & Hin).
    apply list_elem_of_In in Hx, Hin.
    destruct (draw_parents _ _ _ _ Hin) as [[-> ->]|(p & -> & Hsub & Hc)].
    + eexists. split; [done|]. split; [constructor|done].
    + exists p. split; [done|]. split; [|done]. by apply subnode_child with x.
Qed.

(** ** [commaSeparateValues] *)

Lemma string_app_assoc (s1 s2 s3 : string) :
  (s1 +:+ s2) +:+ s3 = s1 +:+ (s2 +:+ s3).
Proof.
  induction s1 as [|a s1 IH]; [done|].
  change (String a ((s1 +:+ s2) +:+ s3) = String a (s1 +:+ (s2 +:+ s3))).
  by rewrite IH.
Qed.

Lemma string_app_nil_r (s : string) : s +:+ "" = s.
Proof.
  induction s as [|a s IH]; [done|].
  change (String a (s +:+ "") = String a s). by rewrite IH.
Qed.

Lemma commaSeparateValues_loop {A : Type} (show : A → string) (l : list A) :
  ∀ os x,
    foldl (λ os x, (os +:+ show x) +:+ ", ") os l +:+ show x
    = os +:+ String.concat ", " (show <$> l ++ [x]).
Proof.
  induction l as [|y l IH]; intros os x.
  - simpl. done.
  - cbn [foldl]. rewrite IH. rewrite !string_app_assoc.
    f_equal. cbn [app fmap list_fmap String.concat].
    destruct (l ++ [x]) eqn:E; [by destruct l|]. done.
Qed.

(** X8. [commaSeparateValues] writes nothing for an empty container and
    otherwise the elements in order, with [", "] between two neighbours
    and nothing after the last one. *)
Theorem commaSeparateValues_joins {A : Type} (show : A → string) os (c : list A) :
  commaSeparateValues show os c = os +:+ String.concat ", " (show <$> c).
Proof.
  destruct c as [|x c] using rev_ind.
  - simpl. by rewrite string_app_nil_r.
  - unfold commaSeparateValues. destruct (c ++ [x]) eqn:E; [by destruct c|].
    rewrite <- E. rewrite length_app. simpl.
    replace (length c + 1 - 1)%nat with (length c) by lia.
    rewrite take_app_length, lookup_app_r, Nat.sub_diag by lia. simpl.
    apply commaSeparateValues_loop.
Qed.

(** ** Errors and output of [generateImage] and [main] *)

Lemma Node_new_root_no_throw fuel0 fuel high nodes what :
  0 < high → is_int high → buildUpTo fuel0 high = Ok nodes →
  Node_new fuel 1 nodes ≠ Throw what.
Proof.
  intros Hpos Hint Hbuild Hthrow.
  destruct (buildUpTo_partial_map _ _ _ Hpos Hint Hbuild) as [Hpm _].
  apply Node_new_Throw in Hthrow as (_ & v & Hexp & Hv).
  apply (expands_key _ _ _ _ Hpm (pm_one _ _ _ Hpm)) in Hexp.
  apply elem_of_dom in Hexp as [? ?]. congruence.
Qed.

Section ProgramOutput.

Variable Image : Type.
Variable Magick_Image : Z → Z → result Image.
Variable Magick_draw : Image → Drawable → result Image.
Variable Magick_write : Image → string → result unit.
Variable extract_int : string → option Z.

Lemma for_each_drawFunc_Throw gx gy (calls : list (option Node * Node)) what :
  ∀ image,
    for_each (drawFunc Image Magick_draw gx gy) image calls = Throw what →
    ∃ img d, Magick_draw img d = Throw what.
Proof.
  induction calls as [|[below current] calls IH]; intros image; [done|].
  simpl.
  destruct (Magick_draw image _) as [image1| |] eqn:E1; simpl;
    [|intros [= <-]; eauto|done].
  destruct below as [below|]; simpl; [|apply IH].
  destruct (Magick_draw image1 _) as [image2| |] eqn:E2; simpl;
    [apply IH|intros [= <-]; eauto|done].
Qed.

(** X9. On a map built by [buildUpTo], an exception that leaves
    [generateImage] is one that Magick++ raised, in the constructor of the
    image, in a [draw] or in [write]: the constructor of the tree does not
    raise its own "Invalid data generated" there. *)
Theorem generateImage_throw_origin fuel0 high nodes fuel st outFileName what :
  0 < high → is_int high → buildUpTo fuel0 high = Ok nodes →
  generateImage Image Magick_Image Magick_draw Magick_write fuel st nodes
                outFileName = Throw what →
  (∃ w h, Magick_Image w h = Throw what) ∨
  (∃ img d, Magick_draw img d = Throw what) ∨
  (∃ img file, Magick_write img file = Throw what).
Proof.
  intros Hpos Hint Hbuild. unfold generateImage.
  destruct (Node_new fuel 1 nodes) as [t|what0|] eqn:Hnew; simpl; [| |done].
  2:{ by destruct (Node_new_root_no_throw fuel0 fuel high nodes what0). }
  destruct (setPositions t 0 0 st) as [t' st'].
  destruct (Magick_Image _ _) as [img| |] eqn:E1; simpl; [|intros [= <-]; eauto|done].
  destruct (for_each _ img _) as [img'| |] eqn:E2; simpl; [| |done].
  - intros H. right. right. eauto.
  - intros [= <-]. right. left. by apply for_each_drawFunc_Throw in E2.
Qed.

(** X10. What [main] writes.  When it returns 1 it has written nothing to
    the standard output and one line to the standard error: the usage line
    when the argument count is not three, the other message otherwise.  In
    every other case nothing is written to the standard error; [main]
    returns 0 only after the four progress lines; and when an exception
    leaves [main], it is one that [generateImage] raised for the map
    that [buildUpTo] returned, the first three progress lines were written
    and "Done" was not. *)
Theorem main_streams fuel (argv : list string) :
  let run := main Image Magick_Image Magick_draw Magick_write extract_int
                  fuel argv in
  (run.1 = Ok 1 →
     run.2 = {| cout := [];
                cerr := [if decide (length argv = 3%nat)
                         then "Expected positive integer argument"
                         else "Expected: collatz <up-to> <out-file>"] |}) ∧
  (run.1 = Ok 0 →
     run.2 = {| cout := ["Calculating..."; "Calculated";
                         "Generating image..."; "Done"];
                cerr := [] |}) ∧
  (∀ what, run.1 = Throw what →
     run.2 = {| cout := ["Calculating..."; "Calculated";
                         "Generating image..."];
                cerr := [] |} ∧
     ∃ upTo nodes,
       extract_int (default "" (argv !! 1%nat)) = Some upTo ∧ 0 < upTo ∧
       buildUpTo fuel upTo = Ok nodes ∧
       generateImage Image Magick_Image Magick_draw Magick_write fuel
                     statics_init nodes (default "" (argv !! 2%nat))
       = Throw what).
Proof.
  intros run. unfold run, main.
  destruct (Z.eqb_spec (Z.of_nat (length argv)) 3) as [Hlen|Hlen]; simpl.
  2:{ split_and!; [|done|done]. intros _.
      destruct (decide (length argv = 3%nat)); [lia|done]. }
  destruct (decide (length argv = 3%nat)); [|lia].
  destruct (extract_int _) as [upTo|] eqn:E; [|by split_and!].
  destruct (Z.leb_spec upTo 0) as [Hn|Hn]; [by split_and!|].
  destruct (buildUpTo fuel upTo) as [nodes|what0|] eqn:Hbuild; simpl.
  - destruct (generateImage _ _ _ _ _ _ _ _) as [[]|what0|] eqn:Hgen; simpl.
    + by split_and!.
    + split_and!; [done|done|]. intros what [= <-]. split; [done|].
      by exists upTo, nodes.
    + by split_and!.
  - exfalso. unfold buildUpTo in Hbuild.
    destruct (Z.leb_spec upTo 0); [lia|].
    by apply buildUpTo_loop_no_throw in Hbuild.
  - by split_and!.
Qed.

End ProgramOutput.

Lemma generateImage_throw_origin_witness :
  let nodes : NodesMap := list_to_map [(1, [2]); (2, [])] in
  let Magick_Image (w h : Z) : result unit := Ok () in
  let Magick_draw (img : unit) (d : Drawable) : result unit := Ok () in
  let Magick_write (img : unit) (file : string) : result unit :=
    Throw "unable to open image" in
  (∃ w h, Magick_Image w h = Throw "unable to open image") ∨
  (∃ img d, Magick_draw img d = Throw "unable to open image") ∨
  (∃ img file, Magick_write img file = Throw "unable to open image").
Proof.
  intros nodes Magick_Image Magick_draw Magick_write.
  apply (generateImage_throw_origin () Magick_Image Magick_draw Magick_write
           10 3 nodes 5 statics_init "out.png" "unable to open image");
    [lia|by vm_compute|vm_compute; reflexivity|vm_compute; reflexivity].
Defined.

Lemma main_streams_witness :
  let run := main () (λ _ _, Ok ()) (λ _ _, Ok ())
                  (λ _ _, Throw "unable to open image") extract_decimal 10
                  ["collatz"; "3"; "/nowhere/out.png"] in
  run.2 = {| cout := ["Calculating..."; "Calculated"; "Generating image..."];
             cerr := [] |} ∧
  ∃ upTo nodes,
    extract_decimal "3" = Some upTo ∧ 0 < upTo ∧
    buildUpTo 10 upTo = Ok nodes ∧
    generateImage () (λ _ _, Ok ()) (λ _ _, Ok ())
                  (λ _ _, Throw "unable to open image") 10 statics_init nodes
                  "/nowhere/out.png"
    = Throw "unable to open image".
Proof.
  intros run.
  destruct (main_streams () (λ _ _, Ok ()) (λ _ _, Ok ())
              (λ _ _, Throw "unable to open image") extract_decimal 10
              ["collatz"; "3"; "/nowhere/out.png"]) as (_ & _ & H).
  apply (H "unable to open image"). vm_compute. reflexivity.
Defined.

(** ** Footprints *)

Lemma quot2_bounds w : 0 <= w → 0 <= Z.quot w 2 <= w.
Proof.
  intros Hw. rewrite Z.quot_div_nonneg by lia.
  pose proof (Z.div_mod w 2 ltac:(lia)).
  pose proof (Z.mod_pos_bound w 2 ltac:(lia)). lia.
Qed.

Lemma half_mono a b :
  0 <= a <= b → Z.quot a 2 <= Z.quot b 2 ∧ a - Z.quot a 2 <= b - Z.quot b 2.
Proof.
  intros H. rewrite !Z.quot_div_nonneg by lia.
  pose proof (Z.div_mod a 2 ltac:(lia)).
  pose proof (Z.mod_pos_bound a 2 ltac:(lia)).
  pose proof (Z.div_mod b 2 ltac:(lia)).
  pose proof (Z.mod_pos_bound b 2 ltac:(lia)). lia.
Qed.

(** The children of a placeable node are placeable where the loop of
    [setPositions] puts them, side by side within the footprint. *)
Lemma placeable_child v above px py w x (i : nat) c :
  placeable (MkNode v above px py w) x → above !! i = Some c →
  let X := x + Z.quot (int_neg w) 2
           + (advance (take i above) + Z.quot (width c) 2) in
  is_int X ∧ placeable c X ∧
  X - Z.quot (width c) 2 = x - Z.quot w 2 + advance (take i above) ∧
  0 <= advance (take i above) ∧
  advance (take i above) + width c <= w ∧
  Forall (λ c, 0 <= width c) above.
Proof.
  intros (Ht & Hexact & Hlo & Hhi) Hi X. cbn [width] in Hlo, Hhi.
  pose proof (computed_children_nonneg _ Ht) as Hch. cbn [above_] in Hch.
  assert (Hnonneg : Forall (λ c, 0 <= width c) above).
  { eapply Forall_impl; [exact Hch|]. by intros c0 [_ ?]. }
  cbn [widths_exact] in Hexact. apply andb_prop in Hexact as [Hext Hall].
  apply bool_decide_eq_true in Hext.
  destruct (advance_take_le_extent above i c Hnonneg Hi) as [Ha0 Hale].
  assert (Hin : c ∈ above) by by eapply list_elem_of_lookup_2.
  destruct (proj1 (Forall_forall _ _) Hch c Hin) as [Hcc Hc0].
  assert (Hw : 0 <= w ∧ children_extent above <= w).
  { pose proof (calculateWidth_width (MkNode v above px py w)) as Hwd.
    pose proof (textWidth_bounds (MkNode v above px py w)) as Htw.
    rewrite Ht in Hwd. cbn [width above_] in Hwd.
    destruct above as [|c0 above]; [done|].
    rewrite wrap_id in Hwd by (unfold is_int, int_min; lia). lia. }
  destruct Hw as [Hw0 Hwext].
  pose proof (quot2_bounds w Hw0). pose proof (quot2_bounds (width c) Hc0).
  assert (Hneg : Z.quot (int_neg w) 2 = - Z.quot w 2).
  { unfold int_neg. rewrite wrap_id.
    - apply Z.quot_opp_l; lia.
    - pose proof (calculateWidth_width_bounds (MkNode v above px py w)) as Hb.
      rewrite Ht in Hb. cbn [width] in Hb.
      unfold is_int, int_min, int_max in *. lia. }
  assert (Hcex : widths_exact c = true).
  { rewrite forallb_forall in Hall. apply Hall. by apply list_elem_of_In. }
  unfold X. rewrite Hneg.
  unfold placeable, is_int, int_min, int_max in *. split_and!; try done; lia.
Qed.

(** Every node of a placed subtree is itself a placed placeable subtree,
    its footprint within the footprint of the root. *)
Lemma subnode_placed t : ∀ x y st d,
  placeable t x → subnode (setPositions t x y st).1 d →
  ∃ d0 xd yd std,
    d = (setPositions d0 xd yd std).1 ∧ placeable d0 xd ∧
    x - Z.quot (width t) 2 <= xd - Z.quot (width d0) 2 ∧
    xd + (width d0 - Z.quot (width d0) 2)
      <= x + (width t - Z.quot (width t) 2).
Proof.
  induction t as [v above px py w IH] using Node_tree_ind.
  intros x y st d Hp Hsub.
  remember (setPositions (MkNode v above px py w) x y st).1 as t' eqn:Et'.
  destruct Hsub as [t'|t' c' d Hc' Hsub].
  - exists (MkNode v above px py w), x, y, st. split_and!; [done|done|lia|lia].
  - subst t'. rewrite setPositions_above in Hc'.
    apply list_elem_of_lookup in Hc' as [i Hi].
    apply place_lookup in Hi as (c & st_i & Hc & ->).
    destruct (placeable_child _ _ _ _ _ _ _ _ Hp Hc)
      as (HX & HpX & Hleft & Ha0 & Haw & Hnonneg).
    rewrite wrap_id in Hsub by exact HX.
    assert (Hin : c ∈ above) by by eapply list_elem_of_lookup_2.
    destruct (proj1 (Forall_forall _ _) IH c Hin _ _ _ _ HpX Hsub)
      as (d0 & xd & yd & std & -> & Hpd & Hlo & Hhi).
    exists d0, xd, yd, std. split_and!; [done|done|cbn [width]; lia|].
    cbn [width]. lia.
Qed.

Lemma placeable_width t x : placeable t x → textWidth t <= width t.
Proof.
  intros (Ht & _). pose proof (calculateWidth_width_bounds t) as Hb.
  rewrite Ht in Hb. lia.
Qed.

(** X11. The footprint of a subtree never exceeds its computed width:
    when a tree as the constructor builds it, none of whose width
    computations overflowed, is placed at [x], every node of it (and the
    label of the node, drawn from [positionX - textWidth / 2] on) lies
    within the [width] of the root around [x]. *)
Theorem setPositions_footprint t x y st d :
  placeable t x → subnode (setPositions t x y st).1 d →
  x - Z.quot (width t) 2 <= left_edge d ∧
  left_edge d <= positionX d - Z.quot (textWidth d) 2 ∧
  positionX d - Z.quot (textWidth d) 2 + textWidth d <= right_edge d ∧
  right_edge d <= x + (width t - Z.quot (width t) 2).
Proof.
  intros Hp Hsub.
  destruct (subnode_placed _ _ _ _ _ Hp Hsub)
    as (d0 & xd & yd & std & -> & Hpd & Hlo & Hhi).
  pose proof (setPositions_fields d0 xd yd std) as (HX & _ & Hw & Hv).
  pose proof (placeable_width _ _ Hpd) as Htw.
  pose proof (textWidth_bounds d0).
  assert (Ht : textWidth (setPositions d0 xd yd std).1 = textWidth d0)
    by (unfold textWidth; by rewrite Hv).
  unfold left_edge, right_edge. rewrite HX, Hw, Ht.
  pose proof (half_mono (textWidth d0) (width d0) ltac:(lia)).
  pose proof (quot2_bounds (textWidth d0) ltac:(lia)).
  lia.
Qed.

Lemma setPositions_footprint_witness :
  let t := MkNode 1 [MkNode 2 [] 0 0 8; MkNode 3 [] 0 0 8] 0 0 26 in
  let d := MkNode 3 [] 9 (-30) 8 in
  0 - Z.quot (width t) 2 <= left_edge d ∧
  left_edge d <= positionX d - Z.quot (textWidth d) 2 ∧
  positionX d - Z.quot (textWidth d) 2 + textWidth d <= right_edge d ∧
  right_edge d <= 0 + (width t - Z.quot (width t) 2).
Proof.
  intros t d. apply (setPositions_footprint t 0 0 statics_init d).
  - split_and!; [vm_compute; reflexivity|reflexivity|by vm_compute|by vm_compute].
  - apply subnode_child with d; [|constructor].
    vm_compute. right. left.
Defined.

(** X12. Subtrees of different children of one node are apart: under the
    same conditions, whatever is above (or is) a child lies, with its
    whole footprint, at least [nodeSpacing] to the left of whatever is
    above (or is) a later child of the same node. *)
Theorem setPositions_subtrees_apart t x y st d (i j : nat) c1 c2 e1 e2 :
  placeable t x → subnode (setPositions t x y st).1 d →
  (i < j)%nat → above_ d !! i = Some c1 → above_ d !! j = Some c2 →
  subnode c1 e1 → subnode c2 e2 →
  right_edge e1 + nodeSpacing <= left_edge e2.
Proof.
  intros Hp Hsub Hij H1 H2 He1 He2.
  destruct (subnode_placed _ _ _ _ _ Hp Hsub)
    as ([v above px py w] & xd & yd & std & -> & Hpd & _ & _).
  rewrite setPositions_above in H1, H2.
  apply place_lookup in H1 as (a & st_a & Ha & ->).
  apply place_lookup in H2 as (b & st_b & Hb & ->).
  destruct (placeable_child _ _ _ _ _ _ _ _ Hpd Ha)
    as (HXa & Hpa & Hlefta & _ & _ & Hnonneg).
  destruct (placeable_child _ _ _ _ _ _ _ _ Hpd Hb)
    as (HXb & Hpb & Hleftb & _ & _ & _).
  rewrite wrap_id in He1 by exact HXa. rewrite wrap_id in He2 by exact HXb.
  pose proof (advance_take_lt above i j a Hnonneg Hij Ha) as Hadv.
  destruct (subnode_placed _ _ _ _ _ Hpa He1)
    as (d1 & x1 & y1 & st1 & -> & _ & _ & Hhi1).
  destruct (subnode_placed _ _ _ _ _ Hpb He2)
    as (d2 & x2 & y2 & st2 & -> & _ & Hlo2 & _).
  pose proof (setPositions_fields d1 x1 y1 st1) as (HX1 & _ & Hw1 & _).
  pose proof (setPositions_fields d2 x2 y2 st2) as (HX2 & _ & Hw2 & _).
  unfold left_edge, right_edge. rewrite HX1, Hw1, HX2, Hw2.
  unfold nodeSpacing in *. lia.
Qed.

Lemma setPositions_subtrees_apart_witness :
  let c1 := MkNode 2 [] (-9) (-30) 8 in
  let c2 := MkNode 3 [] 9 (-30) 8 in
  right_edge c1 + nodeSpacing <= left_edge c2.
Proof.
  intros c1 c2.
  apply (setPositions_subtrees_apart
           (MkNode 1 [MkNode 2 [] 0 0 8; MkNode 3 [] 0 0 8] 0 0 26)
           0 0 statics_init (MkNode 1 [c1; c2] 0 0 26) 0 1 c1 c2 c1 c2).
  - split_and!; [vm_compute; reflexivity|reflexivity|by vm_compute|by vm_compute].
  - vm_compute. constructor.
  - lia.
  - reflexivity.
  - reflexivity.
  - constructor.
  - constructor.
Defined.

(** ** Levels *)

Lemma height_nonneg n : 0 <= height n.
Proof.
  destruct n as [v above px py w]. cbn [height].
  induction above as [|c above IH]; simpl; lia.
Qed.

Lemma height_child v above px py w c :
  c ∈ above → 1 + height c <= height (MkNode v above px py w).
Proof.
  cbn [height]. induction above as [|c0 above IH]; [by intros ?%elem_of_nil|].
  intros [->|Hin]%elem_of_cons; simpl; [lia|]. specialize (IH Hin). lia.
Qed.

Lemma height_pos v above px py w :
  above ≠ [] → 1 <= height (MkNode v above px py w).
Proof.
  destruct above as [|c above]; [done|]. intros _.
  pose proof (height_child v (c :: above) px py w c ltac:(left)).
  pose proof (height_nonneg c). lia.
Qed.

Lemma childY_exact y h :
  is_int y → is_int (y - 30 * h) → 1 <= h →
  wrap (childY y) = y - 30 ∧ is_int (y - 30).
Proof.
  intros Hy Hh H1. unfold childY, nodeHeight, nodeSpacing.
  assert (is_int (y - 30)) by (unfold is_int, int_min, int_max in *; lia).
  split; [|done]. rewrite <- (wrap_id (y - 30)) by done. f_equal; lia.
Qed.

(** Every node of a subtree placed at height [y] is a placed subtree, in
    the band that the levels of the subtree occupy. *)
Lemma subnode_placed_y t : ∀ x y st d,
  is_int y → is_int (y - 30 * height t) →
  subnode (setPositions t x y st).1 d →
  ∃ d0 xd yd std,
    d = (setPositions d0 xd yd std).1 ∧
    is_int yd ∧ is_int (yd - 30 * height d0) ∧
    y - 30 * height t <= yd - 30 * height d0 ∧ yd <= y.
Proof.
  induction t as [v above px py w IH] using Node_tree_ind.
  intros x y st d Hy Hh Hsub.
  remember (setPositions (MkNode v above px py w) x y st).1 as t' eqn:Et'.
  destruct Hsub as [t'|t' c' d Hc' Hsub].
  - exists (MkNode v above px py w), x, y, st. split_and!; [done|done|done|lia|lia].
  - subst t'. rewrite setPositions_above in Hc'.
    apply list_elem_of_lookup in Hc' as [i Hi].
    apply place_lookup in Hi as (c & st_i & Hc & ->).
    assert (Hin : c ∈ above) by by eapply list_elem_of_lookup_2.
    pose proof (height_child v above px py w c Hin) as Hhc.
    pose proof (height_nonneg c) as Hc0.
    destruct (childY_exact y _ Hy Hh ltac:(lia)) as [Hcy Hy30].
    rewrite Hcy in Hsub.
    assert (Hhc' : is_int (y - 30 - 30 * height c))
      by (unfold is_int, int_min, int_max in *; lia).
    destruct (proj1 (Forall_forall _ _) IH c Hin _ _ _ _ Hy30 Hhc' Hsub)
      as (d0 & xd & yd & std & -> & Hyd & Hhd & Hlo & Hhi).
    exists d0, xd, yd, std. split_and!; [done|done|done|lia|lia].
Qed.

Lemma place_highestY x y (xs : list Node) :
  Forall (λ c, ∀ x y st, is_int y → is_int (y - 30 * height c) →
            highestY_ (setPositions c x y st).2 =
            if height c =? 0 then highestY_ st
            else Z.min (highestY_ st) (y - 30 * height c)) xs →
  is_int y →
  is_int (y - 30 * foldr (λ c h, Z.max (1 + height c) h) 0 xs) →
  ∀ o st,
    highestY_ (place x y xs o st).2 =
    let hs := foldr (λ c h, Z.max (1 + height c) h) 0 xs in
    if hs =? 0 then highestY_ st else Z.min (highestY_ st) (y - 30 * hs).
Proof.
  induction 1 as [|c xs Hc _ IH]; intros Hy Hh o st; [done|].
  cbn [foldr] in Hh. cbn zeta. cbn [foldr].
  set (hs := foldr (λ c h, Z.max (1 + height c) h) 0 xs) in *.
  assert (Hhs : 0 <= hs).
  { unfold hs. clear. induction xs as [|c0 xs IH]; simpl; lia. }
  pose proof (height_nonneg c) as Hc0.
  destruct (childY_exact y _ Hy Hh ltac:(lia)) as [Hcy Hy30].
  cbn -[setPositions]. rewrite int_sub_childY, Hcy.
  set (posX := int_add _ _).
  set (st1 := {| highestY_ := _; highestX_ := _ |}).
  assert (Hhc : is_int (y - 30 - 30 * height c))
    by (unfold is_int, int_min, int_max in *; lia).
  specialize (Hc posX (y - 30) st1 Hy30 Hhc).
  destruct (setPositions c posX (y - 30) st1) as [c1 st2]. cbn [snd] in Hc.
  assert (Hhxs : is_int (y - 30 * hs))
    by (unfold is_int, int_min, int_max in *; lia).
  specialize (IH Hy Hhxs (int_add o (int_add (width c) nodeSpacing)) st2).
  destruct (place x y xs _ st2) as [xs' st3]. cbn [snd] in *.
  rewrite IH, Hc. unfold st1. cbn [highestY_].
  destruct (Z.eqb_spec (Z.max (1 + height c) hs) 0); [lia|].
  destruct (Z.eqb_spec hs 0); destruct (Z.eqb_spec (height c) 0); lia.
Qed.

Lemma setPositions_highestY t : ∀ x y st,
  is_int y → is_int (y - 30 * height t) →
  highestY_ (setPositions t x y st).2 =
  if height t =? 0 then highestY_ st
  else Z.min (highestY_ st) (y - 30 * height t).
Proof.
  induction t as [v above px py w IH] using Node_tree_ind.
  intros x y st Hy Hh. rewrite setPositions_eq.
  pose proof (place_highestY x y above IH Hy Hh (Z.quot (int_neg w) 2) st) as H.
  destruct (place x y above _ st) as [above' st']. exact H.
Qed.

Lemma placed_child_level t x y st d c :
  is_int y → is_int (y - 30 * height t) →
  subnode (setPositions t x y st).1 d → c ∈ above_ d →
  positionY c = positionY d - 30.
Proof.
  intros Hy Hh Hsub Hc.
  destruct (subnode_placed_y _ _ _ _ _ Hy Hh Hsub)
    as ([v above px py w] & xd & yd & std & -> & Hyd & Hhd & _ & _).
  pose proof (setPositions_fields (MkNode v above px py w) xd yd std)
    as (_ & -> & _).
  rewrite setPositions_above in Hc.
  apply list_elem_of_lookup in Hc as [i Hi].
  apply place_lookup_fields in Hi as (c0 & Hc0 & _ & _ & ->).
  assert (Hne : above ≠ []) by (intros ->; done).
  pose proof (height_pos v above px py w Hne).
  by destruct (childY_exact yd _ Hyd Hhd ltac:(lia)) as [-> _].
Qed.

Lemma placed_level_bounds t x y st d :
  is_int y → is_int (y - 30 * height t) →
  subnode (setPositions t x y st).1 d →
  y - 30 * height t <= positionY d <= y.
Proof.
  intros Hy Hh Hsub.
  destruct (subnode_placed_y _ _ _ _ _ Hy Hh Hsub)
    as (d0 & xd & yd & std & -> & Hyd & Hhd & Hlo & Hhi).
  pose proof (setPositions_fields d0 xd yd std) as (_ & -> & _).
  pose proof (height_nonneg d0). lia.
Qed.

(** X13. The levels of the drawing: when [y - 30 * height] fits in an
    [int], every child in the placed subtree is exactly
    [nodeHeight + nodeSpacing] above its parent, every node lies between
    [y - 30 * height] and [y], and [highestY_] ends as the smaller of its
    old value and the height of the topmost level. *)
Theorem setPositions_levels t x y st :
  is_int y → is_int (y - 30 * height t) →
  let r := setPositions t x y st in
  (∀ d c, subnode r.1 d → c ∈ above_ d →
     positionY c = positionY d - (nodeHeight + nodeSpacing)) ∧
  (∀ d, subnode r.1 d →
     y - (nodeHeight + nodeSpacing) * height t <= positionY d <= y) ∧
  highestY_ r.2 =
    if height t =? 0 then highestY_ st
    else Z.min (highestY_ st) (y - (nodeHeight + nodeSpacing) * height t).
Proof.
  intros Hy Hh r. unfold nodeHeight, nodeSpacing. split_and!.
  - intros d c Hsub Hc.
    by rewrite (placed_child_level t x y st d c).
  - intros d Hsub. by apply (placed_level_bounds t x y st d).
  - unfold r. by rewrite setPositions_highestY.
Qed.

Lemma setPositions_levels_witness :
  let t := MkNode 1 [MkNode 2 [MkNode 4 [] 0 0 8] 0 0 8] 0 0 8 in
  let r := setPositions t 0 0 statics_init in
  (∀ d c, subnode r.1 d → c ∈ above_ d →
     positionY c = positionY d - (nodeHeight + nodeSpacing)) ∧
  (∀ d, subnode r.1 d →
     0 - (nodeHeight + nodeSpacing) * height t <= positionY d <= 0) ∧
  highestY_ r.2 =
    if height t =? 0 then highestY_ statics_init
    else Z.min (highestY_ statics_init)
               (0 - (nodeHeight + nodeSpacing) * height t).
Proof.
  intros t. apply (setPositions_levels t 0 0 statics_init); by vm_compute.
Defined.

(** ** The canvas *)

Lemma subnode_snoc n d c : subnode n d → c ∈ above_ d → subnode n c.
Proof.
  induction 1 as [n|n c0 d Hc0 Hsub IH]; intros Hc.
  - apply subnode_child with c; [done|constructor].
  - apply subnode_child with c0; [done|by apply IH].
Qed.

Section Canvas.

Variable Image : Type.
Variable Magick_Image : Z → Z → result Image.
Variable Magick_draw : Image → Drawable → result Image.
Variable Magick_write : Image → string → result unit.

Lemma for_each_drawFunc_drawables gx gy (calls : list (option Node * Node)) :
  ∀ image,
    for_each (drawFunc Image Magick_draw gx gy) image calls
    = for_each Magick_draw image (flat_map (drawables gx gy) calls).
Proof.
  induction calls as [|[below current] calls IH]; intros image; [done|].
  cbn [flat_map]. rewrite for_each_app. cbn [for_each drawFunc drawables].
  destruct (Magick_draw image _) as [image1| |]; simpl; [|done|done].
  destruct below as [below|]; simpl; [|apply IH].
  destruct (Magick_draw image1 _) as [image2| |]; simpl; [apply IH|done|done].
Qed.

(** X14. The picture fits its canvas.  For a tree none of whose width
    computations overflowed and whose canvas dimensions fit in an [int],
    [generateImage] creates an image [width + 160] pixels wide and
    [30 * height + 160] pixels high, draws for every node its label
    and, for every node but the root, the line to the node below it, in
    the order of [draw], and writes the image; every label and every line
    lies on the canvas, at least [imagePadding] pixels from its border. *)
Theorem generateImage_canvas fuel (nodes : NodesMap) outFileName t :
  Node_new fuel 1 nodes = Ok t →
  widths_exact t = true →
  width t + 2 * imagePadding <= int_max →
  30 * height t + 2 * imagePadding <= int_max →
  let t' := (setPositions t 0 0 statics_init).1 in
  let W := width t + 2 * imagePadding in
  let H := 30 * height t + 2 * imagePadding in
  let ds := flat_map (drawables (Z.quot W 2) (H - imagePadding))
                     (draw t' None) in
  generateImage Image Magick_Image Magick_draw Magick_write fuel statics_init
                nodes outFileName
  = (image ← Magick_Image W H;
     image ← for_each Magick_draw image ds;
     Magick_write image outFileName) ∧
  Forall (inside W H) ds.
Proof.
  intros Hnew Hexact HW HH t' W H ds.
  pose proof (Node_new_calculateWidth _ _ _ _ Hnew) as Ht.
  pose proof (calculateWidth_width_bounds t) as Hb. rewrite Ht in Hb.
  pose proof (textWidth_bounds t) as Htw.
  pose proof (height_nonneg t) as Hh0.
  pose proof (quot2_bounds (width t) ltac:(lia)) as Hq.
  unfold imagePadding in *.
  assert (Hp : placeable t 0).
  { split_and!; [done|done|..]; unfold is_int, int_min, int_max in *; lia. }
  assert (Hy : is_int 0) by (unfold is_int, int_min, int_max; lia).
  assert (Hyh : is_int (0 - 30 * height t))
    by (unfold is_int, int_min, int_max in *; lia).
  pose proof (setPositions_fields t 0 0 statics_init) as (_ & _ & Hw' & _).
  pose proof (setPositions_highestY t 0 0 statics_init Hy Hyh) as HhY.
  assert (HhY' : highestY_ (setPositions t 0 0 statics_init).2 = - 30 * height t).
  { rewrite HhY. cbn [statics_init highestY_].
    destruct (Z.eqb_spec (height t) 0); lia. }
  assert (HWq : Z.quot W 2 = Z.quot (width t) 2 + 80).
  { unfold W. rewrite !Z.quot_div_nonneg by lia.
    replace (width t + 2 * 80) with (width t + 80 * 2) by lia.
    by rewrite Z.div_add. }
  split.
  - unfold generateImage, imagePadding. rewrite Hnew. cbn [mbind result_bind].
    fold t' in Hw'. unfold t' in *.
    destruct (setPositions t 0 0 statics_init) as [t1 st1]. cbn [fst snd] in *.
    rewrite Hw', HhY'.
    assert (E1 : int_add (width t) (int_mul 80 2) = W).
    { unfold int_add, int_mul. rewrite (wrap_id (80 * 2)), wrap_id;
        unfold is_int, int_min, int_max, W in *; lia. }
    assert (E2 : int_sub (int_mul 80 2) (- 30 * height t) = H).
    { unfold int_sub, int_mul. rewrite (wrap_id (80 * 2)), wrap_id;
        unfold is_int, int_min, int_max, H in *; lia. }
    rewrite E1, E2.
    assert (E3 : int_sub H 80 = H - 80).
    { unfold int_sub. rewrite wrap_id; [done|].
      unfold is_int, int_min, int_max, H in *; lia. }
    rewrite E3, !Z.mod_small by (unfold int_max, W, H in *; lia).
    destruct (Magick_Image W H) as [image| |]; simpl; [|done|done].
    by rewrite for_each_drawFunc_drawables.
  - apply Forall_forall. intros dr Hdr.
    apply list_elem_of_In, in_flat_map in Hdr as ([q c] & Hcall & Hdr).
    apply list_elem_of_In in Hcall, Hdr.
    assert (Hnode : ∀ d, subnode t' d →
              - Z.quot (width t) 2 <= positionX d - Z.quot (textWidth d) 2 ∧
              positionX d - Z.quot (textWidth d) 2 + textWidth d
                <= width t - Z.quot (width t) 2 ∧
              0 <= Z.quot (textWidth d) 2 <= textWidth d ∧
              8 <= textWidth d ∧
              - 30 * height t <= positionY d <= 0).
    { intros d Hsub.
      pose proof (placed_level_bounds t 0 0 statics_init d Hy Hyh Hsub).
      destruct (subnode_placed _ _ _ _ _ Hp Hsub)
        as (d0 & xd & yd & std & -> & Hpd & Hlo & Hhi).
      pose proof (setPositions_fields d0 xd yd std) as (HX & HY & Hwd & Hv).
      pose proof (placeable_width _ _ Hpd) as Htwd.
      pose proof (textWidth_bounds d0).
      assert (Htd : textWidth (setPositions d0 xd yd std).1 = textWidth d0)
        by (unfold textWidth; by rewrite Hv).
      rewrite HX, Htd in *.
      pose proof (half_mono (textWidth d0) (width d0) ltac:(lia)).
      pose proof (quot2_bounds (textWidth d0) ltac:(lia)).
      lia. }
    assert (Hc : subnode t' c ∧
              match q with
              | None => True
              | Some p => subnode t' p ∧ positionY c = positionY p - 30
              end).
    { destruct (draw_parents _ _ _ _ Hcall) as [[-> ->]|(p & -> & Hsub & Hin)].
      - split; [constructor|done].
      - split; [by eapply subnode_snoc|]. split; [done|].
        by apply (placed_child_level t 0 0 statics_init p c). }
    destruct Hc as [Hc Hq'].
    destruct (Hnode c Hc) as (Hl & Hr & Hhalf & Ht8 & Hcy).
    cbn [drawables] in Hdr. rewrite HWq in Hdr.
    apply elem_of_cons in Hdr as [->|Hdr].
    + cbn [inside]. unfold imagePadding. rewrite <- textWidth_eq.
      unfold int_sub, int_add.
      rewrite (wrap_id (positionX c + _)), (wrap_id (positionY c + _)), wrap_id;
        unfold is_int, int_min, int_max, W, H in *; lia.
    + destruct q as [p|]; [|by apply elem_of_nil in Hdr].
      apply list_elem_of_singleton in Hdr as ->.
      destruct Hq' as [Hp' Hpy].
      destruct (Hnode p Hp') as (Hlp & Hrp & Hhalfp & Htp8 & Hpy').
      cbn [inside]. unfold imagePadding, int_sub, int_add.
      rewrite (wrap_id (positionX c + _)), (wrap_id (positionY c + _)),
        (wrap_id (positionX p + _)), (wrap_id (positionY p + _)),
        !wrap_id;
        unfold is_int, int_min, int_max, W, H in *; lia.
Qed.

End Canvas.

Lemma generateImage_canvas_witness :
  let nodes : NodesMap := list_to_map [(1, [2]); (2, [])] in
  let t := MkNode 1 [MkNode 2 [] 0 0 8] 0 0 8 in
  let ds := [DrawableText 80 110 "1"; DrawableText 80 80 "2";
             DrawableLine 84 88 84 95] in
  generateImage () (λ _ _, Ok ()) (λ _ _, Ok ()) (λ _ _, Ok ()) 5
                statics_init nodes "out.png"
  = (image ← Ok (); image ← for_each (λ _ _, Ok ()) image ds; Ok ()) ∧
  Forall (inside 168 190) ds.
Proof.
  intros nodes t ds.
  apply (generateImage_canvas () (λ _ _, Ok ()) (λ _ _, Ok ()) (λ _ _, Ok ())
           5 nodes "out.png" t).
  - vm_compute. reflexivity.
  - reflexivity.
  - by vm_compute.
  - by vm_compute.
Defined.

(** ** The values of the tree *)

Lemma values_descendants n : values n = value_ <$> (n :: descendants n).
Proof.
  induction n as [v above px py w IH] using Node_tree_ind.
  cbn [values descendants]. rewrite fmap_cons. cbn [value_]. f_equal.
  induction IH as [|c xs Hc _ IHxs]; [done|].
  cbn [flat_map]. by rewrite fmap_app, Hc, IHxs.
Qed.

Lemma tree_paths_hd n : ∀ path, hd 0 <$> tree_paths n path = values n.
Proof.
  induction n as [v above px py w IH] using Node_tree_ind. intros path.
  cbn [tree_paths values]. rewrite fmap_cons. cbn [hd]. f_equal.
  generalize (v :: path). intros p.
  induction IH as [|c xs Hc _ IHxs]; [done|].
  cbn [flat_map]. by rewrite fmap_app, Hc, IHxs.
Qed.

Lemma tree_paths_suffix n : ∀ path p,
  p ∈ tree_paths n path → ∃ q, p = q ++ value_ n :: path.
Proof.
  induction n as [v above px py w IH] using Node_tree_ind. intros path p.
  cbn [tree_paths value_]. intros [->|Hin]%elem_of_cons; [by exists []|].
  apply list_elem_of_In, in_flat_map in Hin as (c & Hc & Hin).
  apply list_elem_of_In in Hc, Hin.
  destruct (proj1 (Forall_forall _ _) IH c Hc _ _ Hin) as (q & ->).
  exists (q ++ [value_ c]). by rewrite <- app_assoc.
Qed.

Lemma tree_paths_NoDup n :
  (∀ d, subnode n d → NoDup (value_ <$> above_ d)) →
  ∀ path, NoDup (tree_paths n path).
Proof.
  induction n as [v above px py w IH] using Node_tree_ind. intros Hnd path.
  cbn [tree_paths]. apply NoDup_cons. split.
  - intros Hin. apply list_elem_of_In, in_flat_map in Hin as (c & Hc & Hin).
    apply list_elem_of_In in Hin.
    apply tree_paths_suffix in Hin as (q & Hq).
    apply (f_equal length) in Hq. rewrite length_app in Hq. simpl in Hq. lia.
  - pose proof (Hnd _ (subnode_refl _)) as Hvals. cbn [above_] in Hvals.
    assert (Hsub : ∀ c, c ∈ above → ∀ d, subnode c d → NoDup (value_ <$> above_ d)).
    { intros c Hc d Hd. apply Hnd. by apply subnode_child with c. }
    clear Hnd. generalize (v :: path). intros s.
    induction IH as [|c xs Hc _ IHxs]; [constructor|].
    cbn [flat_map]. rewrite fmap_cons in Hvals.
    apply NoDup_cons in Hvals as [Hcx Hvals].
    apply NoDup_app. split_and!.
    + apply Hc. apply Hsub. left.
    + intros p Hp Hp'.
      apply list_elem_of_In, in_flat_map in Hp' as (c' & Hc' & Hp').
      apply list_elem_of_In in Hc', Hp'.
      apply tree_paths_suffix in Hp as (q & ->).
      apply tree_paths_suffix in Hp' as (q' & Hq').
      change (q ++ value_ c :: s) with (q ++ [value_ c] ++ s) in Hq'.
      change (q' ++ value_ c' :: s) with (q' ++ [value_ c'] ++ s) in Hq'.
      rewrite !app_assoc in Hq'. apply app_inv_tail in Hq'.
      apply app_inj_tail in Hq' as [_ Heq].
      apply Hcx. rewrite Heq. by apply list_elem_of_fmap_2.
    + apply IHxs; [done|]. intros c' Hc'. apply Hsub. by right.
Qed.

Lemma tree_paths_chain n :
  (∀ d c, subnode n d → c ∈ above_ d →
     next (value_ c) = value_ d ∧ value_ c ≠ 1) →
  ∀ path, chain (value_ n :: path) → ∀ p, p ∈ tree_paths n path → chain p.
Proof.
  induction n as [v above px py w IH] using Node_tree_ind.
  intros Hedge path Hchain p. cbn [tree_paths value_] in *.
  intros [->|Hin]%elem_of_cons; [done|].
  apply list_elem_of_In, in_flat_map in Hin as (c & Hc & Hin).
  apply list_elem_of_In in Hc, Hin.
  destruct (Hedge _ c (subnode_refl _) Hc) as [Hnext Hc1].
  apply (proj1 (Forall_forall _ _) IH c Hc) with (path := v :: path); [| |done].
  - intros d c' Hd Hc'. apply Hedge; [|done]. by apply subnode_child with c.
  - by apply chain_child.
Qed.

(** The way down to the root is determined by the value it starts at. *)
Lemma chain_unique p : chain p → ∀ p', chain p' → hd 0 p = hd 0 p' → p = p'.
Proof.
  induction 1 as [|x u path Hnext Hx1 Hnotin Hchain IH]; intros p' Hp' Hhd.
  - destruct Hp' as [|x' u' path' Hnext' Hx1' _ _]; [done|].
    simpl in Hhd. congruence.
  - destruct Hp' as [|x' u' path' Hnext' Hx1' _ Hchain'].
    + simpl in Hhd. congruence.
    + simpl in Hhd. subst x'. f_equal. apply IH; [done|]. simpl. congruence.
Qed.

(** The values of a tree that follows the map are distinct. *)
Lemma values_NoDup i0 (nodes : NodesMap) n path :
  partial_map ∅ i0 nodes →
  (∀ d, subnode n d → nodes !! value_ d = Some (value_ <$> above_ d)) →
  (∀ l k, nodes !! k = Some l → NoDup l) →
  chain (value_ n :: path) →
  NoDup (values n).
Proof.
  intros Hpm Hshape Hvec Hchain. rewrite <- (tree_paths_hd n path).
  apply NoDup_fmap_2_strong.
  - intros p p' Hp Hp' Hhd.
    apply chain_unique; [| |done];
      (eapply tree_paths_chain; [|exact Hchain|done]);
      intros d c Hd Hc;
      destruct (pm_elem _ _ _ Hpm _ _ (value_ c) (Hshape d Hd)) as (? & _ & _ & ?);
      try done; by apply list_elem_of_fmap_2.
  - apply tree_paths_NoDup. intros d Hd. eapply Hvec. by apply Hshape.
Qed.

Lemma values_expands (nodes : NodesMap) n :
  (∀ d, subnode n d → nodes !! value_ d = Some (value_ <$> above_ d)) →
  ∀ v, v ∈ values n → expands nodes (value_ n) v.
Proof.
  induction n as [x above px py w IH] using Node_tree_ind.
  intros Hshape v. cbn [values value_].
  intros [->|Hin]%elem_of_cons; [constructor|].
  apply list_elem_of_In, in_flat_map in Hin as (c & Hc & Hin).
  apply list_elem_of_In in Hc, Hin.
  apply expands_child with (value_ <$> above) (value_ c).
  - apply (Hshape _ (subnode_refl _)).
  - by apply list_elem_of_fmap_2.
  - apply (proj1 (Forall_forall _ _) IH c Hc); [|done].
    intros d Hd. apply Hshape. by apply subnode_child with c.
Qed.

Lemma expands_values (nodes : NodesMap) r v :
  expands nodes r v →
  ∀ n, value_ n = r →
    (∀ d, subnode n d → nodes !! value_ d = Some (value_ <$> above_ d)) →
    v ∈ values n.
Proof.
  induction 1 as [r|r above c v Habove Hc Hexp IH]; intros n Hn Hshape.
  - destruct n as [x above px py w]. cbn [values value_] in *. subst. left.
  - pose proof (Hshape _ (subnode_refl _)) as Hroot.
    rewrite Hn, Habove in Hroot. injection Hroot as ->.
    apply list_elem_of_fmap in Hc as (n' & -> & Hn').
    assert (Hv : v ∈ values n').
    { apply IH; [done|]. intros d Hd. apply Hshape. by apply subnode_child with n'. }
    destruct n as [x above px py w]. cbn [values above_] in *. right.
    apply list_elem_of_In, in_flat_map. exists n'.
    split; by apply list_elem_of_In.
Qed.

Lemma expands_iter i0 (nodes : NodesMap) r v :
  partial_map ∅ i0 nodes → expands nodes r v → ∃ k : nat, Nat.iter k next v = r.
Proof.
  intros Hpm. induction 1 as [r|r above c v Habove Hc Hexp [k IH]].
  - by exists 0%nat.
  - exists (S k). simpl. rewrite IH.
    by destruct (pm_elem _ _ _ Hpm _ _ _ Habove Hc) as (? & _).
Qed.

Lemma expands_snoc (nodes : NodesMap) r u l v :
  expands nodes r u → nodes !! u = Some l → v ∈ l → expands nodes r v.
Proof.
  induction 1 as [r|r above c u Habove Hc Hexp IH]; intros Hl Hv.
  - apply expands_child with l v; [done|done|constructor].
  - apply expands_child with above c; [done|done|by apply IH].
Qed.

Lemma iter_expands i0 (nodes : NodesMap) (k : nat) : ∀ v,
  partial_map ∅ i0 nodes → v ∈ dom nodes → Nat.iter k next v = 1 →
  expands nodes 1 v.
Proof.
  induction k as [|k IH]; intros v Hpm Hv Hk.
  - simpl in Hk. subst. constructor.
  - destruct (decide (v = 1)) as [->|Hv1]; [constructor|].
    destruct (pm_next _ _ _ Hpm v Hv ltac:(set_solver) Hv1) as (l & Hl & Hc).
    rewrite Nat.iter_succ_r in Hk.
    apply expands_snoc with (next v) l; [|done|].
    + apply IH; [done| |done]. by apply elem_of_dom_2 in Hl.
    + apply list_elem_of_In, (count_occ_In Z.eq_dec). lia.
Qed.

(** X15. The tree built from the map of [buildUpTo] shows no value
    twice, and the values it shows are the keys from which repeated steps
    lead to 1. *)
Theorem tree_values_distinct fuel0 high nodes fuel t :
  0 < high → is_int high → buildUpTo fuel0 high = Ok nodes →
  Node_new fuel 1 nodes = Ok t →
  values t = value_ <$> (t :: descendants t) ∧
  NoDup (values t) ∧
  ∀ v, v ∈ values t ↔ v ∈ dom nodes ∧ ∃ k : nat, Nat.iter k next v = 1.
Proof.
  intros Hpos Hint Hbuild Hnew.
  destruct (buildUpTo_partial_map _ _ _ Hpos Hint Hbuild) as [Hpm _].
  destruct (Node_new_shape _ _ _ _ Hnew) as [Hroot Hshape].
  split_and!.
  - apply values_descendants.
  - apply (values_NoDup (high - 1) nodes t []); [done|done| |].
    + intros l k Hk. by eapply partial_map_vector_NoDup.
    + rewrite Hroot. constructor.
  - intros v. split.
    + intros Hv. apply (values_expands nodes) in Hv; [|done].
      rewrite Hroot in Hv.
      split.
      * eapply expands_key; [done| |done]. by destruct Hpm.
      * by eapply expands_iter.
    + intros [Hv [k Hk]]. eapply expands_values; [|done|done].
      by eapply iter_expands.
Qed.

Lemma tree_values_distinct_witness :
  let nodes : NodesMap := list_to_map [(1, [2]); (2, [])] in
  let t := MkNode 1 [MkNode 2 [] 0 0 8] 0 0 8 in
  values t = value_ <$> (t :: descendants t) ∧
  NoDup (values t) ∧
  ∀ v, v ∈ values t ↔ v ∈ dom nodes ∧ ∃ k : nat, Nat.iter k next v = 1.
Proof.
  intros nodes t. apply (tree_values_distinct 5 3 nodes 5 t).
  - lia.
  - by vm_compute.
  - vm_compute. reflexivity.
  - vm_compute. reflexivity.
Defined.

(** ** Completeness of the tree below the overflow-free bound *)

Lemma descends_falls i (steps : nat) : ∀ v0,
  0 < v0 → descends steps i v0 = true →
  ∃ k : nat, 0 < Nat.iter k next v0 < i.
Proof.
  induction steps as [|steps IH]; intros v0 Hpos Hd.
  - cbn [descends] in Hd. destruct (Z.ltb_spec v0 i) as [Hlt|Hge];
      [|discriminate Hd].
    exists 0%nat. simpl. clear - Hpos Hlt. lia.
  - cbn [descends] in Hd. destruct (Z.ltb_spec v0 i) as [Hlt|Hge].
    { exists 0%nat. simpl. clear - Hpos Hlt. lia. }
    assert (Hov : Z.odd v0 = true → 3 * v0 + 1 <= int_max).
    { intros Hodd. rewrite <- Z.negb_odd, Hodd in Hd. cbn [negb] in Hd.
      apply andb_prop in Hd as [Hle _]. apply Z.leb_le. exact Hle. }
    destruct (IH (collatz v0)) as [k Hk].
    + by apply collatz_pos.
    + unfold collatz. destruct (Z.even v0); [exact Hd|].
      apply andb_prop in Hd as [_ Hd]. exact Hd.
    + exists (S k). rewrite Nat.iter_succ_r, next_collatz by assumption.
      exact Hk.
Qed.

(** Below the bound every trajectory arrives at 1. *)
Lemma range_reaches_one i :
  1 <= i < overflow_free_bound → ∃ k : nat, Nat.iter k next i = 1.
Proof.
  induction (Z.lt_wf 0 i) as [i _ IH]. intros Hi.
  destruct (decide (i = 1)) as [->|Hne]; [by exists 0%nat|].
  destruct (descends_falls i descent_steps i) as [k Hk].
  - clear - Hi. lia.
  - apply (all_from_spec (λ i, descends descent_steps i i) (Z.to_nat 113381) 2);
      [exact descends_checked|].
    unfold overflow_free_bound in *. clear - Hi Hne. lia.
  - destruct (IH (Nat.iter k next i)) as [k' Hk'].
    + clear - Hk. lia.
    + clear - Hk Hi. lia.
    + exists (k' + k)%nat. rewrite Nat.iter_add. exact Hk'.
Qed.

Lemma key_reaches_one high (nodes : NodesMap) v :
  high <= overflow_free_bound → partial_map ∅ (high - 1) nodes →
  v ∈ dom nodes → ∃ m : nat, Nat.iter m next v = 1.
Proof.
  intros Hhigh Hpm Hv.
  destruct (pm_reach _ _ _ Hpm v Hv) as [->|(i & Hi & k & <- & Hbefore)];
    [by exists 0%nat|].
  destruct (range_reaches_one i ltac:(lia)) as [K HK].
  destruct (decide (k ≤ K)%nat) as [Hle|Hgt].
  - exists (K - k)%nat. rewrite <- Nat.iter_add.
    replace (K - k + k)%nat with K by lia. exact HK.
  - exfalso. apply (Hbefore K); [lia|exact HK].
Qed.

(** X16. Below the overflow-free bound the tree is complete: it shows
    every key of the map, each once, so it has as many nodes as the map
    has keys. *)
Theorem tree_complete fuel0 high nodes fuel t :
  0 < high <= overflow_free_bound → buildUpTo fuel0 high = Ok nodes →
  Node_new fuel 1 nodes = Ok t →
  NoDup (values t) ∧ (∀ v, v ∈ values t ↔ v ∈ dom nodes) ∧
  length (t :: descendants t) = size nodes.
Proof.
  intros Hhigh Hbuild Hnew.
  assert (Hint : is_int high).
  { unfold is_int, int_min, int_max, overflow_free_bound in *. lia. }
  assert (Hpos : 0 < high) by lia.
  destruct (buildUpTo_partial_map _ _ _ Hpos Hint Hbuild) as [Hpm _].
  destruct (Node_new_shape _ _ _ _ Hnew) as [Hroot Hshape].
  assert (Hnd : NoDup (values t)).
  { apply (values_NoDup (high - 1) nodes t []); [done|done| |].
    - intros l k Hk. by eapply partial_map_vector_NoDup.
    - rewrite Hroot. constructor. }
  assert (Hiff : ∀ v, v ∈ values t ↔ v ∈ dom nodes).
  { intros v. split.
    - intros Hv. apply (values_expands nodes) in Hv; [|done].
      rewrite Hroot in Hv. eapply expands_key; [done| |done]. by destruct Hpm.
    - intros Hv. destruct (key_reaches_one high nodes v) as [m Hm];
        [lia|done|done|].
      eapply expands_values; [|done|done]. by eapply iter_expands. }
  split_and!; [done|done|].
  replace (length (t :: descendants t)) with (length (values t))
    by (by rewrite values_descendants, length_fmap).
  rewrite <- size_dom, <- (size_list_to_set (C := gset Z) (values t)) by done.
  f_equal. apply set_eq. intros v. rewrite elem_of_list_to_set. apply Hiff.
Qed.

Lemma tree_complete_witness :
  let nodes : NodesMap := list_to_map [(1, [2]); (2, [])] in
  let t := MkNode 1 [MkNode 2 [] 0 0 8] 0 0 8 in
  NoDup (values t) ∧ (∀ v, v ∈ values t ↔ v ∈ dom nodes) ∧
  length (t :: descendants t) = size nodes.
Proof.
  intros nodes t. apply (tree_complete 5 3 nodes 5 t).
  - by vm_compute.
  - vm_compute. reflexivity.
  - vm_compute. reflexivity.
Defined.

(** ** The width of a label *)

Lemma pow10_succ (k : nat) :
  10 ^ (Z.of_nat k + 1) = 10 * 10 ^ Z.of_nat k ∧ 0 < 10 ^ Z.of_nat k.
Proof.
  split; [rewrite Z.pow_add_r by lia; lia|].
  apply Z.pow_pos_nonneg; lia.
Qed.

Lemma decimal_digits more : ∀ (k : nat) n acc,
  (k ≤ more)%nat → 10 ^ Z.of_nat k <= n < 10 ^ (Z.of_nat k + 1) →
  String.length (decimal more n acc) = (String.length acc + k + 1)%nat.
Proof.
  induction more as [|more IH]; intros k n acc Hk Hn.
  - assert (k = 0%nat) as -> by lia. simpl. lia.
  - cbn [decimal]. destruct (Z.eqb_spec (n / 10) 0) as [Hq|Hq].
    + assert (n < 10).
      { pose proof (Z.div_mod n 10 ltac:(lia)).
        pose proof (Z.mod_pos_bound n 10 ltac:(lia)). lia. }
      destruct k as [|k]; [simpl; lia|].
      replace (Z.of_nat (S k)) with (Z.of_nat k + 1) in Hn by lia.
      destruct (pow10_succ k) as [E ?]. rewrite E in Hn. lia.
    + destruct k as [|k].
      { exfalso. apply Hq. apply Z.div_small. simpl in Hn. lia. }
      rewrite (IH k (n / 10)); [simpl; lia|lia|].
      replace (Z.of_nat (S k)) with (Z.of_nat k + 1) in Hn by lia.
      destruct (pow10_succ k) as [E ?].
      rewrite (Z.pow_add_r 10 (Z.of_nat k + 1) 1), E in Hn by lia.
      rewrite E. split.
      * apply Z.div_le_lower_bound; lia.
      * apply Z.div_lt_upper_bound; lia.
Qed.

(** X17. The width of a label is 8 pixels for each character of the
    decimal representation of the value: 8 for 0, [8 * (k + 1)] for a
    positive value of [k + 1] digits, and 8 more for the minus sign of a
    negative one. *)
Theorem textWidth_digits n (k : nat) :
  is_int (value_ n) →
  (value_ n = 0 → textWidth n = 8) ∧
  (10 ^ Z.of_nat k <= value_ n < 10 ^ (Z.of_nat k + 1) →
     textWidth n = 8 * (Z.of_nat k + 1)) ∧
  (10 ^ Z.of_nat k <= - value_ n < 10 ^ (Z.of_nat k + 1) →
     textWidth n = 8 * (Z.of_nat k + 2)).
Proof.
  intros Hint. rewrite textWidth_eq. unfold int_to_string.
  assert (Hk : ∀ v, 10 ^ Z.of_nat k <= v < 10 ^ (Z.of_nat k + 1) →
                    v <= 2 ^ 31 → (k ≤ 9)%nat).
  { intros v Hv Hmax. destruct (decide (k ≤ 9)%nat) as [|Hgt]; [done|].
    exfalso.
    assert (10 ^ 10 <= 10 ^ Z.of_nat k) by (apply Z.pow_le_mono_r; lia).
    lia. }
  unfold is_int, int_min, int_max in Hint. split_and!.
  - intros ->. reflexivity.
  - intros Hv.
    pose proof (Z.pow_pos_nonneg 10 (Z.of_nat k) ltac:(lia) ltac:(lia)).
    destruct (Z.ltb_spec (value_ n) 0); [lia|].
    rewrite (decimal_digits 9 k); [simpl; lia| |done].
    apply (Hk (value_ n)); [done|lia].
  - intros Hv.
    pose proof (Z.pow_pos_nonneg 10 (Z.of_nat k) ltac:(lia) ltac:(lia)).
    destruct (Z.ltb_spec (value_ n) 0); [|lia].
    change (String.length ("-" +:+ decimal 9 (- value_ n) ""))
      with (S (String.length (decimal 9 (- value_ n) ""))).
    rewrite (decimal_digits 9 k); [simpl; lia| |done].
    apply (Hk (- value_ n)); [done|lia].
Qed.

Lemma textWidth_digits_witness :
  let n := MkNode 113383 [] 0 0 0 in
  (value_ n = 0 → textWidth n = 8) ∧
  (10 ^ Z.of_nat 5 <= value_ n < 10 ^ (Z.of_nat 5 + 1) →
     textWidth n = 8 * (Z.of_nat 5 + 1)) ∧
  (10 ^ Z.of_nat 5 <= - value_ n < 10 ^ (Z.of_nat 5 + 1) →
     textWidth n = 8 * (Z.of_nat 5 + 2)).
Proof.
  intros n. apply (textWidth_digits n 5). by vm_compute.
Defined.
